(** * EnriVision: the tar streaming engine and the resumable upload loop

    A shallow embedding of [src/shared/tar.ts] (ustar header encoder, layout
    planner, seekable byte stream) and of the chunk-upload routines of
    [AnalyzeMediaTool] ([uploadChunkWithRetry] and the upload loop of
    [uploadImageSetAsMediaSetTar]), with the properties the specification
    states about them.  The second part adds the single-file upload, the
    entry names of a media set, the sanitizer of the extraction and the URL
    check of [src/shared/validation.ts], with further properties of the
    code.

    Conventions of the embedding.
    - A JavaScript string is its list of UTF-16 code units ([jsstring]).
    - A [Buffer] is a [list byte]; a write through an index updates the list.
    - A JavaScript number that the code uses as a size, offset or counter is
      an integer of [Z]; all such values are taken in the range where IEEE
      doubles are exact, so [Math.floor] is the identity on them and [+], [-]
      are the integer operations.  The two numeric arguments of
      [iterateChunks] are modelled as full JavaScript numbers ([jsnum]: a
      rational, an infinity or NaN), since the code normalises them itself.
    - The file system is a finite map from paths to file contents that does
      not change during a run; [open] of a path that is not in the map
      throws, and a read returns all the requested bytes the file holds.
    - Loops without a syntactic bound take a fuel argument; [None] means the
      fuel ran out, and the theorems give fuel for which it does not. *)

From Stdlib Require Import ZArith NArith QArith Qround List Lia String Ascii Bool.
From Stdlib Require Strings.Byte.
From stdpp Require Import base tactics option list numbers strings gmap.

Local Open Scope Z_scope.

(** ** Bytes *)

Module Bytes.

Abbreviation byte := Init.Byte.byte.

(** The byte a [Buffer] stores when [n] is written to it (values wrap modulo 256). *)
Definition byte_of_N (n : N) : byte :=
  match Byte.of_N (n mod 256) with
  | Some b => b
  | None => Init.Byte.x00
  end.

Definition Z_of_byte (b : byte) : Z := Z.of_N (Byte.to_N b).

(** [Buffer.alloc(n, 0)]. *)
Definition zeros (n : Z) : list byte := replicate (Z.to_nat n) Init.Byte.x00.

(** [buf.subarray(start, end)]: negative indices count from the end, and
    both indices are clamped to the buffer. *)
Definition subarray (buf : list byte) (start end_ : Z) : list byte :=
  let len := Z.of_nat (length buf) in
  let clamp i := if i <? 0 then Z.max (len + i) 0 else Z.min i len in
  let s := clamp start in
  let e := clamp end_ in
  take (Z.to_nat (e - s)) (drop (Z.to_nat s) buf).

(** [buf.fill(value, start, end)] for [0 <= start <= end]. *)
Definition fill (buf : list byte) (value : byte) (start end_ : Z) : list byte :=
  list_inserts (Z.to_nat start) (replicate (Z.to_nat (end_ - start)) value) buf.

(** [src.copy(target, targetStart, 0, sourceEnd)]: bytes that do not fit in
    the target are dropped. *)
Definition copy (src target : list byte) (targetStart sourceEnd : Z) : list byte :=
  list_inserts (Z.to_nat targetStart) (take (Z.to_nat sourceEnd) src) target.

End Bytes.
Import Bytes.

(** ** JavaScript strings *)

Module JsString.

Definition jsstring := list N.

(** A string literal of the source, for ASCII text. *)
Definition js (s : string) : jsstring := map N_of_ascii (list_ascii_of_string s).

(** ECMAScript [WhiteSpace] and [LineTerminator] code points, the ones
    [String.prototype.trim] strips. *)
Definition is_white_space (c : N) : bool :=
  ((c =? 0x09) || (c =? 0x0A) || (c =? 0x0B) || (c =? 0x0C) || (c =? 0x0D)
   || (c =? 0x20) || (c =? 0xA0) || (c =? 0x1680)
   || ((0x2000 <=? c) && (c <=? 0x200A))
   || (c =? 0x2028) || (c =? 0x2029) || (c =? 0x202F) || (c =? 0x205F)
   || (c =? 0x3000) || (c =? 0xFEFF))%N.

Fixpoint trimStart (s : jsstring) : jsstring :=
  match s with
  | c :: rest => if is_white_space c then trimStart rest else s
  | [] => []
  end.

Definition trimEnd (s : jsstring) : jsstring := rev (trimStart (rev s)).

Definition trim (s : jsstring) : jsstring := trimEnd (trimStart s).

(** [s.includes(c)] for a one-unit needle. *)
Definition includes (s : jsstring) (c : N) : bool := existsb (N.eqb c) s.

Definition is_high_surrogate (c : N) : bool := ((0xD800 <=? c) && (c <=? 0xDBFF))%N.
Definition is_low_surrogate (c : N) : bool := ((0xDC00 <=? c) && (c <=? 0xDFFF))%N.

(** [Buffer.from(s, "utf8")]: a surrogate pair is one 4-byte sequence, an
    unpaired surrogate is written as U+FFFD. *)
Fixpoint utf8_encode (s : jsstring) : list byte :=
  match s with
  | [] => []
  | c :: rest =>
      if (c <? 0x80)%N then byte_of_N c :: utf8_encode rest
      else if (c <? 0x800)%N then
        byte_of_N (0xC0 + c / 64) :: byte_of_N (0x80 + c mod 64) :: utf8_encode rest
      else if is_high_surrogate c then
        match rest with
        | lo :: rest' =>
            if is_low_surrogate lo then
              let cp := (0x10000 + (c - 0xD800) * 0x400 + (lo - 0xDC00))%N in
              byte_of_N (0xF0 + cp / 262144)
                :: byte_of_N (0x80 + (cp / 4096) mod 64)
                :: byte_of_N (0x80 + (cp / 64) mod 64)
                :: byte_of_N (0x80 + cp mod 64) :: utf8_encode rest'
            else
              byte_of_N 0xEF :: byte_of_N 0xBF :: byte_of_N 0xBD :: utf8_encode rest
        | [] => [byte_of_N 0xEF; byte_of_N 0xBF; byte_of_N 0xBD]
        end
      else if is_low_surrogate c then
        byte_of_N 0xEF :: byte_of_N 0xBF :: byte_of_N 0xBD :: utf8_encode rest
      else
        byte_of_N (0xE0 + c / 4096) :: byte_of_N (0x80 + (c / 64) mod 64)
          :: byte_of_N (0x80 + c mod 64) :: utf8_encode rest
  end.

(** [Buffer.byteLength(s, "utf8")]. *)
Definition byteLength (s : jsstring) : Z := Z.of_nat (length (utf8_encode s)).

(** [oct.padStart(targetLength, "0")]. *)
Definition padStart (s : jsstring) (targetLength : Z) : jsstring :=
  replicate (Z.to_nat (targetLength - Z.of_nat (length s))) 48%N ++ s.

(** Octal digits of [n], least significant first. *)
Fixpoint oct_digits_rev (fuel : nat) (n : Z) : list Z :=
  match fuel with
  | O => []
  | S f => if n <? 8 then [n] else (n mod 8) :: oct_digits_rev f (n / 8)
  end.

(** The character of a digit. *)
Definition digit_char (d : Z) : N := (48 + Z.to_N d)%N.

(** [n.toString(8)] for an integer [n >= 0]. *)
Definition toString8 (n : Z) : jsstring :=
  map digit_char (rev (oct_digits_rev (S (Z.to_nat (Z.log2 n))) n)).

(** [buf.toString("utf8")] on a block of ASCII bytes; [None] when a byte is
    outside ASCII (such blocks are outside this model of the decoder). *)
Fixpoint ascii_decode (bs : list byte) : option jsstring :=
  match bs with
  | [] => Some []
  | b :: rest =>
      if (Byte.to_N b <? 0x80)%N
      then match ascii_decode rest with
           | Some s => Some (Byte.to_N b :: s)
           | None => None
           end
      else None
  end.

Definition is_oct_digit (c : N) : bool := ((48 <=? c) && (c <=? 55))%N.

(** The digit loop of [Number.parseInt(s, 8)]: stops at the first unit that
    is not an octal digit. *)
Fixpoint parse_oct_digits (acc : Z) (s : jsstring) : Z :=
  match s with
  | c :: rest =>
      if is_oct_digit c then parse_oct_digits (8 * acc + Z.of_N (c - 48)) rest else acc
  | [] => acc
  end.

(** [Number.parseInt(s, 8)]: leading white space, an optional sign, then
    digits; [None] stands for NaN (no digit at all). *)
Definition parseInt8 (s : jsstring) : option Z :=
  let body := trimStart s in
  let sign := match body with c :: _ => if (c =? 45)%N then -1 else 1 | [] => 1 end in
  let digits :=
    match body with
    | c :: r => if ((c =? 45) || (c =? 43))%N then r else body
    | [] => body
    end in
  match digits with
  | c :: _ => if is_oct_digit c then Some (sign * parse_oct_digits 0 digits) else None
  | [] => None
  end.

End JsString.
Import JsString.

(** ** The ustar header encoder *)

Module Header.

(** [writeString(buf, offset, length, value)]. *)
Definition writeString (buf : list byte) (offset length_ : Z) (value : jsstring) : list byte :=
  let bytes := utf8_encode value in
  copy bytes buf offset (Z.min (Z.of_nat (length bytes)) length_).

(** [writeOctal(buf, offset, length, value)]. *)
Definition writeOctal (buf : list byte) (offset length_ : Z) (value : Z) : list byte :=
  let raw := Z.max 0 value in
  let oct := toString8 raw in
  let padded := padStart oct (Z.max 0 (length_ - 1)) in
  let field := padded ++ [0%N] in
  writeString buf offset length_ field.

(** [computeTarChecksum(buf)]. *)
Definition computeTarChecksum (buf : list byte) : Z :=
  fold_left (fun sum b => sum + Z_of_byte b) buf 0.

(** [writeChecksum(buf, checksum)]. *)
Definition writeChecksum (buf : list byte) (checksum : Z) : list byte :=
  let oct := padStart (toString8 (Z.max 0 checksum)) 6 in
  let buf1 := writeString buf 148 6 oct in
  let buf2 := <[154%nat := Init.Byte.x00]> buf1 in
  <[155%nat := Init.Byte.x20]> buf2.

(** [buildUstarHeader(name, sizeBytes, mtimeSeconds)]. *)
Definition buildUstarHeader (name : jsstring) (sizeBytes mtimeSeconds : Z) : list byte :=
  let buf0 := zeros 512 in
  let buf1 := writeString buf0 0 100 name in
  let buf2 := writeOctal buf1 100 8 420 in
  let buf3 := writeOctal buf2 108 8 0 in
  let buf4 := writeOctal buf3 116 8 0 in
  let buf5 := writeOctal buf4 124 12 sizeBytes in
  let buf6 := writeOctal buf5 136 12 (Z.max 0 mtimeSeconds) in
  let buf7 := fill buf6 Init.Byte.x20 148 156 in
  let buf8 := <[156%nat := Init.Byte.x30]> buf7 in
  let buf9 := writeString buf8 257 6 (js "ustar" ++ [0%N]) in
  let buf10 := writeString buf9 263 2 (js "00") in
  let checksum := computeTarChecksum buf10 in
  writeChecksum buf10 checksum.

(** The size that the test suite's [parseTarHeader] reads back from a
    header block: the 12 bytes at 124..135, NULs removed, trimmed, parsed in
    base 8; anything that is not a non-negative number reads as 0. *)
Definition parseTarHeader_size (block : list byte) : option Z :=
  match ascii_decode (subarray block 124 136) with
  | None => None
  | Some sizeRaw =>
      let sizeText := trim (filter (fun c => c ≠ 0%N) sizeRaw) in
      let size := match sizeText with [] => Some 0 | _ => parseInt8 sizeText end in
      match size with
      | Some n => Some (if 0 <=? n then n else 0)
      | None => Some 0
      end
  end.

(** The number written in the checksum field: the six bytes at 148..153
    read in base 8. *)
Definition checksum_field_value (block : list byte) : option Z :=
  match ascii_decode (subarray block 148 154) with
  | Some s => parseInt8 s
  | None => None
  end.

End Header.
Import Header.

(** ** JavaScript numbers, for the arguments the code normalises itself *)

Module JsNum.

Inductive jsnum :=
  | JNaN
  | JNegInf
  | JFin (q : Q)
  | JPosInf.

Definition js_of_Z (z : Z) : jsnum := JFin (inject_Z z).

(** [Math.floor]. *)
Definition Math_floor (x : jsnum) : jsnum :=
  match x with
  | JFin q => JFin (inject_Z (Qfloor q))
  | _ => x
  end.

(** [Math.max(a, b)]: NaN if either argument is NaN. *)
Definition Math_max (a b : jsnum) : jsnum :=
  match a, b with
  | JNaN, _ | _, JNaN => JNaN
  | JPosInf, _ | _, JPosInf => JPosInf
  | JNegInf, y => y
  | x, JNegInf => x
  | JFin p, JFin q => if Qle_bool p q then JFin q else JFin p
  end.

(** [Math.min(a, b)]: NaN if either argument is NaN. *)
Definition Math_min (a b : jsnum) : jsnum :=
  match a, b with
  | JNaN, _ | _, JNaN => JNaN
  | JNegInf, _ | _, JNegInf => JNegInf
  | JPosInf, y => y
  | x, JPosInf => x
  | JFin p, JFin q => if Qle_bool p q then JFin p else JFin q
  end.

(** [a >= b]: false as soon as one side is NaN. *)
Definition js_ge (a b : jsnum) : bool :=
  match a, b with
  | JNaN, _ | _, JNaN => false
  | JPosInf, _ => true
  | _, JNegInf => true
  | JNegInf, _ => false
  | _, JPosInf => false
  | JFin p, JFin q => Qle_bool q p
  end.

End JsNum.
Import JsNum.

(** ** Entries, name validation and the layout planner *)

Module Tar.

Inductive TarEntrySource :=
  | SourceBuffer (buffer : list byte)
  | SourceFile (path : string) (sizeBytes : Z).

Record TarEntry := {
  name : jsstring;
  source : TarEntrySource;
  mtimeSeconds : Z
}.

Record TarLayoutEntry := {
  l_name : jsstring;
  header : list byte;
  l_source : TarEntrySource;
  headerStart : Z;
  contentStart : Z;
  contentSize : Z;
  paddingSize : Z;
  totalSize : Z
}.

Inductive tar_error :=
  | InvalidTarEntryName (name : jsstring)
  | OpenFailed (path : string)
  | ReadFailed (path : string)
  | TypeError.

(** A call that returns [a] or throws [e]. *)
Inductive result (E A : Type) :=
  | Ok (a : A)
  | Throw (e : E).
Arguments Ok {E A} a.
Arguments Throw {E A} e.

(** [computePaddingSize(sizeBytes)]; [%] is the truncating remainder. *)
Definition computePaddingSize (sizeBytes : Z) : Z :=
  let mod_ := Z.rem sizeBytes 512 in
  if mod_ =? 0 then 0 else 512 - mod_.

(** [entry.source.type === "buffer" ? entry.source.buffer.length : entry.source.sizeBytes]. *)
Definition source_size (s : TarEntrySource) : Z :=
  match s with
  | SourceBuffer buffer => Z.of_nat (length buffer)
  | SourceFile _ sizeBytes => sizeBytes
  end.

(** [computeTarSizeBytes(entries)]. *)
Definition computeTarSizeBytes (entries : list TarEntry) : Z :=
  let total :=
    fold_left
      (fun total entry =>
         let total1 := total + 512 in
         let contentSize := source_size (source entry) in
         let total2 := total1 + contentSize in
         total2 + computePaddingSize contentSize)
      entries 0 in
  total + 1024.

(** The character class [[A-Za-z0-9._-]]. *)
Definition is_safe_char (c : N) : bool :=
  (((65 <=? c) && (c <=? 90)) || ((97 <=? c) && (c <=? 122))
   || ((48 <=? c) && (c <=? 57)) || (c =? 46) || (c =? 95) || (c =? 45))%N.

(** [/^[A-Za-z0-9._-]{1,100}$/.test(s)]. *)
Definition safe_name_regex (s : jsstring) : bool :=
  (1 <=? length s)%nat && (length s <=? 100)%nat && forallb is_safe_char s.

(** [isSafeTarName(name)]. *)
Definition isSafeTarName (name : jsstring) : bool :=
  let normalized := trim name in
  match normalized with
  | [] => false
  | _ =>
      if includes normalized 0 then false
      else if includes normalized 47 || includes normalized 92 || includes normalized 58
      then false
      else
        let bytes := byteLength normalized in
        (0 <? bytes) && (bytes <=? 100) && safe_name_regex normalized
  end.

(** The loop of the [TarStream] constructor from a given cursor: the layout
    entries in order and the final cursor, or the error of the first
    rejected name. *)
Fixpoint layout_entries (entries : list TarEntry) (cursor : Z)
  : result tar_error (list TarLayoutEntry * Z) :=
  match entries with
  | [] => Ok ([], cursor)
  | entry :: rest =>
      if negb (isSafeTarName (name entry)) then Throw (InvalidTarEntryName (name entry))
      else
        let contentSize := source_size (source entry) in
        let header := buildUstarHeader (name entry) contentSize (mtimeSeconds entry) in
        let paddingSize := computePaddingSize contentSize in
        let totalSize := 512 + contentSize + paddingSize in
        let item :=
          {| l_name := name entry; header := header; l_source := source entry;
             headerStart := cursor; contentStart := cursor + 512;
             contentSize := contentSize; paddingSize := paddingSize;
             totalSize := totalSize |} in
        match layout_entries rest (cursor + totalSize) with
        | Throw e => Throw e
        | Ok (normalized, cursor') => Ok (item :: normalized, cursor')
        end
  end.

Record TarStream := {
  layout : list TarLayoutEntry;
  totalSizeBytes : Z
}.

(** [new TarStream(entries)]. *)
Definition TarStream_new (entries : list TarEntry) : result tar_error TarStream :=
  match layout_entries entries 0 with
  | Throw e => Throw e
  | Ok (normalized, cursor) => Ok {| layout := normalized; totalSizeBytes := cursor + 1024 |}
  end.

Definition getSizeBytes (t : TarStream) : Z := totalSizeBytes t.

(** *** The read cursor *)

Inductive Phase := entry_header | entry_content | entry_padding | eof.

Record SeekState := {
  phase : Phase;
  entryIndex : nat;
  phaseOffset : Z;
  fileHandle : option string   (* the path the open handle was opened on *)
}.

(** The loop of [seek(offset)], from entry [i] with the given cursor. *)
Fixpoint seek_from (entries : list TarLayoutEntry) (i : nat) (cursor offset : Z) : SeekState :=
  match entries with
  | [] =>
      let eofStart := cursor in
      {| phase := eof; entryIndex := i; phaseOffset := offset - eofStart; fileHandle := None |}
  | entry :: rest =>
      let next := cursor + totalSize entry in
      if offset <? next then
        let rel := offset - cursor in
        if rel <? 512 then
          {| phase := entry_header; entryIndex := i; phaseOffset := rel; fileHandle := None |}
        else
          let relContent := rel - 512 in
          if relContent <? contentSize entry then
            {| phase := entry_content; entryIndex := i; phaseOffset := relContent;
               fileHandle := None |}
          else
            let relPadding := relContent - contentSize entry in
            {| phase := entry_padding; entryIndex := i; phaseOffset := relPadding;
               fileHandle := None |}
      else seek_from rest (S i) next offset
  end.

Definition seek (t : TarStream) (offset : Z) : SeekState := seek_from (layout t) 0 0 offset.

Abbreviation filesystem := (gmap string (list byte)).

(** The state after the padding of entry [state.entryIndex] is exhausted. *)
Definition next_entry (t : TarStream) (state : SeekState) : SeekState :=
  let entryIndex' := S (entryIndex state) in
  {| phase := if (length (layout t) <=? entryIndex')%nat then eof else entry_header;
     entryIndex := entryIndex'; phaseOffset := 0; fileHandle := None |}.

(** [readNext], phase [eof]. *)
Definition readNext_eof (state : SeekState) (want : Z) : result tar_error (list byte * SeekState) :=
  let remaining := Z.max 0 (1024 - phaseOffset state) in
  if remaining <=? 0 then Ok ([], state)
  else
    let take_ := Z.min want remaining in
    Ok (zeros take_,
        {| phase := eof; entryIndex := entryIndex state;
           phaseOffset := phaseOffset state + take_; fileHandle := fileHandle state |}).

(** [readNext], phase [entry_header]. *)
Definition readNext_header (entry : TarLayoutEntry) (state : SeekState) (want : Z)
  : result tar_error (list byte * SeekState) :=
  let remaining := Z.max 0 (512 - phaseOffset state) in
  let take_ := Z.min want remaining in
  let out := subarray (header entry) (phaseOffset state) (phaseOffset state + take_) in
  let phaseOffset' := phaseOffset state + take_ in
  if 512 <=? phaseOffset' then
    Ok (out, {| phase := entry_content; entryIndex := entryIndex state; phaseOffset := 0;
                fileHandle := fileHandle state |})
  else
    Ok (out, {| phase := entry_header; entryIndex := entryIndex state;
                phaseOffset := phaseOffset'; fileHandle := fileHandle state |}).

(** [ensureFileHandle(state, filePath)]: the handle already open, or a new
    one on [filePath]; [open] throws when the file does not exist. *)
Definition ensureFileHandle (fs : filesystem) (state : SeekState) (filePath : string)
  : result tar_error string :=
  match fileHandle state with
  | Some h => Ok h
  | None =>
      match fs !! filePath with
      | Some _ => Ok filePath
      | None => Throw (OpenFailed filePath)
      end
  end.

(** [readNext], phase [entry_content]; [closeFileHandle] leaves the state
    without a handle. *)
Definition readNext_content (fs : filesystem) (entry : TarLayoutEntry) (state : SeekState)
    (want : Z) : result tar_error (list byte * SeekState) :=
  let to_padding handle :=
    {| phase := entry_padding; entryIndex := entryIndex state; phaseOffset := 0;
       fileHandle := handle |} in
  let remaining := Z.max 0 (contentSize entry - phaseOffset state) in
  if remaining <=? 0 then Ok ([], to_padding None)
  else
    let take_ := Z.min want remaining in
    match l_source entry with
    | SourceBuffer buffer =>
        let buf := subarray buffer (phaseOffset state) (phaseOffset state + take_) in
        let phaseOffset' := phaseOffset state + take_ in
        if contentSize entry <=? phaseOffset' then Ok (buf, to_padding (fileHandle state))
        else
          Ok (buf, {| phase := entry_content; entryIndex := entryIndex state;
                      phaseOffset := phaseOffset'; fileHandle := fileHandle state |})
    | SourceFile path _ =>
        match ensureFileHandle fs state path with
        | Throw e => Throw e
        | Ok handle =>
            (* handle.read(buffer, 0, take, state.phaseOffset) *)
            match fs !! handle with
            | None => Throw (ReadFailed handle)
            | Some content =>
                let data :=
                  take (Z.to_nat take_) (drop (Z.to_nat (phaseOffset state)) content) in
                let bytesRead := Z.of_nat (length data) in
                if bytesRead <=? 0 then Ok ([], to_padding None)
                else
                  let phaseOffset' := phaseOffset state + bytesRead in
                  if contentSize entry <=? phaseOffset' then Ok (data, to_padding None)
                  else
                    Ok (data, {| phase := entry_content; entryIndex := entryIndex state;
                                 phaseOffset := phaseOffset'; fileHandle := Some handle |})
            end
        end
    end.

(** [readNext], phase [entry_padding]. *)
Definition readNext_padding (t : TarStream) (entry : TarLayoutEntry) (state : SeekState)
    (want : Z) : result tar_error (list byte * SeekState) :=
  let remaining := Z.max 0 (paddingSize entry - phaseOffset state) in
  if remaining <=? 0 then Ok ([], next_entry t state)
  else
    let take_ := Z.min want remaining in
    let phaseOffset' := phaseOffset state + take_ in
    if paddingSize entry <=? phaseOffset' then Ok (zeros take_, next_entry t state)
    else
      Ok (zeros take_,
          {| phase := entry_padding; entryIndex := entryIndex state;
             phaseOffset := phaseOffset'; fileHandle := fileHandle state |}).

(** [readNext(state, maxBytes)]: the bytes read and the state after the
    call.  [this.layout[i]!] of an index outside the layout is [undefined],
    and reading a field of it throws a [TypeError]. *)
Definition readNext (t : TarStream) (fs : filesystem) (state : SeekState) (maxBytes : Z)
  : result tar_error (list byte * SeekState) :=
  let want := Z.max 1 maxBytes in
  let with_entry f :=
    match layout t !! entryIndex state with
    | Some entry => f entry
    | None => Throw TypeError
    end in
  match phase state with
  | eof => readNext_eof state want
  | entry_header => with_entry (fun entry => readNext_header entry state want)
  | entry_content => with_entry (fun entry => readNext_content fs entry state want)
  | entry_padding => with_entry (fun entry => readNext_padding t entry state want)
  end.

(** The inner loop of [iterateChunks] ([while (remaining > 0)]): the parts
    read, the state and the position when the loop is left. *)
Fixpoint read_parts (fuel : nat) (t : TarStream) (fs : filesystem) (state : SeekState)
    (remaining emptyReadsInARow : Z) (parts : list (list byte)) (position : Z)
  : option (result tar_error (list (list byte) * SeekState * Z)) :=
  match fuel with
  | O => None
  | S fuel' =>
      if 0 <? remaining then
        match readNext t fs state remaining with
        | Throw e => Some (Throw e)
        | Ok (read, state') =>
            let len := Z.of_nat (length read) in
            if len <=? 0 then
              let emptyReadsInARow' := emptyReadsInARow + 1 in
              if 50 <? emptyReadsInARow' then Some (Ok (parts, state', position))
              else read_parts fuel' t fs state' remaining emptyReadsInARow' parts position
            else
              read_parts fuel' t fs state' (remaining - len) 0 (parts ++ [read])
                (position + len)
        end
      else Some (Ok (parts, state, position))
  end.

(** How a generator run ends. *)
Inductive outcome :=
  | Returned
  | Raised (e : tar_error).

(** The outer loop of [iterateChunks] ([while (position < total)]): the
    chunks yielded, in order, and how the generator ended.  [inner] is the
    fuel handed to each run of the inner loop. *)
Fixpoint chunk_loop (fuel inner : nat) (t : TarStream) (fs : filesystem) (state : SeekState)
    (position : Z) (normalizedChunk : jsnum) : option (list (list byte) * outcome) :=
  match fuel with
  | O => None
  | S fuel' =>
      if position <? totalSizeBytes t then
        let remainingTar := totalSizeBytes t - position in
        let desired := Math_min normalizedChunk (js_of_Z remainingTar) in
        match desired with
        | JFin q =>
            match read_parts inner t fs state (Qfloor q) 0 [] position with
            | None => None
            | Some (Throw e) => Some ([], Raised e)
            | Some (Ok (parts, state', position')) =>
                match parts with
                | [] => Some ([], Returned)
                | _ :: _ =>
                    match chunk_loop fuel' inner t fs state' position' normalizedChunk with
                    | None => None
                    | Some (chunks, o) => Some (concat parts :: chunks, o)
                    end
                end
            end
        | _ =>
            (* NaN or -Infinity: [remaining > 0] is false, no part is read and
               the loop is left; [Math.min] with a finite number is never
               +Infinity *)
            Some ([], Returned)
        end
      else Some ([], Returned)
  end.

(** [iterateChunks(startOffset, chunkSize)]. *)
Definition iterateChunks (fuel : nat) (t : TarStream) (fs : filesystem)
    (startOffset chunkSize : jsnum) : option (list (list byte) * outcome) :=
  let normalizedStart := Math_max (js_of_Z 0) (Math_floor startOffset) in
  let normalizedChunk := Math_max (js_of_Z 1) (Math_floor chunkSize) in
  if js_ge normalizedStart (js_of_Z (totalSizeBytes t)) then Some ([], Returned)
  else
    match normalizedStart with
    | JFin q =>
        let position := Qfloor q in
        chunk_loop fuel fuel t fs (seek t position) position normalizedChunk
    | _ =>
        (* NaN: [seek] finds no entry and [position < total] is false *)
        Some ([], Returned)
    end.

End Tar.
Import Tar.

(** ** The chunk-upload routines of [AnalyzeMediaTool] *)

Module Upload.

Inductive upload_error :=
  | HttpError (status : Z)            (* an [EnriProxyHttpError] *)
  | ClientError (message : string)    (* any other error thrown by the client *)
  | UploadFailedAfterRetries          (* "Upload failed after retries." *)
  | TarSizeMismatch                   (* "Internal error: tar size mismatch." *)
  | InvalidServerOffset (offset : Z)  (* "Invalid server offset for tar upload" *)
  | UploadStalled                     (* "Upload stalled: no progress while sending tar chunks." *)
  | UploadIncomplete (sent total : Z) (* "Upload incomplete: sent .. of .. bytes." *)
  | StreamError (e : tar_error).      (* thrown by the tar stream *)

(** What the routines write to the console, and their waits. *)
Inductive event :=
  | LogResync (offset actual : Z)
  | LogRetry (attempt maxAttempts backoffMs : Z)
  | Sleep (ms : Z)
  | LogProgress (offset total : Z).

Record Session := {
  upload_id : string;
  chunk_size_bytes : jsnum
}.

(** The three calls of [EnriProxyClient] that the upload uses, as
    transitions of the server state [Srv]. *)
Record EnriProxyClient (Srv : Type) := {
  createUploadSession : Srv -> Z -> Srv * result upload_error Session;
  getUploadOffset : Srv -> string -> Srv * result upload_error Z;
  appendUploadChunk : Srv -> string -> Z -> list byte -> Z -> Srv * result upload_error Z
}.
Arguments createUploadSession {Srv} _ _ _.
Arguments getUploadOffset {Srv} _ _ _.
Arguments appendUploadChunk {Srv} _ _ _ _ _ _.

Definition maxAttempts : Z := 5.

(** The client errors that are not retried. *)
Definition is_client_error_status (status : Z) : bool :=
  (status =? 400) || (status =? 401) || (status =? 403) || (status =? 404)
  || (status =? 410) || (status =? 413).

Section WithClient.

Context {Srv : Type} (client : EnriProxyClient Srv).

(** The [for] loop of [uploadChunkWithRetry] from attempt number [attempt],
    with [remaining] iterations left ([attempt + remaining = maxAttempts + 1]).
    The state is the server state and the console trace. *)
Fixpoint attempts (remaining : nat) (uploadId : string) (offset : Z) (chunk : list byte)
    (timeoutMs : Z) (attempt : Z) (w : Srv) (log : list event)
  : (Srv * list event) * result upload_error Z :=
  match remaining with
  | O => ((w, log), Throw UploadFailedAfterRetries)
  | S remaining' =>
      match appendUploadChunk client w uploadId offset chunk timeoutMs with
      | (w1, Ok newOffset) => ((w1, log), Ok newOffset)
      | (w1, Throw error) =>
          (* the part of the [catch] block after the 409 branch *)
          let after_conflict w2 :=
            let fatal :=
              match error with
              | HttpError status => is_client_error_status status
              | _ => false
              end in
            if fatal then ((w2, log), Throw error)
            else if attempt =? maxAttempts then ((w2, log), Throw error)
            else
              let backoffMs := Z.min (1000 * 2 ^ (attempt - 1)) 10000 in
              attempts remaining' uploadId offset chunk timeoutMs (attempt + 1) w2
                (log ++ [LogRetry attempt maxAttempts backoffMs; Sleep backoffMs]) in
          match error with
          | HttpError status =>
              if status =? 409 then
                match getUploadOffset client w1 uploadId with
                | (w2, Throw e') => ((w2, log), Throw e')
                | (w2, Ok actual) =>
                    if negb (actual =? offset)
                    then ((w2, log ++ [LogResync offset actual]), Ok actual)
                    else after_conflict w2
                end
              else after_conflict w1
          | _ => after_conflict w1
          end
      end
  end.

(** [uploadChunkWithRetry(client, uploadId, offset, chunk, timeoutMs)]. *)
Definition uploadChunkWithRetry (uploadId : string) (offset : Z) (chunk : list byte)
    (timeoutMs : Z) (w : Srv) (log : list event) : (Srv * list event) * result upload_error Z :=
  attempts (Z.to_nat maxAttempts) uploadId offset chunk timeoutMs 1 w log.

(** The [for await] loop of [uploadImageSetAsMediaSetTar] over the chunks
    one generator run yields: the offset and [madeProgress] when the loop is
    left.  An error the generator raises is met only if no [break] left the
    loop before. *)
Fixpoint send_chunks (chunks : list (list byte)) (ending : outcome) (uploadId : string)
    (timeoutMs tarSizeBytes offset : Z) (madeProgress : bool) (w : Srv) (log : list event)
  : (Srv * list event) * result upload_error (Z * bool) :=
  match chunks with
  | [] =>
      match ending with
      | Returned => ((w, log), Ok (offset, madeProgress))
      | Raised e => ((w, log), Throw (StreamError e))
      end
  | chunk :: rest =>
      if Z.of_nat (length chunk) =? 0
      then send_chunks rest ending uploadId timeoutMs tarSizeBytes offset madeProgress w log
      else
        let expectedOffset := offset in
        match uploadChunkWithRetry uploadId expectedOffset chunk timeoutMs w log with
        | (wl, Throw e) => (wl, Throw e)
        | ((w1, log1), Ok nextOffset) =>
            let log2 := log1 ++ [LogProgress nextOffset tarSizeBytes] in
            if negb (nextOffset =? expectedOffset + Z.of_nat (length chunk))
            then ((w1, log2), Ok (nextOffset, true))
            else if tarSizeBytes <=? nextOffset then ((w1, log2), Ok (nextOffset, true))
            else send_chunks rest ending uploadId timeoutMs tarSizeBytes nextOffset true w1 log2
        end
  end.

(** The [while (offset < tarSizeBytes)] loop of [uploadImageSetAsMediaSetTar];
    [gen_fuel] is the fuel of each generator run. *)
Fixpoint upload_loop (fuel gen_fuel : nat) (tar : TarStream) (fs : filesystem) (uploadId : string)
    (chunkSize : jsnum) (timeoutMs tarSizeBytes offset : Z) (w : Srv) (log : list event)
  : option ((Srv * list event) * result upload_error Z) :=
  match fuel with
  | O => None
  | S fuel' =>
      if offset <? tarSizeBytes then
        match iterateChunks gen_fuel tar fs (js_of_Z offset) chunkSize with
        | None => None
        | Some (chunks, ending) =>
            match send_chunks chunks ending uploadId timeoutMs tarSizeBytes offset false w log with
            | (wl, Throw e) => Some (wl, Throw e)
            | ((w1, log1), Ok (offset', madeProgress)) =>
                if negb madeProgress then Some ((w1, log1), Throw UploadStalled)
                else upload_loop fuel' gen_fuel tar fs uploadId chunkSize timeoutMs tarSizeBytes
                       offset' w1 log1
            end
        end
      else Some ((w, log), Ok offset)
  end.

(** [uploadImageSetAsMediaSetTar] from the point where the tar entries are
    built (the manifest and the [stat] of the files, which produce
    [entries], are not part of the model): sizing, construction of the
    stream, session creation, the upload loop and the final check. *)
Definition uploadImageSetAsMediaSetTar (fuel : nat) (fs : filesystem)
    (entries : list TarEntry) (timeoutMs : Z) (w : Srv)
  : option ((Srv * list event) * result upload_error string) :=
  let tarSizeBytes := computeTarSizeBytes entries in
  match TarStream_new entries with
  | Throw e => Some ((w, []), Throw (StreamError e))
  | Ok tar =>
      if negb (getSizeBytes tar =? tarSizeBytes) then Some ((w, []), Throw TarSizeMismatch)
      else
        match createUploadSession client w tarSizeBytes with
        | (w1, Throw e) => Some ((w1, []), Throw e)
        | (w1, Ok session) =>
            let chunkSize := Math_max (js_of_Z 1) (Math_floor (chunk_size_bytes session)) in
            match getUploadOffset client w1 (upload_id session) with
            | (w2, Throw e) => Some ((w2, []), Throw e)
            | (w2, Ok offset) =>
                if (offset <? 0) || (tarSizeBytes <? offset)
                then Some ((w2, []), Throw (InvalidServerOffset offset))
                else
                  match upload_loop fuel fuel tar fs (upload_id session) chunkSize timeoutMs
                          tarSizeBytes offset w2 [] with
                  | None => None
                  | Some (wl, Throw e) => Some (wl, Throw e)
                  | Some (wl, Ok offset') =>
                      if negb (offset' =? tarSizeBytes)
                      then Some (wl, Throw (UploadIncomplete offset' tarSizeBytes))
                      else Some (wl, Ok (upload_id session))
                  end
            end
        end
  end.

End WithClient.

End Upload.
Import Upload.

(** ** Notions the statements use *)

Module Notions.

(** The name invariant in the words of the specification: non-empty, at
    most 100 bytes of UTF-8, no path separator, only safe characters. *)
Definition name_invariant (name : jsstring) : bool :=
  match name with
  | [] => false
  | _ =>
      (byteLength name <=? 100)
      && negb (includes name 47) && negb (includes name 92)
      && forallb is_safe_char name
  end.

Fixpoint sum_Z (l : list Z) : Z :=
  match l with
  | [] => 0
  | x :: rest => x + sum_Z rest
  end.

(** Header, content and padding of one entry, as [computeTarSizeBytes] counts them. *)
Definition entry_total (entry : TarEntry) : Z :=
  512 + source_size (source entry) + computePaddingSize (source_size (source entry)).

(** A file-backed source is readable when the file exists and holds at
    least the declared number of bytes. *)
Definition source_readable (fs : filesystem) (s : TarEntrySource) : bool :=
  match s with
  | SourceBuffer _ => true
  | SourceFile path sizeBytes =>
      match fs !! path with
      | Some content => (0 <=? sizeBytes) && (sizeBytes <=? Z.of_nat (length content))
      | None => false
      end
  end.

Definition entries_readable (fs : filesystem) (entries : list TarEntry) : bool :=
  forallb (fun entry => source_readable fs (source entry)) entries.

(** The number a list of octal digits denotes, least significant first. *)
Fixpoint oct_value (ds : list Z) : Z :=
  match ds with
  | [] => 0
  | d :: rest => d + 8 * oct_value rest
  end.

Definition is_digit (d : Z) : Prop := 0 <= d < 8.

Definition is_ascii (c : N) : Prop := (c < 128)%N.

(** The bytes [writeString(buf, offset, length, value)] copies into [buf]. *)
Definition field_bytes (length_ : Z) (value : jsstring) : list byte :=
  take (Z.to_nat (Z.min (Z.of_nat (length (utf8_encode value))) length_)) (utf8_encode value).

(** The header block before the checksum is written into it. *)
Definition header_before_checksum (name : jsstring) (sizeBytes mtimeSeconds : Z) : list byte :=
  let buf0 := zeros 512 in
  let buf1 := writeString buf0 0 100 name in
  let buf2 := writeOctal buf1 100 8 420 in
  let buf3 := writeOctal buf2 108 8 0 in
  let buf4 := writeOctal buf3 116 8 0 in
  let buf5 := writeOctal buf4 124 12 sizeBytes in
  let buf6 := writeOctal buf5 136 12 (Z.max 0 mtimeSeconds) in
  let buf7 := fill buf6 Init.Byte.x20 148 156 in
  let buf8 := <[156%nat := Init.Byte.x30]> buf7 in
  let buf9 := writeString buf8 257 6 (js "ustar" ++ [0%N]) in
  writeString buf9 263 2 (js "00").

(** The sum of the bytes of a block, each taken as a number from 0 to 255. *)
Definition byte_sum (block : list byte) : Z :=
  sum_Z (map (fun b => Z.of_N (Byte.to_N b)) block).

(** A block with the eight bytes of its checksum field, at offsets 148 to
    155, replaced by spaces. *)
Definition blank_checksum_field (block : list byte) : list byte :=
  take 148 block ++ replicate 8 Init.Byte.x20 ++ drop 156 block.

(** The fuel that suffices for any run of [iterateChunks] on a stream. *)
Definition stream_fuel (t : TarStream) : nat :=
  Z.to_nat (51 * Z.max 0 (totalSizeBytes t) + 52).

(** The bytes of the archive as the format lays them out. *)
Definition content_bytes (fs : filesystem) (s : TarEntrySource) : list byte :=
  match s with
  | SourceBuffer buffer => buffer
  | SourceFile path sizeBytes => take (Z.to_nat sizeBytes) (default [] (fs !! path))
  end.

Definition entry_bytes (fs : filesystem) (e : TarLayoutEntry) : list byte :=
  header e ++ content_bytes fs (l_source e) ++ zeros (paddingSize e).

Definition archive_from (fs : filesystem) (es : list TarLayoutEntry) : list byte :=
  concat (map (entry_bytes fs) es) ++ zeros 1024.

Definition archive_bytes (fs : filesystem) (t : TarStream) : list byte :=
  archive_from fs (layout t).

(** The bytes a cursor in state [st] has still to produce. *)
Definition rest_bytes (fs : filesystem) (t : TarStream) (st : SeekState) : list byte :=
  match phase st with
  | eof => zeros (1024 - phaseOffset st)
  | ph =>
      match layout t !! entryIndex st with
      | None => []
      | Some e =>
          let after := archive_from fs (drop (S (entryIndex st)) (layout t)) in
          match ph with
          | entry_header =>
              drop (Z.to_nat (phaseOffset st)) (header e)
              ++ content_bytes fs (l_source e) ++ zeros (paddingSize e) ++ after
          | entry_content =>
              drop (Z.to_nat (phaseOffset st)) (content_bytes fs (l_source e))
              ++ zeros (paddingSize e) ++ after
          | _ => zeros (paddingSize e - phaseOffset st) ++ after
          end
      end
  end.

(** A layout entry as the constructor builds it over readable sources. *)
Definition wf_layout_entry (fs : filesystem) (e : TarLayoutEntry) : Prop :=
  length (header e) = 512%nat
  /\ contentSize e = Z.of_nat (length (content_bytes fs (l_source e)))
  /\ 0 <= paddingSize e
  /\ totalSize e = 512 + contentSize e + paddingSize e
  /\ match l_source e with
     | SourceBuffer _ => True
     | SourceFile path sizeBytes =>
         exists content, fs !! path = Some content
                         /\ 0 <= sizeBytes <= Z.of_nat (length content)
     end.

Definition wf_stream (fs : filesystem) (t : TarStream) : Prop :=
  Forall (wf_layout_entry fs) (layout t)
  /\ totalSizeBytes t = Z.of_nat (length (archive_bytes fs t)).

(** The cursor states that [seek] and [readNext] produce on such a stream. *)
Definition wf_state (t : TarStream) (st : SeekState) : Prop :=
  0 <= phaseOffset st
  /\ match phase st with
     | entry_header =>
         (exists e, layout t !! entryIndex st = Some e)
         /\ phaseOffset st < 512 /\ fileHandle st = None
     | entry_content =>
         exists e, layout t !! entryIndex st = Some e
                   /\ phaseOffset st <= contentSize e
                   /\ forall h, fileHandle st = Some h ->
                                exists sizeBytes, l_source e = SourceFile h sizeBytes
     | entry_padding =>
         exists e, layout t !! entryIndex st = Some e /\ phaseOffset st <= paddingSize e
     | eof => phaseOffset st <= 1024
     end.

(** The number of empty reads [readNext] returns from [st] before the next
    read that produces bytes. *)
Definition pending (t : TarStream) (st : SeekState) : nat :=
  match layout t !! entryIndex st with
  | None => 0%nat
  | Some e =>
      match phase st with
      | entry_content =>
          if phaseOffset st <? contentSize e then 0%nat
          else if 0 <? paddingSize e then 1%nat else 2%nat
      | entry_padding => if phaseOffset st <? paddingSize e then 0%nat else 1%nat
      | _ => 0%nat
      end
  end.

(** What one [readNext] does on a well-formed stream: it returns, the
    bytes it returns are the next bytes of the archive, at most [maxBytes]
    of them, and it returns no byte only while [pending] counts down. *)
Definition read_ok (fs : filesystem) (t : TarStream) (st : SeekState) (maxBytes : Z)
    (r : result tar_error (list byte * SeekState)) : Prop :=
  exists bs st',
    r = Ok (bs, st')
    /\ bs ++ rest_bytes fs t st' = rest_bytes fs t st
    /\ Z.of_nat (length bs) <= maxBytes
    /\ wf_state t st'
    /\ (pending t st = 0%nat -> rest_bytes fs t st <> [] -> bs <> [])
    /\ (pending t st <> 0%nat -> bs = [] /\ S (pending t st') = pending t st).

(** The wait before the retry that follows attempt number [attempt]. *)
Definition backoff (attempt : Z) : Z := Z.min (1000 * 2 ^ (attempt - 1)) 10000.

(** The console trace of [remaining] failed attempts that are all retried
    but the last, the first one being attempt number [attempt]. *)
Fixpoint retry_log (remaining : nat) (attempt : Z) : list event :=
  match remaining with
  | O => []
  | S O => []
  | S remaining' =>
      LogRetry attempt maxAttempts (backoff attempt) :: Sleep (backoff attempt)
        :: retry_log remaining' (attempt + 1)
  end.

(** A normalised chunk size: an integer that is at least 1, or +Infinity. *)
Definition chunk_ok (c : jsnum) : Prop :=
  c = JPosInf \/ exists z, 1 <= z /\ c = js_of_Z z.

(** [length chunk <= c] for a normalised chunk size. *)
Definition within_chunk (c : jsnum) (chunk : list byte) : Prop :=
  match c with
  | JFin q => (inject_Z (Z.of_nat (length chunk)) <= q)%Q
  | JPosInf => True
  | _ => False
  end.

End Notions.
Import Notions.

(** ** A small media set, used to instantiate the statements *)

Module Examples.

Definition example_fs : filesystem :=
  {[ "/tmp/shot-a.png"%string := utf8_encode (js "hello world");
     "/tmp/shot-b.png"%string := utf8_encode (js "0123456789abcdef0123456789abcdef") ]}.

Definition example_entries : list TarEntry :=
  [ {| name := js "manifest.json";
       source := SourceBuffer (utf8_encode (js "{}"));
       mtimeSeconds := 1700000000 |};
    {| name := js "000001.png";
       source := SourceFile "/tmp/shot-a.png" 11;
       mtimeSeconds := 1700000000 |};
    {| name := js "000002.png";
       source := SourceFile "/tmp/shot-b.png" 32;
       mtimeSeconds := 1700000000 |} ].

Definition example_stream : TarStream :=
  match TarStream_new example_entries with
  | Ok t => t
  | Throw _ => {| layout := []; totalSizeBytes := 1024 |}
  end.

(** A server that answers every append with an offset conflict and every
    offset query with offset 0; its state counts the append calls. *)
Definition stuck_client : EnriProxyClient nat :=
  {| createUploadSession := fun w _ =>
       (w, Ok {| upload_id := "upload-1"; chunk_size_bytes := js_of_Z 512 |});
     getUploadOffset := fun w _ => (w, Ok 0);
     appendUploadChunk := fun w _ _ _ _ => (S w, Throw (HttpError 409)) |}.

(** A server that conflicts on every append and reports offset 1024. *)
Definition ahead_client : EnriProxyClient nat :=
  {| createUploadSession := fun w _ =>
       (w, Ok {| upload_id := "upload-1"; chunk_size_bytes := js_of_Z 512 |});
     getUploadOffset := fun w _ => (w, Ok 1024);
     appendUploadChunk := fun w _ _ _ _ => (S w, Throw (HttpError 409)) |}.

End Examples.
Import Examples.

(** ** The header reader of the test suite, and further notions on streams *)

Module TarReader.

(** [s.indexOf(c)] for a one-unit needle: the first index, if any. *)
Fixpoint indexOf (s : jsstring) (c : N) : option nat :=
  match s with
  | [] => None
  | x :: rest =>
      if (x =? c)%N then Some 0%nat
      else match indexOf rest c with
           | Some i => Some (S i)
           | None => None
           end
  end.

(** The name that the test suite's [parseTarHeader] reads back from a
    header block: the 100 bytes at 0..99 as text, cut at the first NUL,
    trimmed ([None] when a byte is outside ASCII, as for [ascii_decode]). *)
Definition parseTarHeader_name (block : list byte) : option jsstring :=
  match ascii_decode (subarray block 0 100) with
  | None => None
  | Some nameRaw =>
      let cut :=
        match indexOf nameRaw 0 with
        | Some nullIndex => take nullIndex nameRaw
        | None => nameRaw
        end in
      Some (trim cut)
  end.

(** A cursor holds an open handle only while it is inside the content of a
    file-backed entry, and then on the file of that entry. *)
Definition handle_inv (t : TarStream) (st : SeekState) : Prop :=
  match fileHandle st with
  | None => True
  | Some h =>
      phase st = entry_content
      /\ exists e sizeBytes,
           layout t !! entryIndex st = Some e /\ l_source e = SourceFile h sizeBytes
  end.

(** The cursor state at [k] bytes into layout entry number [i]. *)
Definition state_in_entry (i : nat) (e : TarLayoutEntry) (k : Z) : SeekState :=
  if k <? 512 then
    {| phase := entry_header; entryIndex := i; phaseOffset := k; fileHandle := None |}
  else if k - 512 <? contentSize e then
    {| phase := entry_content; entryIndex := i; phaseOffset := k - 512; fileHandle := None |}
  else
    {| phase := entry_padding; entryIndex := i; phaseOffset := k - 512 - contentSize e;
       fileHandle := None |}.

(** A sequence of [readNext] calls with the given [maxBytes], from [st]:
    the state after the last call. *)
Fixpoint run_reads (t : TarStream) (fs : filesystem) (st : SeekState) (wants : list Z)
  : result tar_error SeekState :=
  match wants with
  | [] => Ok st
  | maxBytes :: rest =>
      match readNext t fs st maxBytes with
      | Throw e => Throw e
      | Ok (_, st') => run_reads t fs st' rest
      end
  end.

(** A numeric header field: [width] octal digits, zero padded, and a NUL. *)
Definition octal_field (width : Z) (value : Z) : list byte :=
  map byte_of_N (padStart (toString8 value) width) ++ [Init.Byte.x00].

End TarReader.
Import TarReader.

(** ** The single-file upload of [AnalyzeMediaTool] *)

Module FileUpload.

Inductive file_upload_error :=
  | FileNotFound (path : string)     (* "File not found: .." *)
  | OpenError (path : string)        (* [open(filePath, "r")] failing *)
  | InvalidBufferSize                (* [Buffer.allocUnsafe] refusing its size *)
  | UploadError (e : upload_error).  (* raised by the client or by the upload routines *)

Section WithClient.

Context {Srv : Type} (client : EnriProxyClient Srv).

(** The [while (offset < fileSize)] loop of [uploadFileResumable] on a file
    with bytes [content].  [Buffer.allocUnsafe] throws on a size that is
    NaN, negative or infinite.  The result is [None] when the fuel runs out,
    and for a read at a negative position, which depends on the version of
    Node (the client of the repository never returns a negative offset). *)
Fixpoint file_loop (fuel : nat) (content : list byte) (uploadId : string) (chunkSize : jsnum)
    (timeoutMs fileSize offset : Z) (w : Srv) (log : list event)
  : option ((Srv * list event) * result file_upload_error Z) :=
  match fuel with
  | O => None
  | S fuel' =>
      if offset <? fileSize then
        let remaining := fileSize - offset in
        match Math_min chunkSize (js_of_Z remaining) with
        | JFin q =>
            let nextSize := Qfloor q in
            if nextSize <? 0 then Some ((w, log), Throw InvalidBufferSize)
            else if offset <? 0 then None
            else
              (* handle.read(buffer, 0, nextSize, offset) *)
              let data := take (Z.to_nat nextSize) (drop (Z.to_nat offset) content) in
              let bytesRead := Z.of_nat (length data) in
              if bytesRead <=? 0 then Some ((w, log), Ok offset)
              else
                match uploadChunkWithRetry client uploadId offset data timeoutMs w log with
                | (wl, Throw e) => Some (wl, Throw (UploadError e))
                | ((w1, log1), Ok offset') =>
                    file_loop fuel' content uploadId chunkSize timeoutMs fileSize offset' w1
                      (log1 ++ [LogProgress offset' fileSize])
                end
        | _ => Some ((w, log), Throw InvalidBufferSize)
        end
      else Some ((w, log), Ok offset)
  end.

(** [uploadFileResumable(client, filePath, fileSize, session, timeoutMs)]. *)
Definition uploadFileResumable (fuel : nat) (fs : filesystem) (filePath : string)
    (fileSize : Z) (session : Session) (timeoutMs : Z) (w : Srv)
  : option ((Srv * list event) * result file_upload_error Z) :=
  let chunkSize := Math_max (js_of_Z 1) (Math_floor (chunk_size_bytes session)) in
  match fs !! filePath with
  | None => Some ((w, []), Throw (OpenError filePath))
  | Some content =>
      match getUploadOffset client w (upload_id session) with
      | (w1, Throw e) => Some ((w1, []), Throw (UploadError e))
      | (w1, Ok offset) =>
          file_loop fuel content (upload_id session) chunkSize timeoutMs fileSize offset w1 []
      end
  end.

(** The branch of [execute] for a single path, up to the upload id:
    [assertReadableFile], the creation of the session, the upload and the
    check of the final offset. *)
Definition uploadSingleFile (fuel : nat) (fs : filesystem) (singlePath : string)
    (timeoutMs : Z) (w : Srv)
  : option ((Srv * list event) * result file_upload_error string) :=
  match fs !! singlePath with
  | None => Some ((w, []), Throw (FileNotFound singlePath))
  | Some content =>
      let fileSize := Z.of_nat (length content) in
      match createUploadSession client w fileSize with
      | (w1, Throw e) => Some ((w1, []), Throw (UploadError e))
      | (w1, Ok session) =>
          match uploadFileResumable fuel fs singlePath fileSize session timeoutMs w1 with
          | None => None
          | Some (wl, Throw e) => Some (wl, Throw e)
          | Some (wl, Ok finalOffset) =>
              if negb (finalOffset =? fileSize)
              then Some (wl, Throw (UploadError (UploadIncomplete finalOffset fileSize)))
              else Some (wl, Ok (upload_id session))
          end
      end
  end.

End WithClient.

End FileUpload.
Import FileUpload.

(** ** Notions on the behaviour of a server *)

Module Servers.

(** The time a console trace spends waiting. *)
Fixpoint slept (log : list event) : Z :=
  match log with
  | [] => 0
  | Sleep ms :: rest => ms + slept rest
  | _ :: rest => slept rest
  end.

(** The errors after which [uploadChunkWithRetry] tries again without
    asking the server for its offset. *)
Definition retried (e : upload_error) : bool :=
  match e with
  | HttpError status => negb (status =? 409) && negb (is_client_error_status status)
  | _ => true
  end.

(** From state [w] the appends of one chunk fail with [errors], in this
    order and each with an error that is retried, and the next append
    returns [n], leaving the server in state [w']. *)
Fixpoint fails_then_succeeds {Srv : Type} (client : EnriProxyClient Srv) (uploadId : string)
    (offset : Z) (chunk : list byte) (timeoutMs : Z) (errors : list upload_error)
    (w w' : Srv) (n : Z) : Prop :=
  match errors with
  | [] => appendUploadChunk client w uploadId offset chunk timeoutMs = (w', Ok n)
  | e :: rest =>
      retried e = true
      /\ exists w1,
           appendUploadChunk client w uploadId offset chunk timeoutMs = (w1, Throw e)
           /\ fails_then_succeeds client uploadId offset chunk timeoutMs rest w1 w' n
  end.

(** A server that stores what it is sent: an offset query reports the
    number of bytes stored, and an append at that offset stores the chunk
    and reports the new number of bytes; [received] is the store. *)
Definition cooperative {Srv : Type} (client : EnriProxyClient Srv)
    (received : Srv -> list byte) : Prop :=
  (forall w uploadId, exists w',
      getUploadOffset client w uploadId = (w', Ok (Z.of_nat (length (received w))))
      /\ received w' = received w)
  /\ (forall w uploadId chunk timeoutMs, exists w',
        appendUploadChunk client w uploadId (Z.of_nat (length (received w))) chunk timeoutMs
        = (w', Ok (Z.of_nat (length (received w)) + Z.of_nat (length chunk)))
        /\ received w' = received w ++ chunk).

(** A server whose store is a list of bytes: appends at another offset than
    the length of the store are refused with status 409. *)
Definition storing_client (chunkSize : jsnum) : EnriProxyClient (list byte) :=
  {| createUploadSession := fun _ _ =>
       ([], Ok {| upload_id := "upload-1"; chunk_size_bytes := chunkSize |});
     getUploadOffset := fun w _ => (w, Ok (Z.of_nat (length w)));
     appendUploadChunk := fun w _ offset chunk _ =>
       if offset =? Z.of_nat (length w)
       then (w ++ chunk, Ok (offset + Z.of_nat (length chunk)))
       else (w, Throw (HttpError 409)) |}.

(** A server that fails the first two appends with status 503 and accepts
    the later ones; its state counts the appends. *)
Definition flaky_client : EnriProxyClient nat :=
  {| createUploadSession := fun w _ =>
       (w, Ok {| upload_id := "upload-1"; chunk_size_bytes := js_of_Z 512 |});
     getUploadOffset := fun w _ => (w, Ok 0);
     appendUploadChunk := fun w _ offset chunk _ =>
       if (w <? 2)%nat then (S w, Throw (HttpError 503))
       else (S w, Ok (offset + Z.of_nat (length chunk))) |}.

End Servers.
Import Servers.

(** ** The values of a JSON response, and the sanitizer of [AnalyzeMediaTool] *)

Module Sanitizer.

(** The values [JSON.parse] produces, and [undefined].  An object is the
    list of its own properties in the order of [Object.entries]; its keys
    are pairwise distinct. *)
#[local] Unset Elimination Schemes.
Inductive jsvalue :=
  | VUndefined
  | VNull
  | VBool (b : bool)
  | VNumber (x : jsnum)
  | VString (s : jsstring)
  | VArray (items : list jsvalue)
  | VObject (entries : list (jsstring * jsvalue)).
#[local] Set Elimination Schemes.

(** The keys that the [for] loop of [stripInternalFields] skips. *)
Definition is_internal_key (key : jsstring) : bool :=
  bool_decide (key = js "upload_id") || bool_decide (key = js "uploadId")
  || bool_decide (key = js "detected_media_type")
  || bool_decide (key = js "analysis_mode_requested")
  || bool_decide (key = js "analysis_mode_used")
  || bool_decide (key = js "multipass")
  || bool_decide (key = js "model").

(** [next[key] = ..] on the fresh object [next] adds an own property, but
    for the key [__proto__], which is assigned through the setter of
    [Object.prototype] and adds none. *)
Definition is_proto_key (key : jsstring) : bool := bool_decide (key = js "__proto__").

(** [stripInternalFields(value)]: the own properties of the result. *)
Fixpoint stripInternalFields (value : jsvalue) : jsvalue :=
  match value with
  | VArray items => VArray (map stripInternalFields items)
  | VObject entries =>
      VObject
        ((fix loop (entries : list (jsstring * jsvalue)) : list (jsstring * jsvalue) :=
            match entries with
            | [] => []
            | (key, child) :: rest =>
                if is_internal_key key then loop rest
                else if is_proto_key key then loop rest
                else (key, stripInternalFields child) :: loop rest
            end) entries)
  | _ => value
  end.

(** [asPlainObject(value)]. *)
Definition asPlainObject (value : jsvalue) : jsvalue :=
  match value with
  | VObject entries => value
  | _ => VObject []
  end.

(** [stripInternalExtractionFields(extraction)]. *)
Definition stripInternalExtractionFields (extraction : jsvalue) : jsvalue :=
  let stripped := stripInternalFields extraction in
  asPlainObject stripped.

(** No object inside [value], at any depth, has a property with an internal
    key or with the key [__proto__]. *)
Fixpoint only_kept_keys (value : jsvalue) : bool :=
  match value with
  | VArray items => forallb only_kept_keys items
  | VObject entries =>
      (fix all (entries : list (jsstring * jsvalue)) : bool :=
         match entries with
         | [] => true
         | (key, child) :: rest =>
             negb (is_internal_key key) && negb (is_proto_key key)
             && only_kept_keys child && all rest
         end) entries
  | _ => true
  end.

(** The properties of an object that are copied into the result. *)
Definition kept (kv : jsstring * jsvalue) : bool :=
  negb (is_internal_key kv.1) && negb (is_proto_key kv.1).

(** A response with internal fields at two depths. *)
Definition example_extraction : jsvalue :=
  VObject
    [ (js "summary", VString (js "a cat"));
      (js "upload_id", VString (js "u-1"));
      (js "frames",
       VArray [ VObject [ (js "index", VNumber (js_of_Z 1)); (js "model", VString (js "m")) ];
                VNull ]);
      (js "multipass", VObject [ (js "passes", VNumber (js_of_Z 2)) ]) ].

End Sanitizer.
Import Sanitizer.

(** ** The validation helpers *)

Module Validation.

Inductive validation_error :=
  | MustBeString (name : string)          (* "<name> must be a string." *)
  | MustBeNonEmptyString (name : string)  (* "<name> must be a non-empty string." *)
  | MustStartWithHttp (name : string).    (* "<name> must start with http:// or https://" *)

(** [assertNonEmptyString(value, name)]. *)
Definition assertNonEmptyString (value : jsvalue) (name : string)
  : result validation_error jsstring :=
  match value with
  | VString s =>
      let trimmed := trim s in
      match trimmed with
      | [] => Throw (MustBeNonEmptyString name)
      | _ => Ok trimmed
      end
  | _ => Throw (MustBeString name)
  end.

(** [optionalString(value)]: [None] is [undefined]. *)
Definition optionalString (value : jsvalue) : option jsstring :=
  match value with
  | VString s =>
      let trimmed := trim s in
      match trimmed with
      | [] => None
      | _ => Some trimmed
      end
  | _ => None
  end.

(** [s.startsWith(p)]. *)
Fixpoint startsWith (s p : jsstring) {struct p} : bool :=
  match p with
  | [] => true
  | c :: p' =>
      match s with
      | [] => false
      | d :: s' => (d =? c)%N && startsWith s' p'
      end
  end.

Fixpoint drop_slashes (s : jsstring) : jsstring :=
  match s with
  | c :: rest => if (c =? 47)%N then drop_slashes rest else s
  | [] => []
  end.

(** [url.replace(/\/+$/, "")]: the slashes at the end are removed. *)
Definition strip_trailing_slashes (url : jsstring) : jsstring :=
  rev (drop_slashes (rev url)).

(** [assertHttpUrl(value, name)]. *)
Definition assertHttpUrl (value : jsvalue) (name : string) : result validation_error jsstring :=
  match assertNonEmptyString value name with
  | Throw e => Throw e
  | Ok url =>
      if negb (startsWith url (js "http://")) && negb (startsWith url (js "https://"))
      then Throw (MustStartWithHttp name)
      else Ok (strip_trailing_slashes url)
  end.

End Validation.
Import Validation.

(** ** The entries of a media set *)

Module MediaSet.

(** Decimal digits of [n], least significant first. *)
Fixpoint dec_digits_rev (fuel : nat) (n : Z) : list Z :=
  match fuel with
  | O => []
  | S f => if n <? 10 then [n] else (n mod 10) :: dec_digits_rev f (n / 10)
  end.

(** [String(n)] for an integer [n >= 0] below 10^21. *)
Definition toString10 (n : Z) : jsstring :=
  map digit_char (rev (dec_digits_rev (S (Z.to_nat (Z.log2 n))) n)).

Definition is_ext_char (c : N) : bool :=
  (((97 <=? c) && (c <=? 122)) || ((48 <=? c) && (c <=? 57)) || (c =? 46))%N.

(** [/^[a-z0-9.]+$/.test(s)]. *)
Definition ext_regex (s : jsstring) : bool :=
  (1 <=? length s)%nat && forallb is_ext_char s.

(** The name of the entry of the file at index [i] of [filePaths], from
    [extRaw], the lower-cased extension of its file name:
    [`${String(i + 1).padStart(6, "0")}${ext}`]. *)
Definition entryName (i : Z) (extRaw : jsstring) : jsstring :=
  let ext :=
    match extRaw with
    | [] => js ".img"
    | _ => if ext_regex extRaw then extRaw else js ".img"
    end in
  padStart (toString10 (i + 1)) 6 ++ ext.

(** A file of the set, as the first loop of [uploadImageSetAsMediaSetTar]
    records it. *)
Record MediaFile := {
  f_path : string;
  f_sizeBytes : Z;
  f_extRaw : jsstring
}.

Fixpoint file_entries (i : Z) (files : list MediaFile) (nowSeconds : Z) : list TarEntry :=
  match files with
  | [] => []
  | f :: rest =>
      {| name := entryName i (f_extRaw f);
         source := SourceFile (f_path f) (f_sizeBytes f);
         mtimeSeconds := nowSeconds |}
        :: file_entries (i + 1) rest nowSeconds
  end.

(** The [entries] of [uploadImageSetAsMediaSetTar]: the manifest, then the
    files in the order of [filePaths]. *)
Definition media_set_entries (manifestBuffer : list byte) (files : list MediaFile)
    (nowSeconds : Z) : list TarEntry :=
  {| name := js "manifest.json"; source := SourceBuffer manifestBuffer;
     mtimeSeconds := nowSeconds |}
    :: file_entries 0 files nowSeconds.

(** The number a list of decimal digits denotes, least significant first,
    and the number a string of decimal digits denotes. *)
Fixpoint dec_value (ds : list Z) : Z :=
  match ds with
  | [] => 0
  | d :: rest => d + 10 * dec_value rest
  end.

Fixpoint parse_dec_digits (acc : Z) (s : jsstring) : Z :=
  match s with
  | [] => acc
  | c :: rest => parse_dec_digits (10 * acc + Z.of_N (c - 48)) rest
  end.

(** The extension is short enough for the entry name to fit the name field
    of a header. *)
Definition ext_fits (f : MediaFile) : Prop :=
  ext_regex (f_extRaw f) = true -> (length (f_extRaw f) <= 94)%nat.

(** Two files of a set, the second with an extension that is not kept. *)
Definition example_files : list MediaFile :=
  [ {| f_path := "/tmp/shot-a.png"; f_sizeBytes := 11; f_extRaw := js ".png" |};
    {| f_path := "/tmp/shot-b.png"; f_sizeBytes := 32; f_extRaw := js ".p_g" |} ].

End MediaSet.
Import MediaSet.

(** * Properties *)

(** ** The scenario of the repository's tar test, by evaluation *)

Example tar_test_size :
  computeTarSizeBytes example_entries = (512 + 512) + (512 + 512) + (512 + 512) + 1024
  /\ TarStream_new example_entries = Ok example_stream
  /\ getSizeBytes example_stream = computeTarSizeBytes example_entries.
Proof. split; [|split]; vm_compute; reflexivity. Qed.

Example tar_test_full_run :
  match iterateChunks 64 example_stream example_fs (js_of_Z 0) (js_of_Z 128) with
  | Some (full, Returned) =>
      Z.of_nat (length (concat full)) = 4096
      /\ parseTarHeader_size (subarray (concat full) 0 512) = Some 2
      /\ subarray (concat full) (4096 - 1024) 4096 = zeros 1024
  | _ => False
  end.
Proof. vm_compute. split; [|split]; reflexivity. Qed.

Example tar_test_resume :
  match iterateChunks 64 example_stream example_fs (js_of_Z 0) (js_of_Z 128),
        iterateChunks 64 example_stream example_fs (js_of_Z (512 + 512 + 512 + 10))
          (js_of_Z 64) with
  | Some (full, Returned), Some (resumed, Returned) =>
      concat resumed = subarray (concat full) (512 + 512 + 512 + 10) 4096
  | _, _ => False
  end.
Proof. vm_compute. reflexivity. Qed.

(** A file shorter than its declared size: the run ends early, with fewer
    bytes than the stream announces (the case the readable-files hypothesis
    of the statements below excludes). *)
Example short_file_short_stream :
  let entries := [ {| name := js "000001.png"; source := SourceFile "/tmp/shot-a.png" 600;
                      mtimeSeconds := 0 |} ] in
  match TarStream_new entries with
  | Ok t =>
      getSizeBytes t = 512 + 1024 + 1024
      /\ match iterateChunks 200 t example_fs (js_of_Z 0) (js_of_Z 512) with
         | Some (chunks, Returned) =>
             Z.of_nat (length (concat chunks)) = 512 + 11 + 424 + 1024
         | _ => False
         end
  | Throw _ => False
  end.
Proof. vm_compute. split; reflexivity. Qed.

(** ** Writes into a list *)

Section Inserts.
Context {A : Type}.
Implicit Types l k : list A.

Lemma inserts_take_drop l k i :
  (i + length k <= length l)%nat ->
  list_inserts i k l = take i l ++ k ++ drop (i + length k) l.
Proof.
  intros H.
  rewrite <- (take_drop i l) at 1.
  assert (Hi : length (take i l) = i) by (rewrite length_take; lia).
  rewrite <- (Nat.add_0_r i) at 1. rewrite <- Hi at 1.
  rewrite list_inserts_app_r. f_equal.
  rewrite <- (take_drop (length k) (drop i l)) at 1.
  rewrite list_inserts_0_r.
  - f_equal. rewrite drop_drop. done.
  - rewrite length_take, length_drop. lia.
Qed.

Lemma segment_inserts_same l k i n :
  (i + length k <= length l)%nat -> n = length k ->
  take n (drop i (list_inserts i k l)) = k.
Proof.
  intros H ->. rewrite inserts_take_drop by done.
  rewrite drop_app_length' by (rewrite length_take; lia).
  by rewrite take_app_length.
Qed.

Lemma segment_inserts_after l k i j n :
  (i + n <= j)%nat -> take n (drop i (list_inserts j k l)) = take n (drop i l).
Proof.
  intros H. apply list_eq. intros x.
  destruct (decide (x < n)%nat).
  - rewrite !lookup_take_lt, !lookup_drop by done.
    apply list_lookup_inserts_lt. lia.
  - rewrite !lookup_take_ge by lia. done.
Qed.

Lemma segment_insert_after l (y : A) i j n :
  (i + n <= j)%nat -> take n (drop i (<[j:=y]> l)) = take n (drop i l).
Proof.
  intros H. apply list_eq. intros x.
  destruct (decide (x < n)%nat).
  - rewrite !lookup_take_lt, !lookup_drop by done.
    apply list_lookup_insert_ne. lia.
  - rewrite !lookup_take_ge by lia. done.
Qed.

Lemma inserts_inserts_same l k k' i :
  length k = length k' -> (i + length k <= length l)%nat ->
  list_inserts i k (list_inserts i k' l) = list_inserts i k l.
Proof.
  intros Hk H.
  rewrite (inserts_take_drop (list_inserts i k' l)) by (rewrite length_inserts; lia).
  rewrite (inserts_take_drop l k) by done.
  rewrite (inserts_take_drop l k') by lia.
  rewrite take_app_length' by (rewrite length_take; lia).
  f_equal. f_equal.
  rewrite drop_app_ge by (rewrite length_take; lia).
  rewrite length_take, Nat.min_l by lia.
  rewrite drop_app_ge by lia.
  rewrite drop_drop. f_equal. lia.
Qed.

Lemma inserts_id l k i :
  take (length k) (drop i l) = k -> (i + length k <= length l)%nat ->
  list_inserts i k l = l.
Proof.
  intros Hk H. rewrite inserts_take_drop by done.
  rewrite <- Hk at 1. rewrite <- drop_drop.
  rewrite (take_drop (length k) (drop i l)). apply take_drop.
Qed.

Lemma insert_pair_inserts l k (a b : A) i :
  <[(i + length k + 1)%nat := b]> (<[(i + length k)%nat := a]> (list_inserts i k l))
  = list_inserts i (k ++ [a; b]) l.
Proof.
  rewrite list_inserts_app_l. simpl.
  rewrite list_insert_insert_ne by lia.
  f_equal; [lia|]. f_equal. lia.
Qed.

End Inserts.

(** ** Bytes and ASCII text *)

Lemma to_N_byte_of_N n : Byte.to_N (byte_of_N n) = (n mod 256)%N.
Proof.
  unfold byte_of_N. destruct (Byte.of_N (n mod 256)) eqn:E.
  - by apply Byte.to_of_N.
  - apply Byte.of_N_None_iff in E.
    pose proof (N.mod_upper_bound n 256). lia.
Qed.

Lemma Z_of_byte_bound b : 0 <= Z_of_byte b <= 255.
Proof. unfold Z_of_byte. pose proof (Byte.to_N_bounded b). lia. Qed.


Lemma utf8_encode_ascii s :
  Forall is_ascii s -> utf8_encode s = map byte_of_N s.
Proof.
  induction 1 as [|c s Hc _ IH]; [done|].
  cbn [utf8_encode map]. unfold is_ascii in Hc.
  destruct (N.ltb_spec c 128); [|lia]. by rewrite IH.
Qed.

Lemma ascii_decode_encode s :
  Forall is_ascii s -> ascii_decode (map byte_of_N s) = Some s.
Proof.
  induction 1 as [|c s Hc _ IH]; [done|].
  cbn [ascii_decode map]. unfold is_ascii in Hc.
  rewrite to_N_byte_of_N, IH, N.mod_small by lia.
  destruct (N.ltb_spec c 128); [done|lia].
Qed.

(** ** Octal digits *)

Lemma digit_char_oct d : is_digit d -> is_oct_digit (digit_char d) = true.
Proof. unfold is_digit, is_oct_digit, digit_char. intros. apply andb_true_iff. split; apply N.leb_le; lia. Qed.

Lemma digit_char_value d : is_digit d -> Z.of_N (digit_char d - 48) = d.
Proof. unfold is_digit, digit_char. lia. Qed.

Lemma oct_digit_ascii c : is_oct_digit c = true -> is_ascii c.
Proof. unfold is_oct_digit, is_ascii. intros [H1 H2]%andb_true_iff. apply N.leb_le in H2. lia. Qed.

Lemma oct_digit_not_space c : is_oct_digit c = true -> is_white_space c = false.
Proof.
  unfold is_oct_digit, is_white_space. intros [H1 H2]%andb_true_iff.
  apply N.leb_le in H1, H2.
  repeat (apply orb_false_iff; split); try (apply N.eqb_neq; lia).
  apply andb_false_iff. left. apply N.leb_gt. lia.
Qed.

Lemma oct_digits_rev_digits fuel n :
  0 <= n -> Forall is_digit (oct_digits_rev fuel n).
Proof.
  revert n. induction fuel as [|f IH]; intros n Hn; cbn [oct_digits_rev]; [constructor|].
  destruct (Z.ltb_spec n 8).
  - repeat constructor; unfold is_digit; lia.
  - constructor.
    + unfold is_digit. pose proof (Z.mod_pos_bound n 8). lia.
    + apply IH. apply Z.div_pos; lia.
Qed.

Lemma oct_digits_rev_value fuel n :
  0 <= n < 8 ^ Z.of_nat fuel -> oct_value (oct_digits_rev fuel n) = n.
Proof.
  revert n. induction fuel as [|f IH]; intros n Hn; cbn [oct_digits_rev].
  - simpl in Hn. cbn. lia.
  - destruct (Z.ltb_spec n 8); cbn [oct_value]; [lia|].
    rewrite IH.
    + pose proof (Z.div_mod n 8). lia.
    + rewrite Nat2Z.inj_succ, Z.pow_succ_r in Hn by lia.
      split; [apply Z.div_pos; lia|]. apply Z.div_lt_upper_bound; lia.
Qed.

Lemma oct_digits_rev_length_le fuel n k :
  0 <= n < 8 ^ Z.of_nat k -> (1 <= k)%nat -> (length (oct_digits_rev fuel n) <= k)%nat.
Proof.
  revert n k. induction fuel as [|f IH]; intros n k Hn Hk; cbn [oct_digits_rev]; [simpl; lia|].
  destruct (Z.ltb_spec n 8); [simpl; lia|].
  destruct k as [|k]; [lia|]. cbn [length].
  rewrite Nat2Z.inj_succ, Z.pow_succ_r in Hn by lia.
  destruct k as [|k]; [simpl in Hn; lia|].
  apply le_n_S, IH; [|lia].
  split; [apply Z.div_pos; lia|]. apply Z.div_lt_upper_bound; lia.
Qed.

Lemma oct_digits_rev_length_ge fuel n k :
  8 ^ Z.of_nat k <= n -> (k < fuel)%nat -> (k < length (oct_digits_rev fuel n))%nat.
Proof.
  revert n k. induction fuel as [|f IH]; intros n k Hn Hk; [lia|].
  cbn [oct_digits_rev].
  destruct k as [|k].
  - destruct (Z.ltb_spec n 8); simpl; lia.
  - rewrite Nat2Z.inj_succ, Z.pow_succ_r in Hn by lia.
    assert (0 < 8 ^ Z.of_nat k) by (apply Z.pow_pos_nonneg; lia).
    destruct (Z.ltb_spec n 8); [lia|]. cbn [length].
    apply -> Nat.succ_lt_mono. apply IH; [|lia].
    apply Z.div_le_lower_bound; lia.
Qed.

Lemma oct_digits_rev_nonempty fuel n : (0 < length (oct_digits_rev (S fuel) n))%nat.
Proof. cbn [oct_digits_rev]. destruct (n <? 8); simpl; lia. Qed.

Lemma log2_fuel n : 0 <= n -> n < 8 ^ Z.of_nat (S (Z.to_nat (Z.log2 n))).
Proof.
  intros Hn. rewrite Nat2Z.inj_succ, Z2Nat.id by apply Z.log2_nonneg.
  destruct (Z.eq_dec n 0) as [->|]; [done|].
  pose proof (Z.log2_spec n ltac:(lia)) as [_ H].
  eapply Z.lt_le_trans; [exact H|].
  apply Z.pow_le_mono_l. lia.
Qed.

Lemma oct_value_drop j l :
  Forall is_digit l -> oct_value (drop j l) = oct_value l / 8 ^ Z.of_nat j.
Proof.
  revert l. induction j as [|j IH]; intros l Hl.
  - rewrite drop_0. simpl. by rewrite Z.div_1_r.
  - destruct Hl as [|d l Hd Hl]; [by rewrite Zdiv_0_l|].
    cbn [drop oct_value]. rewrite IH by done.
    rewrite Nat2Z.inj_succ, Z.pow_succ_r by lia.
    rewrite <- Z.div_div by (try apply Z.pow_pos_nonneg; lia).
    f_equal. unfold is_digit in Hd.
    rewrite Z.add_comm, Z.mul_comm, Z.div_add_l by lia.
    rewrite (Z.div_small d 8) by lia. lia.
Qed.

Lemma oct_value_nonneg l : Forall is_digit l -> 0 <= oct_value l.
Proof. induction 1 as [|d l Hd _ IH]; cbn; unfold is_digit in *; lia. Qed.

Lemma digits_chars l :
  Forall is_digit l -> Forall (fun c => is_oct_digit c = true) (map digit_char (rev l)).
Proof.
  induction 1 as [|d l Hd _ IH]; [constructor|].
  cbn [rev]. rewrite map_app. apply Forall_app. split; [done|].
  repeat constructor. by apply digit_char_oct.
Qed.

(** The digit loop of [parseInt] on a run of digit characters. *)
Lemma parse_oct_digits_app acc s r :
  Forall (fun c => is_oct_digit c = true) s ->
  parse_oct_digits acc (s ++ r) = parse_oct_digits (parse_oct_digits acc s) r.
Proof.
  intros H. revert acc. induction H as [|c s Hc _ IH]; intros acc; [done|].
  cbn [app parse_oct_digits]. rewrite Hc. apply IH.
Qed.

Lemma parse_oct_digits_rev l acc :
  Forall is_digit l ->
  parse_oct_digits acc (map digit_char (rev l)) = acc * 8 ^ Z.of_nat (length l) + oct_value l.
Proof.
  intros H. revert acc. induction H as [|d l Hd Hl IH]; intros acc.
  - cbn. lia.
  - cbn [rev]. rewrite map_app, parse_oct_digits_app.
    + rewrite IH. cbn [map parse_oct_digits length oct_value].
      rewrite digit_char_oct, digit_char_value by done.
      rewrite Nat2Z.inj_succ, Z.pow_succ_r by lia. lia.
    + by apply digits_chars.
Qed.

Lemma parse_oct_digits_zeros k s :
  parse_oct_digits 0 (replicate k 48%N ++ s) = parse_oct_digits 0 s.
Proof. induction k as [|k IH]; [done|]. cbn. exact IH. Qed.

Lemma toString8_digits n :
  0 <= n -> Forall (fun c => is_oct_digit c = true) (toString8 n).
Proof.
  intros Hn. unfold toString8. by apply digits_chars, oct_digits_rev_digits.
Qed.

Lemma toString8_parse n :
  0 <= n -> parse_oct_digits 0 (toString8 n) = n.
Proof.
  intros Hn. unfold toString8.
  rewrite parse_oct_digits_rev by by apply oct_digits_rev_digits.
  rewrite oct_digits_rev_value; [lia|]. split; [done|]. by apply log2_fuel.
Qed.

Lemma toString8_length_le n k :
  0 <= n < 8 ^ Z.of_nat k -> (1 <= k)%nat -> (length (toString8 n) <= k)%nat.
Proof.
  intros. unfold toString8. rewrite length_map, length_rev.
  by apply oct_digits_rev_length_le.
Qed.

Lemma toString8_length_ge n k :
  8 ^ Z.of_nat k <= n -> (k < length (toString8 n))%nat.
Proof.
  intros Hn. unfold toString8. rewrite length_map, length_rev.
  apply oct_digits_rev_length_ge; [done|].
  assert (0 < 8 ^ Z.of_nat k) by (apply Z.pow_pos_nonneg; lia).
  pose proof (log2_fuel n ltac:(lia)) as Hf.
  assert (8 ^ Z.of_nat k < 8 ^ Z.of_nat (S (Z.to_nat (Z.log2 n)))) as Hlt by lia.
  apply Z.pow_lt_mono_r_iff in Hlt; lia.
Qed.

Lemma toString8_nonempty n : (0 < length (toString8 n))%nat.
Proof. unfold toString8. rewrite length_map, length_rev. apply oct_digits_rev_nonempty. Qed.

(** The leading [k] digits of [n.toString(8)] denote [n] without its last digits. *)
Lemma toString8_take_parse n k :
  0 <= n -> (k <= length (toString8 n))%nat ->
  parse_oct_digits 0 (take k (toString8 n))
  = n / 8 ^ Z.of_nat (length (toString8 n) - k).
Proof.
  intros Hn Hk. unfold toString8 in *. rewrite length_map, length_rev in *.
  set (l := oct_digits_rev _ n) in *.
  assert (Forall is_digit l) as Hl by by apply oct_digits_rev_digits.
  rewrite firstn_map, firstn_rev.
  rewrite parse_oct_digits_rev by (by apply Forall_drop).
  rewrite oct_value_drop by done.
  subst l. rewrite oct_digits_rev_value; [lia|]. split; [done|]. by apply log2_fuel.
Qed.

(** ** Buffers *)

Lemma subarray_segment buf s e :
  0 <= s <= e -> e <= Z.of_nat (length buf) ->
  subarray buf s e = take (Z.to_nat (e - s)) (drop (Z.to_nat s) buf).
Proof.
  intros Hs He. unfold subarray.
  destruct (Z.ltb_spec s 0); [lia|]. destruct (Z.ltb_spec e 0); [lia|].
  rewrite !Z.min_l by lia. done.
Qed.

Lemma writeString_inserts buf offset len value :
  writeString buf offset len value
  = list_inserts (Z.to_nat offset) (field_bytes len value) buf.
Proof. reflexivity. Qed.

Lemma length_writeString buf offset len value :
  length (writeString buf offset len value) = length buf.
Proof. rewrite writeString_inserts. apply length_inserts. Qed.

Lemma length_writeOctal buf offset len value :
  length (writeOctal buf offset len value) = length buf.
Proof. unfold writeOctal. apply length_writeString. Qed.

Lemma length_fill buf v s e : length (fill buf v s e) = length buf.
Proof. unfold fill. apply length_inserts. Qed.

Lemma length_zeros n : length (zeros n) = Z.to_nat n.
Proof. unfold zeros. apply length_replicate. Qed.

Lemma length_header_before_checksum name size mtime :
  length (header_before_checksum name size mtime) = 512%nat.
Proof.
  unfold header_before_checksum.
  rewrite !length_writeString, length_insert, length_fill, !length_writeOctal,
    length_writeString, length_zeros. reflexivity.
Qed.

Lemma length_writeChecksum buf v : length (writeChecksum buf v) = length buf.
Proof. unfold writeChecksum. by rewrite !length_insert, length_writeString. Qed.

Lemma length_buildUstarHeader name size mtime :
  length (buildUstarHeader name size mtime) = 512%nat.
Proof.
  change (buildUstarHeader name size mtime)
    with (writeChecksum (header_before_checksum name size mtime)
            (computeTarChecksum (header_before_checksum name size mtime))).
  rewrite length_writeChecksum. apply length_header_before_checksum.
Qed.

(** A field of ASCII text that fills its width is written whole. *)
Lemma field_bytes_ascii len s :
  Forall is_ascii s -> field_bytes len s = map byte_of_N (take (Z.to_nat len) s).
Proof.
  intros Hs. unfold field_bytes. rewrite utf8_encode_ascii by done.
  rewrite length_map, <- firstn_map.
  destruct (Z.le_ge_cases (Z.of_nat (length s)) len).
  - rewrite Z.min_l by lia. rewrite Nat2Z.id.
    rewrite !take_ge; [done| |]; rewrite length_map; lia.
  - by rewrite Z.min_r by lia.
Qed.

Lemma length_padStart s k :
  (length s <= Z.to_nat k)%nat -> length (padStart s k) = Z.to_nat k.
Proof. intros H. unfold padStart. rewrite length_app, length_replicate. lia. Qed.

Lemma padStart_long s k : (Z.to_nat k <= length s)%nat -> padStart s k = s.
Proof.
  intros H. unfold padStart.
  replace (Z.to_nat (k - Z.of_nat (length s))) with 0%nat by lia. done.
Qed.

Lemma padStart_digits s k :
  Forall (fun c => is_oct_digit c = true) s ->
  Forall (fun c => is_oct_digit c = true) (padStart s k).
Proof. intros H. unfold padStart. apply Forall_app. split; [|done]. by apply Forall_replicate. Qed.

Lemma padStart_parse s k : parse_oct_digits 0 (padStart s k) = parse_oct_digits 0 s.
Proof. apply parse_oct_digits_zeros. Qed.

Lemma digits_ascii s :
  Forall (fun c => is_oct_digit c = true) s -> Forall is_ascii s.
Proof. intros H. eapply Forall_impl; [exact H|]. apply oct_digit_ascii. Qed.

(** ** Reading numbers back *)

Lemma trimStart_id s :
  Forall (fun c => is_white_space c = false) s -> trimStart s = s.
Proof. destruct 1 as [|c s Hc _]; [done|]. cbn. by rewrite Hc. Qed.

Lemma trim_id s :
  Forall (fun c => is_white_space c = false) s -> trim s = s.
Proof.
  intros H. unfold trim, trimEnd. rewrite (trimStart_id s) by done.
  rewrite trimStart_id; [apply rev_involutive|].
  apply Forall_forall. intros c Hc. rewrite Forall_forall in H. apply H.
  apply list_elem_of_In. apply in_rev. by apply list_elem_of_In.
Qed.

Lemma parseInt8_digits s :
  s <> [] -> Forall (fun c => is_oct_digit c = true) s ->
  parseInt8 s = Some (parse_oct_digits 0 s).
Proof.
  intros Hne Hs. unfold parseInt8.
  rewrite trimStart_id by (eapply Forall_impl; [exact Hs|]; apply oct_digit_not_space).
  destruct Hs as [|c s Hc Hs]; [done|].
  assert (((c =? 45) || (c =? 43))%N = false) as ->.
  { unfold is_oct_digit in Hc. apply andb_true_iff in Hc as [H1%N.leb_le H2%N.leb_le].
    apply orb_false_iff. split; apply N.eqb_neq; lia. }
  assert ((c =? 45)%N = false) as ->.
  { unfold is_oct_digit in Hc. apply andb_true_iff in Hc as [H1%N.leb_le H2%N.leb_le].
    apply N.eqb_neq; lia. }
  rewrite Hc. f_equal. lia.
Qed.

Lemma filter_all {A} (P : A -> Prop) `{!forall x, Decision (P x)} (l : list A) :
  Forall P l -> filter P l = l.
Proof. induction 1 as [|x l Hx _ IH]; [done|]. rewrite filter_cons_True by done. by rewrite IH. Qed.

(** What the test suite's parser reads from a 12-byte field of digits
    followed by NULs. *)
Lemma parse_field_digits block ds nuls :
  subarray block 124 136 = map byte_of_N (ds ++ replicate nuls 0%N) ->
  ds <> [] -> Forall (fun c => is_oct_digit c = true) ds ->
  parseTarHeader_size block = Some (parse_oct_digits 0 ds).
Proof.
  intros Hsub Hne Hds. unfold parseTarHeader_size. rewrite Hsub.
  rewrite ascii_decode_encode.
  2:{ apply Forall_app. split; [by apply digits_ascii|].
      apply Forall_replicate. unfold is_ascii. lia. }
  unfold jsstring. rewrite filter_app.
  rewrite (filter_all _ ds).
  2:{ eapply Forall_impl; [exact Hds|]. intros c Hc. unfold is_oct_digit in Hc.
      apply andb_true_iff in Hc as [H1%N.leb_le _]. lia. }
  assert (filter (fun c : N => c <> 0%N) (replicate nuls 0%N) = []) as ->.
  { clear Hsub. induction nuls as [|k IH]; [done|]. cbn [replicate].
    rewrite filter_cons_False by (intros H; by apply H). exact IH. }
  rewrite app_nil_r.
  rewrite trim_id by (eapply Forall_impl; [exact Hds|]; apply oct_digit_not_space).
  rewrite parseInt8_digits by done.
  destruct ds as [|c r]; [done|].
  set (v := parse_oct_digits 0 (c :: r)).
  assert (0 <= v) as Hv.
  { subst v. clear Hsub Hne. revert Hds. generalize (c :: r). intros l.
    assert (forall acc, 0 <= acc -> Forall (fun c => is_oct_digit c = true) l ->
                        0 <= parse_oct_digits acc l) as Hgen.
    { induction l as [|x l IH]; intros acc Hacc Hl; [done|].
      cbn. inversion Hl; subst. rewrite H1. apply IH; [lia|done]. }
    apply Hgen. lia. }
  destruct (Z.leb_spec 0 v); [done|lia].
Qed.

(** ** The size field *)

Lemma header_size_field name size mtime :
  subarray (buildUstarHeader name size mtime) 124 136
  = map byte_of_N (take 12 (padStart (toString8 (Z.max 0 size)) 11 ++ [0%N])).
Proof.
  rewrite subarray_segment by (rewrite ?length_buildUstarHeader; lia).
  change (Z.to_nat (136 - 124)) with 12%nat. change (Z.to_nat 124) with 124%nat.
  unfold buildUstarHeader, writeChecksum.
  rewrite !segment_insert_after by lia.
  rewrite !writeString_inserts.
  change (Z.to_nat 148) with 148%nat. change (Z.to_nat 263) with 263%nat.
  change (Z.to_nat 257) with 257%nat.
  rewrite !segment_inserts_after by lia.
  rewrite segment_insert_after by lia.
  unfold fill. change (Z.to_nat 148) with 148%nat.
  rewrite segment_inserts_after by lia.
  unfold writeOctal at 1. rewrite writeString_inserts.
  change (Z.to_nat 136) with 136%nat.
  rewrite segment_inserts_after by lia.
  unfold writeOctal at 1. rewrite writeString_inserts.
  change (Z.to_nat 124) with 124%nat.
  change (Z.max 0 (12 - 1)) with 11.
  set (field := padStart _ 11 ++ [0%N]).
  assert (Forall is_ascii field) as Hascii.
  { subst field. apply Forall_app. split.
    - apply digits_ascii, padStart_digits, toString8_digits. lia.
    - constructor; [unfold is_ascii; lia | constructor]. }
  assert (12 <= length field)%nat as Hlen.
  { subst field. rewrite length_app. unfold padStart. rewrite length_app, length_replicate.
    cbn [length]. lia. }
  rewrite field_bytes_ascii by done. change (Z.to_nat 12) with 12%nat.
  apply segment_inserts_same.
  - rewrite length_map, length_take, !length_writeOctal, length_inserts, length_zeros.
    change (Z.to_nat 512) with 512%nat. lia.
  - rewrite length_map, length_take. lia.
Qed.

Lemma size_field_small name size mtime :
  0 <= size < 8 ^ 11 ->
  subarray (buildUstarHeader name size mtime) 124 136
  = map byte_of_N (padStart (toString8 size) 11 ++ replicate 1 0%N).
Proof.
  intros Hs. rewrite header_size_field, Z.max_r by lia. f_equal.
  apply take_ge. rewrite length_app, length_padStart; [simpl; lia|].
  change (Z.to_nat 11) with 11%nat.
  apply (toString8_length_le size 11); [change (Z.of_nat 11) with 11; lia|lia].
Qed.

Lemma size_field_large name size mtime :
  8 ^ 11 <= size ->
  subarray (buildUstarHeader name size mtime) 124 136
  = map byte_of_N (take 12 (toString8 size)).
Proof.
  intros Hs. rewrite header_size_field, Z.max_r by lia. f_equal.
  pose proof (toString8_length_ge size 11 ltac:(change (Z.of_nat 11) with 11; lia)) as Hlen.
  rewrite padStart_long by (change (Z.to_nat 11) with 11%nat; lia).
  apply take_app_le. lia.
Qed.

(** C8 (as amended).  For a content size [0 <= size < 8^12] the size that
    the test suite's header parser reads from the 12-byte field at offsets
    124..135 of the produced header is exactly [size].  Below [8^11] the
    field is 11 zero-padded octal digits and a NUL; from [8^11] on the
    writer never fails but keeps only the first 12 characters of the digit
    string, so the NUL terminator is lost, and from [8^12] on low-order
    digits are lost as well and the field reads as a smaller number. *)
Theorem size_field_roundtrip name size mtime :
  0 <= size ->
  let h := buildUstarHeader name size mtime in
  length h = 512%nat
  /\ (size < 8 ^ 12 -> parseTarHeader_size h = Some size)
  /\ (size < 8 ^ 11 ->
      subarray h 124 136
      = map byte_of_N (padStart (toString8 size) 11) ++ [Init.Byte.x00]
      /\ length (padStart (toString8 size) 11) = 11%nat)
  /\ (8 ^ 11 <= size ->
      subarray h 124 136 = map byte_of_N (take 12 (toString8 size))
      /\ (12 < length (toString8 size ++ [0%N]))%nat)
  /\ (8 ^ 12 <= size -> exists v, parseTarHeader_size h = Some v /\ v < size).
Proof.
  intros Hs h. subst h.
  split; [apply length_buildUstarHeader|].
  assert (Forall (fun c => is_oct_digit c = true) (toString8 size)) as Hd
      by by apply toString8_digits.
  pose proof (toString8_nonempty size) as Hne.
  split; [|split; [|split]].
  - intros Hlt. destruct (Z.lt_ge_cases size (8 ^ 11)) as [Hsmall|Hbig].
    + rewrite (parse_field_digits _ (padStart (toString8 size) 11) 1).
      * by rewrite padStart_parse, toString8_parse.
      * by apply size_field_small.
      * unfold padStart. destruct (toString8 size); [simpl in Hne; lia|].
        by destruct (replicate _ _).
      * by apply padStart_digits.
    + pose proof (toString8_length_ge size 11 ltac:(change (Z.of_nat 11) with 11; lia)) as Hge.
      pose proof (toString8_length_le size 12 ltac:(change (Z.of_nat 12) with 12; lia) ltac:(lia)) as Hle.
      rewrite (parse_field_digits _ (toString8 size) 0).
      * by rewrite toString8_parse.
      * rewrite size_field_large by done. cbn [replicate]. rewrite app_nil_r.
        by rewrite take_ge by lia.
      * destruct (toString8 size); [simpl in Hne; lia|done].
      * done.
  - intros Hsmall. split.
    + rewrite size_field_small by lia. by rewrite map_app.
    + apply length_padStart. change (Z.to_nat 11) with 11%nat.
      apply (toString8_length_le size 11); [change (Z.of_nat 11) with 11; lia|lia].
  - intros Hbig. split; [by apply size_field_large|].
    pose proof (toString8_length_ge size 11 ltac:(change (Z.of_nat 11) with 11; lia)). rewrite length_app. simpl. lia.
  - intros Hbig.
    assert (8 ^ 11 <= size) as Hbig' by lia.
    pose proof (toString8_length_ge size 12 ltac:(change (Z.of_nat 12) with 12; lia)) as Hge.
    exists (size / 8 ^ Z.of_nat (length (toString8 size) - 12)). split.
    + rewrite (parse_field_digits _ (take 12 (toString8 size)) 0).
      * rewrite toString8_take_parse by lia. done.
      * rewrite size_field_large by done. cbn [replicate]. by rewrite app_nil_r.
      * destruct (toString8 size) as [|c r]; [simpl in Hne; lia|done].
      * by apply Forall_take.
    + apply Z.div_lt; [lia|].
      assert (8 ^ 1 <= 8 ^ Z.of_nat (length (toString8 size) - 12)); [|lia].
      apply Z.pow_le_mono_r; lia.
Qed.

Lemma size_field_roundtrip_witness :
  parseTarHeader_size (buildUstarHeader (js "000001.png") 4660 1700000000) = Some 4660.
Proof.
  apply (size_field_roundtrip (js "000001.png") 4660 1700000000); [lia | reflexivity].
Defined.

(** C8, the claim as stated fails: at the bound itself, a content size of
    exactly [8^11], the field holds the twelve digits of the size without a
    terminator and still reads back as the size, so the round trip is not
    confined to sizes under [8^11]. *)
Lemma size_field_roundtrip_at_bound :
  let size := 8 ^ 11 in
  ~ size < 8 ^ 11
  /\ parseTarHeader_size (buildUstarHeader (js "000001.png") size 1700000000) = Some size.
Proof. split; [lia | vm_compute; reflexivity]. Qed.

(** ** The checksum *)

Lemma computeTarChecksum_bound buf :
  0 <= computeTarChecksum buf <= 255 * Z.of_nat (length buf).
Proof.
  unfold computeTarChecksum.
  assert (forall acc, acc <= fold_left (fun sum b => sum + Z_of_byte b) buf acc
                      <= acc + 255 * Z.of_nat (length buf)) as H.
  { induction buf as [|b buf IH]; intros acc; cbn [fold_left length]; [lia|].
    specialize (IH (acc + Z_of_byte b)). pose proof (Z_of_byte_bound b). lia. }
  specialize (H 0). lia.
Qed.

Lemma checksum_field_blank name size mtime :
  take 8 (drop 148 (header_before_checksum name size mtime)) = replicate 8 Init.Byte.x20.
Proof.
  unfold header_before_checksum. rewrite !writeString_inserts.
  change (Z.to_nat 263) with 263%nat. change (Z.to_nat 257) with 257%nat.
  rewrite !segment_inserts_after by lia.
  rewrite segment_insert_after by lia.
  unfold fill. change (Z.to_nat 148) with 148%nat.
  change (Z.to_nat (156 - 148)) with 8%nat.
  apply segment_inserts_same; [|by rewrite length_replicate].
  rewrite length_replicate, !length_writeOctal, length_inserts, length_zeros.
  change (Z.to_nat 512) with 512%nat. lia.
Qed.

Lemma computeTarChecksum_sum buf : computeTarChecksum buf = byte_sum buf.
Proof.
  unfold computeTarChecksum, byte_sum, Z_of_byte.
  assert (forall acc,
            fold_left (fun sum b => sum + Z.of_N (Byte.to_N b)) buf acc
            = acc + sum_Z (map (fun b => Z.of_N (Byte.to_N b)) buf)) as Hgen.
  { induction buf as [|b buf IH]; intros acc; cbn [fold_left map sum_Z]; [lia|].
    rewrite IH. lia. }
  by rewrite Hgen.
Qed.

Lemma fill_blank_checksum_field block :
  length block = 512%nat ->
  fill block Init.Byte.x20 148 156 = blank_checksum_field block.
Proof.
  intros Hlen. unfold fill, blank_checksum_field.
  change (Z.to_nat 148) with 148%nat. change (Z.to_nat (156 - 148)) with 8%nat.
  rewrite inserts_take_drop by (rewrite length_replicate; lia).
  by rewrite length_replicate.
Qed.

(** C3.  In every header block the encoder produces, the sum of the 512
    bytes taken with the checksum field (offsets 148..155) blanked to
    spaces is the number written in that field, and the field is six
    zero-padded octal digits, a NUL and a space. *)
Theorem header_checksum_matches name size mtime :
  let h := buildUstarHeader name size mtime in
  let v := byte_sum (blank_checksum_field h) in
  length h = 512%nat
  /\ length (blank_checksum_field h) = 512%nat
  /\ checksum_field_value h = Some v
  /\ subarray h 148 156
     = map byte_of_N (padStart (toString8 v) 6) ++ [Init.Byte.x00; Init.Byte.x20]
  /\ length (padStart (toString8 v) 6) = 6%nat
  /\ Forall (fun c => is_oct_digit c = true) (padStart (toString8 v) 6).
Proof.
  intros h v.
  assert (v = computeTarChecksum (fill h Init.Byte.x20 148 156)) as Hsum.
  { subst v. rewrite computeTarChecksum_sum, fill_blank_checksum_field; [done|].
    apply length_buildUstarHeader. }
  assert (length (blank_checksum_field h) = 512%nat) as Hblanklen.
  { rewrite <- fill_blank_checksum_field by apply length_buildUstarHeader.
    rewrite length_fill. apply length_buildUstarHeader. }
  clearbody v. subst v. set (v := computeTarChecksum (fill h Init.Byte.x20 148 156)).
  split; [apply length_buildUstarHeader|]. split; [exact Hblanklen|]. clear Hblanklen.
  cut (length h = 512%nat
       /\ checksum_field_value h = Some v
       /\ subarray h 148 156
          = map byte_of_N (padStart (toString8 v) 6) ++ [Init.Byte.x00; Init.Byte.x20]
       /\ length (padStart (toString8 v) 6) = 6%nat
       /\ Forall (fun c => is_oct_digit c = true) (padStart (toString8 v) 6));
    [by intros (_ & ? & ? & ? & ?)|].
  set (b := header_before_checksum name size mtime).
  set (v0 := computeTarChecksum b).
  assert (length b = 512%nat) as Hb by apply length_header_before_checksum.
  assert (0 <= v0 < 8 ^ 6) as Hv0.
  { pose proof (computeTarChecksum_bound b) as H. rewrite Hb in H. subst v0. lia. }
  set (oct := padStart (toString8 v0) 6).
  assert (Forall (fun c => is_oct_digit c = true) oct) as Hoct
      by (apply padStart_digits, toString8_digits; lia).
  assert (length oct = 6%nat) as Hlen.
  { subst oct. rewrite length_padStart; [done|]. change (Z.to_nat 6) with 6%nat.
    apply (toString8_length_le v0 6); [change (Z.of_nat 6) with 6; lia|lia]. }
  assert (field_bytes 6 oct = map byte_of_N oct) as Hfield.
  { rewrite field_bytes_ascii by by apply digits_ascii.
    rewrite take_ge; [done|]. rewrite Hlen. done. }
  assert (h = list_inserts 148 (map byte_of_N oct ++ [Init.Byte.x00; Init.Byte.x20]) b) as Hh.
  { subst h. change (buildUstarHeader name size mtime) with (writeChecksum b v0).
    unfold writeChecksum. rewrite Z.max_r by lia. fold oct.
    rewrite writeString_inserts, Hfield. change (Z.to_nat 148) with 148%nat.
    rewrite <- insert_pair_inserts. rewrite length_map, Hlen. done. }
  assert (fill h Init.Byte.x20 148 156 = b) as Hblank.
  { unfold fill. change (Z.to_nat 148) with 148%nat.
    change (Z.to_nat (156 - 148)) with 8%nat. rewrite Hh.
    rewrite inserts_inserts_same.
    - apply inserts_id; [apply checksum_field_blank|]. rewrite length_replicate. lia.
    - by rewrite length_replicate, length_app, length_map, Hlen.
    - rewrite length_replicate. lia. }
  assert (v = v0) as Hv by (subst v; by rewrite Hblank).
  rewrite Hv. fold oct.
  assert (length h = 512%nat) as Hhlen by (rewrite Hh, length_inserts; done).
  assert (take 8 (drop 148 h) = map byte_of_N oct ++ [Init.Byte.x00; Init.Byte.x20]) as Hseg.
  { rewrite Hh. apply segment_inserts_same.
    - rewrite length_app, length_map, Hlen, Hb. simpl. lia.
    - by rewrite length_app, length_map, Hlen. }
  split; [done|]. split; [|split; [|done]].
  - unfold checksum_field_value.
    rewrite subarray_segment by lia.
    change (Z.to_nat (154 - 148)) with 6%nat. change (Z.to_nat 148) with 148%nat.
    replace (take 6 (drop 148 h)) with (take 6 (take 8 (drop 148 h)))
      by (rewrite take_take; done).
    rewrite Hseg, take_app_length' by (by rewrite length_map).
    rewrite ascii_decode_encode by by apply digits_ascii.
    rewrite parseInt8_digits; [|by destruct oct|done].
    subst oct. by rewrite padStart_parse, toString8_parse by lia.
  - rewrite subarray_segment by lia. exact Hseg.
Qed.

(** ** Entry names *)

Lemma safe_char_ascii c : is_safe_char c = true -> is_ascii c.
Proof.
  unfold is_safe_char, is_ascii. intros H.
  repeat match type of H with
         | (_ || _)%bool = true => apply orb_true_iff in H as [H|H]
         | (_ && _)%bool = true => apply andb_true_iff in H as [? H]
         end;
    repeat match goal with
           | H : (_ <=? _)%N = true |- _ => apply N.leb_le in H
           | H : (_ =? _)%N = true |- _ => apply N.eqb_eq in H
           end; lia.
Qed.

Lemma safe_chars_ascii s : forallb is_safe_char s = true -> Forall is_ascii s.
Proof.
  induction s as [|c s IH]; cbn [forallb]; [constructor|].
  intros [Hc Hs]%andb_true_iff. constructor; [by apply safe_char_ascii|by apply IH].
Qed.

Lemma byteLength_safe s :
  forallb is_safe_char s = true -> byteLength s = Z.of_nat (length s).
Proof.
  intros H. unfold byteLength.
  by rewrite utf8_encode_ascii, length_map by by apply safe_chars_ascii.
Qed.

Lemma includes_unsafe s c :
  includes s c = true -> is_safe_char c = false -> forallb is_safe_char s = false.
Proof.
  unfold includes. induction s as [|x s IH]; cbn [existsb forallb]; [done|].
  intros [Hx|Hs]%orb_true_iff Hc.
  - apply N.eqb_eq in Hx as <-. by rewrite Hc.
  - rewrite IH by done. apply andb_false_r.
Qed.

(** [isSafeTarName] checks the name invariant on the trimmed name. *)
Lemma isSafeTarName_spec name :
  isSafeTarName name = name_invariant (trim name).
Proof.
  unfold isSafeTarName, name_invariant.
  destruct (trim name) as [|c s] eqn:E; [done|].
  set (n := c :: s).
  destruct (forallb is_safe_char n) eqn:Hsafe.
  - destruct (includes n 0) eqn:H0;
      [by rewrite (includes_unsafe n 0) in Hsafe|].
    destruct (includes n 47) eqn:H47;
      [by rewrite (includes_unsafe n 47) in Hsafe|].
    destruct (includes n 92) eqn:H92;
      [by rewrite (includes_unsafe n 92) in Hsafe|].
    destruct (includes n 58) eqn:H58;
      [by rewrite (includes_unsafe n 58) in Hsafe|].
    cbn [orb negb andb]. unfold safe_name_regex. rewrite Hsafe.
    rewrite byteLength_safe by done. subst n. cbn [length].
    rewrite !andb_true_r.
    destruct (Z.leb_spec (Z.of_nat (S (length s))) 100);
      destruct (Nat.leb_spec (S (length s)) 100); try lia;
      destruct (Z.ltb_spec 0 (Z.of_nat (S (length s)))); try lia; done.
  - unfold safe_name_regex. rewrite Hsafe, !andb_false_r.
    by repeat match goal with |- context [if ?b then _ else _] => destruct b end.
Qed.

Lemma name_invariant_safe s : name_invariant s = true -> forallb is_safe_char s = true.
Proof.
  unfold name_invariant. destruct s; [done|].
  intros H. by repeat apply andb_true_iff in H as [H ?].
Qed.

(** ** The layout planner *)

Lemma layout_entries_throw entries cursor :
  (exists e, layout_entries entries cursor = Throw e)
  <-> Exists (fun entry => isSafeTarName (name entry) = false) entries.
Proof.
  revert cursor. induction entries as [|entry rest IH]; intros cursor; cbn [layout_entries].
  - split; [intros [e He]; done | intros H; inversion H].
  - destruct (isSafeTarName (name entry)) eqn:Hsafe; cbn [negb].
    + rewrite Exists_cons. specialize (IH (cursor + (512 + source_size (source entry)
                                  + computePaddingSize (source_size (source entry))))).
      destruct (layout_entries rest _) as [[l c]|e] eqn:Hrest.
      * split; [intros [e He]; done|]. intros [H|H]; [congruence|].
        apply IH in H as [e He]. done.
      * split; [|by eauto]. intros _. right. apply IH. by eauto.
    + split; [|by eauto]. intros _. by left.
Qed.

Lemma layout_entries_throw_name entries cursor e :
  layout_entries entries cursor = Throw e ->
  exists entry, entry ∈ entries /\ e = InvalidTarEntryName (name entry)
                /\ isSafeTarName (name entry) = false.
Proof.
  revert cursor. induction entries as [|entry rest IH]; intros cursor; cbn [layout_entries];
    [done|].
  destruct (isSafeTarName (name entry)) eqn:Hsafe; cbn [negb].
  - destruct (layout_entries rest _) as [[l c]|e'] eqn:Hrest; [done|].
    intros [= <-]. apply IH in Hrest as (en & Hin & He & Hbad).
    exists en. split; [by right|done].
  - intros [= <-]. exists entry. split; [by left|done].
Qed.

Lemma layout_entries_ok entries cursor l cursor' :
  layout_entries entries cursor = Ok (l, cursor') ->
  Forall (fun entry => isSafeTarName (name entry) = true) entries.
Proof.
  intros H. apply Forall_forall. intros entry Hin.
  destruct (isSafeTarName (name entry)) eqn:E; [done|].
  assert (exists e, layout_entries entries cursor = Throw e) as [e He].
  { apply layout_entries_throw. apply Exists_exists. by eauto. }
  congruence.
Qed.

Lemma TarStream_new_throw entries :
  (exists e, TarStream_new entries = Throw e)
  <-> exists e, layout_entries entries 0 = Throw e.
Proof.
  unfold TarStream_new. destruct (layout_entries entries 0) as [[l c]|e].
  - split; intros [e He]; done.
  - split; by eauto.
Qed.

(** What the constructor checks.  Construction of a [TarStream] fails
    exactly when some entry name, once its surrounding white space is
    trimmed, violates the name invariant (non-empty, at most 100 bytes of
    UTF-8, no path separator, safe characters only), and the error names
    the first such entry: the check is made on the trimmed name, whereas the
    layout and the header take the name as given. *)
Lemma construction_fails_iff_bad_name entries :
  ((exists e, TarStream_new entries = Throw e)
   <-> Exists (fun entry => name_invariant (trim (name entry)) = false) entries)
  /\ (forall e, TarStream_new entries = Throw e ->
        exists entry, entry ∈ entries /\ e = InvalidTarEntryName (name entry)
                      /\ name_invariant (trim (name entry)) = false)
  /\ (forall t, TarStream_new entries = Ok t ->
        Forall (fun entry => name_invariant (trim (name entry)) = true
                             /\ forallb is_safe_char (trim (name entry)) = true) entries).
Proof.
  split; [|split].
  - rewrite TarStream_new_throw, layout_entries_throw.
    split; intros H; (eapply Exists_impl; [exact H|]); intros entry;
      cbn beta; by rewrite isSafeTarName_spec.
  - intros e. unfold TarStream_new.
    destruct (layout_entries entries 0) as [[l c]|e'] eqn:H; [done|].
    intros [= <-]. apply layout_entries_throw_name in H as (entry & Hin & He & Hbad).
    exists entry. by rewrite <- isSafeTarName_spec.
  - intros t. unfold TarStream_new.
    destruct (layout_entries entries 0) as [[l c]|e'] eqn:H; [|done]. intros _.
    apply layout_entries_ok in H. eapply Forall_impl; [exact H|].
    intros entry Hsafe. cbn beta in Hsafe. rewrite isSafeTarName_spec in Hsafe.
    split; [done|]. by apply name_invariant_safe.
Qed.

(** C4.  The name invariant is checked on [name.trim()] but the name is
    written as given.  The entry named by a space followed by one hundred
    [a] (101 bytes, with a character outside the safe set) violates the
    invariant, yet [isSafeTarName] accepts it and the construction succeeds;
    the layout keeps the name as given, its header holds only the first 100
    bytes, the space and ninety-nine [a], and the header reader of the test
    suite reads back ninety-nine [a], neither the name nor its trimmed
    form. *)
Theorem untrimmed_name_written_truncated :
  let given := js " " ++ replicate 100 97%N in
  let entry := {| name := given; source := SourceBuffer []; mtimeSeconds := 0 |} in
  byteLength given = 101
  /\ name_invariant given = false
  /\ forallb is_safe_char given = false
  /\ isSafeTarName given = true
  /\ trim given = replicate 100 97%N
  /\ match TarStream_new [entry] with
     | Ok t =>
         match layout t with
         | [e] =>
             l_name e = given
             /\ subarray (header e) 0 100 = utf8_encode (js " " ++ replicate 99 97%N)
             /\ parseTarHeader_name (header e) = Some (replicate 99 97%N)
         | _ => False
         end
     | Throw _ => False
     end.
Proof.
  intros given entry.
  split; [vm_compute; reflexivity|]. split; [vm_compute; reflexivity|].
  split; [vm_compute; reflexivity|]. split; [vm_compute; reflexivity|].
  split; [vm_compute; reflexivity|].
  vm_compute. split; [reflexivity|]. split; reflexivity.
Qed.

(** ** Sizes *)

Lemma computeTarSizeBytes_fold entries acc :
  fold_left
    (fun total entry =>
       let total1 := total + 512 in
       let contentSize := source_size (source entry) in
       let total2 := total1 + contentSize in
       total2 + computePaddingSize contentSize)
    entries acc
  = acc + sum_Z (map entry_total entries).
Proof.
  revert acc. induction entries as [|entry rest IH]; intros acc; cbn [fold_left map sum_Z].
  - lia.
  - rewrite IH. unfold entry_total. lia.
Qed.

Lemma computeTarSizeBytes_sum entries :
  computeTarSizeBytes entries = sum_Z (map entry_total entries) + 1024.
Proof. unfold computeTarSizeBytes. rewrite computeTarSizeBytes_fold. lia. Qed.

(** C10.  [computeTarSizeBytes] looks at no name and never fails: on every
    entry list it returns the sum of [512 + content size + padding] over
    the entries plus 1024, whatever the names are, and it does so on lists
    that the [TarStream] constructor rejects. *)
Theorem computeTarSizeBytes_total :
  (forall entries, computeTarSizeBytes entries = sum_Z (map entry_total entries) + 1024)
  /\ (forall entries (rename : jsstring -> jsstring),
        computeTarSizeBytes
          (map (fun entry => {| name := rename (name entry); source := source entry;
                                mtimeSeconds := mtimeSeconds entry |}) entries)
        = computeTarSizeBytes entries)
  /\ (let rejected :=
        [ {| name := js "dir/evil name";
             source := SourceBuffer [Init.Byte.x41; Init.Byte.x42];
             mtimeSeconds := 0 |} ] in
      (exists e, TarStream_new rejected = Throw e)
      /\ computeTarSizeBytes rejected = 512 + 2 + 510 + 1024).
Proof.
  split; [|split].
  - apply computeTarSizeBytes_sum.
  - intros entries rename.
    unfold computeTarSizeBytes. rewrite !computeTarSizeBytes_fold. f_equal. f_equal. f_equal.
    induction entries as [|entry rest IH]; [done|]. cbn [map]. by rewrite IH.
  - split; [eexists; vm_compute; reflexivity | vm_compute; reflexivity].
Qed.

(** ** The archive image *)

Lemma zeros_app a b : 0 <= a -> 0 <= b -> zeros a ++ zeros b = zeros (a + b).
Proof.
  intros Ha Hb. unfold zeros. rewrite <- replicate_add. f_equal. lia.
Qed.

Lemma zeros_nil n : n <= 0 -> zeros n = [].
Proof. intros H. unfold zeros. by replace (Z.to_nat n) with 0%nat by lia. Qed.

Lemma archive_from_cons fs e es :
  archive_from fs (e :: es) = entry_bytes fs e ++ archive_from fs es.
Proof. unfold archive_from. cbn [map concat]. by rewrite <- app_assoc. Qed.

Lemma archive_from_nil fs : archive_from fs [] = zeros 1024.
Proof. reflexivity. Qed.

Lemma computePaddingSize_nonneg size : 0 <= computePaddingSize size.
Proof.
  unfold computePaddingSize. destruct (Z.eqb_spec (Z.rem size 512) 0); [lia|].
  pose proof (Z.rem_bound_abs size 512 ltac:(lia)). lia.
Qed.

Lemma computePaddingSize_block size : ((size + computePaddingSize size) mod 512 = 0).
Proof.
  unfold computePaddingSize. pose proof (Z.quot_rem' size 512) as H.
  destruct (Z.eqb_spec (Z.rem size 512) 0) as [E|E].
  - rewrite E in H. rewrite Z.add_0_r, H, Z.add_0_r, Z.mul_comm. apply Z_mod_mult.
  - replace (size + (512 - Z.rem size 512)) with ((Z.quot size 512 + 1) * 512) by lia.
    apply Z_mod_mult.
Qed.

Lemma content_bytes_length fs s :
  source_readable fs s = true -> Z.of_nat (length (content_bytes fs s)) = source_size s.
Proof.
  destruct s as [buffer|path sz]; cbn; [done|].
  destruct (fs !! path) as [content|]; [|done]. cbn.
  intros [H1%Z.leb_le H2%Z.leb_le]%andb_true_iff. rewrite length_take. lia.
Qed.

Lemma entry_bytes_length fs e :
  wf_layout_entry fs e -> Z.of_nat (length (entry_bytes fs e)) = totalSize e.
Proof.
  intros (Hh & Hc & Hp & Ht & _). unfold entry_bytes.
  rewrite !length_app, length_zeros, Hh. lia.
Qed.

(** The layout the constructor builds over readable sources. *)
Lemma layout_entries_wf fs entries cursor l cursor' :
  layout_entries entries cursor = Ok (l, cursor') ->
  entries_readable fs entries = true ->
  Forall (wf_layout_entry fs) l
  /\ cursor' = cursor + Z.of_nat (length (concat (map (entry_bytes fs) l)))
  /\ cursor' = cursor + sum_Z (map entry_total entries)
  /\ sum_Z (map totalSize l) = sum_Z (map entry_total entries)
  /\ Forall (fun e => totalSize e = 512 + contentSize e + paddingSize e) l.
Proof.
  revert cursor l cursor'.
  induction entries as [|entry rest IH]; intros cursor l cursor'; cbn [layout_entries].
  - intros [= <- <-] _. cbn. repeat split; try constructor; lia.
  - destruct (isSafeTarName (name entry)); cbn [negb]; [|done].
    destruct (layout_entries rest _) as [[l' c']|] eqn:Hrest; [|done].
    intros [= <- <-]. cbn [entries_readable forallb].
    intros [Hr Hrs]%andb_true_iff.
    destruct (IH _ _ _ Hrest Hrs) as (Hwf & Hc1 & Hc2 & Hsum & Htot).
    assert (wf_layout_entry fs
              {| l_name := name entry;
                 header := buildUstarHeader (name entry) (source_size (source entry))
                             (mtimeSeconds entry);
                 l_source := source entry; headerStart := cursor;
                 contentStart := cursor + 512;
                 contentSize := source_size (source entry);
                 paddingSize := computePaddingSize (source_size (source entry));
                 totalSize := 512 + source_size (source entry)
                              + computePaddingSize (source_size (source entry)) |}) as He.
    { unfold wf_layout_entry. cbn.
      split; [apply length_buildUstarHeader|].
      split; [by rewrite content_bytes_length|].
      split; [apply computePaddingSize_nonneg|]. split; [done|].
      destruct (source entry) as [buffer|path sz]; [done|]. cbn in Hr.
      destruct (fs !! path) as [content|]; [|done].
      apply andb_true_iff in Hr as [H1%Z.leb_le H2%Z.leb_le]. by eauto. }
    split; [by constructor|].
    cbn [map concat sum_Z]. rewrite length_app.
    pose proof (entry_bytes_length fs _ He) as Hlen. cbn [totalSize] in Hlen.
    assert (entry_total entry = 512 + source_size (source entry)
                                + computePaddingSize (source_size (source entry))) as Het
        by reflexivity.
    cbn [totalSize].
    repeat split; try lia. constructor; [reflexivity|exact Htot].
Qed.

Lemma TarStream_new_wf fs entries t :
  TarStream_new entries = Ok t -> entries_readable fs entries = true ->
  wf_stream fs t.
Proof.
  unfold TarStream_new. destruct (layout_entries entries 0) as [[l c]|] eqn:H; [|done].
  intros [= <-] Hr. destruct (layout_entries_wf fs _ _ _ _ H Hr) as (Hwf & Hc & _).
  split; [done|]. cbn. unfold archive_bytes, archive_from. cbn.
  rewrite length_app, length_zeros. lia.
Qed.

Lemma TarStream_new_size entries t :
  TarStream_new entries = Ok t ->
  getSizeBytes t = computeTarSizeBytes entries
  /\ getSizeBytes t = sum_Z (map totalSize (layout t)) + 1024
  /\ Forall (fun e => totalSize e = 512 + contentSize e + paddingSize e
                      /\ (contentSize e + paddingSize e) mod 512 = 0) (layout t).
Proof.
  unfold TarStream_new. destruct (layout_entries entries 0) as [[l c]|] eqn:H; [|done].
  intros [= <-]. cbn.
  assert (forall entries cursor l c,
            layout_entries entries cursor = Ok (l, c) ->
            c = cursor + sum_Z (map entry_total entries)
            /\ sum_Z (map totalSize l) = sum_Z (map entry_total entries)
            /\ Forall (fun e => totalSize e = 512 + contentSize e + paddingSize e
                                /\ (contentSize e + paddingSize e) mod 512 = 0) l) as Hgen.
  { clear. induction entries as [|entry rest IH]; intros cursor l c; cbn [layout_entries].
    - intros [= <- <-]. cbn. repeat split; try constructor; lia.
    - destruct (isSafeTarName (name entry)); cbn [negb]; [|done].
      destruct (layout_entries rest _) as [[l' c']|] eqn:Hrest; [|done].
      intros [= <- <-]. destruct (IH _ _ _ Hrest) as (Hc & Hsum & Hall).
      cbn [map sum_Z totalSize].
      assert (entry_total entry = 512 + source_size (source entry)
                                + computePaddingSize (source_size (source entry))) as Het
        by reflexivity.
      repeat split; try lia. constructor; [|done]. cbn.
      split; [done|]. apply computePaddingSize_block. }
  destruct (Hgen _ _ _ _ H) as (Hc & Hsum & Hall).
  rewrite computeTarSizeBytes_sum. repeat split; try lia. done.
Qed.

(** ** The cursor on a well-formed stream *)

Section Cursor.

Context (fs : filesystem) (t : TarStream).
Hypothesis Hwf : wf_stream fs t.

Lemma lookup_wf i e : layout t !! i = Some e -> wf_layout_entry fs e.
Proof. destruct Hwf as [H _]. rewrite Forall_lookup in H. apply H. Qed.

Lemma archive_after i e :
  layout t !! i = Some e ->
  archive_from fs (drop i (layout t))
  = entry_bytes fs e ++ archive_from fs (drop (S i) (layout t)).
Proof. intros H. by rewrite (drop_S _ _ _ H), archive_from_cons. Qed.

Lemma drop_zeros n k : 0 <= k -> drop (Z.to_nat k) (zeros n) = zeros (n - k).
Proof. intros Hk. unfold zeros. rewrite drop_replicate. f_equal. lia. Qed.

Lemma seek_from_ok pre entries cursor offset :
  layout t = pre ++ entries ->
  cursor <= offset ->
  offset - cursor <= Z.of_nat (length (archive_from fs entries)) ->
  wf_state t (seek_from entries (length pre) cursor offset)
  /\ rest_bytes fs t (seek_from entries (length pre) cursor offset)
     = drop (Z.to_nat (offset - cursor)) (archive_from fs entries).
Proof.
  revert pre cursor. induction entries as [|e rest IH]; intros pre cursor Hl Hc Hlen.
  - cbn [seek_from]. rewrite archive_from_nil, length_zeros in Hlen.
    split.
    + unfold wf_state. cbn. lia.
    + unfold rest_bytes. cbn [phase phaseOffset]. rewrite archive_from_nil, drop_zeros by lia.
      done.
  - assert (layout t !! length pre = Some e) as Hlook
        by (rewrite Hl; apply list_lookup_middle; done).
    assert (drop (S (length pre)) (layout t) = rest) as Hdrop.
    { rewrite Hl, (cons_middle e pre rest), app_assoc.
      apply drop_app_length'. rewrite length_app. simpl. lia. }
    destruct (lookup_wf _ _ Hlook) as (Hh & Hcs & Hp & Ht & Hsrc).
    rewrite archive_from_cons, length_app in Hlen.
    assert (Z.of_nat (length (entry_bytes fs e)) = totalSize e) as Hel
        by (apply entry_bytes_length, (lookup_wf _ _ Hlook)).
    cbn [seek_from].
    destruct (Z.ltb_spec offset (cursor + totalSize e)) as [Hin|Hout].
    + rewrite archive_from_cons. unfold entry_bytes. rewrite <- !app_assoc.
      set (rel := offset - cursor) in *.
      destruct (Z.ltb_spec rel 512) as [Hhd|Hhd].
      * split.
        -- unfold wf_state. cbn. split; [lia|]. split; [by eauto|]. split; [lia|done].
        -- unfold rest_bytes. cbn [phase phaseOffset entryIndex]. rewrite Hlook, Hdrop.
           rewrite drop_app_le by lia. done.
      * destruct (Z.ltb_spec (rel - 512) (contentSize e)) as [Hct|Hct].
        -- split.
           ++ unfold wf_state. cbn. split; [lia|]. exists e. split; [done|]. split; [lia|done].
           ++ unfold rest_bytes. cbn [phase phaseOffset entryIndex]. rewrite Hlook, Hdrop.
              rewrite drop_app_ge by lia. rewrite Hh.
              rewrite drop_app_le by lia. f_equal. f_equal. lia.
        -- split.
           ++ unfold wf_state. cbn. split; [lia|]. exists e. split; [done|]. lia.
           ++ unfold rest_bytes. cbn [phase phaseOffset entryIndex]. rewrite Hlook, Hdrop.
              rewrite drop_app_ge by lia. rewrite Hh.
              rewrite drop_app_ge by lia.
              rewrite drop_app_le by (rewrite length_zeros; lia).
              f_equal. rewrite <- (drop_zeros _ (rel - 512 - contentSize e)) by lia.
              f_equal. lia.
    + specialize (IH (pre ++ [e]) (cursor + totalSize e)).
      rewrite length_app in IH. cbn [length] in IH.
      replace (length pre + 1)%nat with (S (length pre)) in IH by lia.
      destruct IH as [IH1 IH2]; [by rewrite <- app_assoc|lia|lia|].
      split; [done|]. rewrite IH2, archive_from_cons.
      rewrite drop_app_ge by lia. f_equal. lia.
Qed.

Lemma seek_ok offset :
  0 <= offset <= totalSizeBytes t ->
  wf_state t (seek t offset)
  /\ rest_bytes fs t (seek t offset) = drop (Z.to_nat offset) (archive_bytes fs t).
Proof.
  intros Ho. destruct Hwf as [_ Htot].
  destruct (seek_from_ok [] (layout t) 0 offset) as [H1 H2]; [done|lia| |].
  - fold (archive_bytes fs t). lia.
  - split; [exact H1|]. unfold seek. cbn [length] in H2. rewrite H2. f_equal. lia.
Qed.

(** The state after the padding of an entry. *)
Lemma next_entry_ok st e :
  layout t !! entryIndex st = Some e ->
  wf_state t (next_entry t st)
  /\ rest_bytes fs t (next_entry t st)
     = archive_from fs (drop (S (entryIndex st)) (layout t))
  /\ pending t (next_entry t st) = 0%nat.
Proof.
  intros Hlook. unfold next_entry.
  destruct (Nat.leb_spec (length (layout t)) (S (entryIndex st))) as [Hend|Hmore].
  - split; [unfold wf_state; cbn; lia|]. split.
    + unfold rest_bytes. cbn. rewrite drop_ge by lia. done.
    + unfold pending. cbn. by destruct (layout t !! S (entryIndex st)).
  - destruct (lookup_lt_is_Some_2 (layout t) (S (entryIndex st)) Hmore) as [e' He'].
    destruct (lookup_wf _ _ He') as (Hh & Hcs & Hp & Ht & Hsrc).
    split; [|split].
    + unfold wf_state. cbn. split; [lia|]. split; [by eauto|]. split; [lia|done].
    + unfold rest_bytes. cbn [phase phaseOffset entryIndex]. rewrite He'.
      rewrite (archive_after _ _ He'). unfold entry_bytes.
      rewrite <- !app_assoc. done.
    + unfold pending. cbn. by rewrite He'.
Qed.

End Cursor.

Section Reads.

Context (fs : filesystem) (t : TarStream).
Hypothesis Hwf : wf_stream fs t.

Lemma nonempty_length {A} (l : list A) : (0 < length l)%nat -> l <> [].
Proof. by destruct l; simpl; [lia|]. Qed.

Lemma readNext_eof_ok i off fh want :
  0 <= off <= 1024 -> 1 <= want ->
  read_ok fs t {| phase := eof; entryIndex := i; phaseOffset := off; fileHandle := fh |} want
    (readNext_eof {| phase := eof; entryIndex := i; phaseOffset := off; fileHandle := fh |}
       want).
Proof.
  intros Hoff Hwant. unfold readNext_eof, read_ok. cbn [phaseOffset entryIndex fileHandle].
  assert (forall st', phase st' = eof -> pending t st' = 0%nat) as Hpend.
  { intros st' E. unfold pending. rewrite E. by destruct (layout t !! _). }
  destruct (Z.leb_spec (Z.max 0 (1024 - off)) 0) as [Hz|Hnz].
  - eexists _, _. split; [reflexivity|]. split; [done|]. split; [simpl; lia|].
    split; [unfold wf_state; cbn; lia|]. split.
    + intros _. unfold rest_bytes. cbn. rewrite zeros_nil by lia. done.
    + rewrite Hpend by done. done.
  - eexists _, _. split; [reflexivity|].
    set (n := Z.min want (Z.max 0 (1024 - off))).
    split; [|split; [|split; [|split]]].
    + unfold rest_bytes. cbn. rewrite zeros_app by lia. f_equal. lia.
    + rewrite length_zeros. lia.
    + unfold wf_state. cbn. lia.
    + intros _ _. apply nonempty_length. rewrite length_zeros. lia.
    + rewrite Hpend by done. done.
Qed.

Lemma readNext_header_ok i off e want :
  layout t !! i = Some e -> 0 <= off < 512 -> 1 <= want ->
  read_ok fs t
    {| phase := entry_header; entryIndex := i; phaseOffset := off; fileHandle := None |} want
    (readNext_header e
       {| phase := entry_header; entryIndex := i; phaseOffset := off; fileHandle := None |}
       want).
Proof.
  intros Hlook Hoff Hwant.
  destruct (lookup_wf fs t Hwf _ _ Hlook) as (Hh & Hcs & Hp & Ht & Hsrc).
  unfold readNext_header, read_ok. cbn [phaseOffset entryIndex fileHandle].
  set (n := Z.min want (Z.max 0 (512 - off))).
  assert (1 <= n <= want /\ off + n <= 512) as Hn by lia.
  rewrite subarray_segment by lia.
  replace (off + n - off) with n by lia.
  assert (pending t {| phase := entry_header; entryIndex := i; phaseOffset := off;
                       fileHandle := None |} = 0%nat) as Hpend
      by (unfold pending; cbn; by rewrite Hlook).
  rewrite Hpend.
  assert (length (take (Z.to_nat n) (drop (Z.to_nat off) (header e))) = Z.to_nat n) as Hlen
      by (rewrite length_take, length_drop; lia).
  destruct (Z.leb_spec 512 (off + n)) as [Hend|Hmore].
  - eexists _, _. split; [reflexivity|]. split; [|split; [|split; [|split]]].
    + unfold rest_bytes. cbn [phase phaseOffset entryIndex]. rewrite Hlook.
      change (Z.to_nat 0) with 0%nat. rewrite drop_0.
      rewrite take_ge by (rewrite length_drop; lia). done.
    + lia.
    + unfold wf_state. cbn. split; [lia|]. exists e. split; [done|]. split; [lia|done].
    + intros _ _. apply nonempty_length. lia.
    + done.
  - eexists _, _. split; [reflexivity|]. split; [|split; [|split; [|split]]].
    + unfold rest_bytes. cbn [phase phaseOffset entryIndex]. rewrite Hlook.
      rewrite app_assoc. f_equal.
      replace (Z.to_nat (off + n)) with (Z.to_nat off + Z.to_nat n)%nat by lia.
      rewrite <- drop_drop. apply take_drop.
    + lia.
    + unfold wf_state. cbn. split; [lia|]. split; [by eauto|]. split; [lia|done].
    + intros _ _. apply nonempty_length. lia.
    + done.
Qed.

Lemma readNext_padding_ok i off fh e want :
  layout t !! i = Some e -> 0 <= off <= paddingSize e -> 1 <= want ->
  read_ok fs t
    {| phase := entry_padding; entryIndex := i; phaseOffset := off; fileHandle := fh |} want
    (readNext_padding t e
       {| phase := entry_padding; entryIndex := i; phaseOffset := off; fileHandle := fh |}
       want).
Proof.
  intros Hlook Hoff Hwant.
  set (st := {| phase := entry_padding; entryIndex := i; phaseOffset := off;
                fileHandle := fh |}).
  destruct (next_entry_ok fs t Hwf st e Hlook) as (Hnwf & Hnrest & Hnpend).
  unfold readNext_padding, read_ok.
  change (phaseOffset st) with off. change (entryIndex st) with i.
  change (fileHandle st) with fh.
  assert (rest_bytes fs t st
          = zeros (paddingSize e - off) ++ archive_from fs (drop (S i) (layout t))) as Hrest
      by (unfold rest_bytes; cbn; by rewrite Hlook).
  assert (pending t st = if off <? paddingSize e then 0%nat else 1%nat) as Hpend
      by (unfold pending; cbn; by rewrite Hlook).
  rewrite Hrest, Hpend.
  destruct (Z.leb_spec (Z.max 0 (paddingSize e - off)) 0) as [Hz|Hnz].
  - eexists _, _. split; [reflexivity|].
    destruct (Z.ltb_spec off (paddingSize e)); [lia|].
    split; [|split; [|split; [|split]]].
    + rewrite Hnrest, zeros_nil by lia. done.
    + simpl. lia.
    + done.
    + done.
    + intros _. by rewrite Hnpend.
  - set (n := Z.min want (Z.max 0 (paddingSize e - off))).
    assert (1 <= n <= want /\ off + n <= paddingSize e) as Hn by lia.
    destruct (Z.ltb_spec off (paddingSize e)); [|lia].
    destruct (Z.leb_spec (paddingSize e) (off + n)) as [Hend|Hmore].
    + eexists _, _. split; [reflexivity|]. split; [|split; [|split; [|split]]].
      * rewrite Hnrest. f_equal. f_equal. lia.
      * rewrite length_zeros. lia.
      * done.
      * intros _ _. apply nonempty_length. rewrite length_zeros. lia.
      * done.
    + eexists _, _. split; [reflexivity|]. split; [|split; [|split; [|split]]].
      * unfold rest_bytes. cbn [phase phaseOffset entryIndex]. rewrite Hlook.
        rewrite app_assoc, zeros_app by lia. f_equal. f_equal. lia.
      * rewrite length_zeros. lia.
      * unfold wf_state. cbn. split; [lia|]. exists e. split; [done|lia].
      * intros _ _. apply nonempty_length. rewrite length_zeros. lia.
      * done.
Qed.

Lemma readNext_content_ok i off fh e want :
  layout t !! i = Some e -> 0 <= off <= contentSize e ->
  (forall h, fh = Some h -> exists sizeBytes, l_source e = SourceFile h sizeBytes) ->
  1 <= want ->
  read_ok fs t
    {| phase := entry_content; entryIndex := i; phaseOffset := off; fileHandle := fh |} want
    (readNext_content fs e
       {| phase := entry_content; entryIndex := i; phaseOffset := off; fileHandle := fh |}
       want).
Proof.
  intros Hlook Hoff Hfh Hwant.
  destruct (lookup_wf fs t Hwf _ _ Hlook) as (Hh & Hcs & Hp & Ht & Hsrc).
  set (st := {| phase := entry_content; entryIndex := i; phaseOffset := off;
                fileHandle := fh |}).
  set (after := archive_from fs (drop (S i) (layout t))).
  assert (rest_bytes fs t st
          = drop (Z.to_nat off) (content_bytes fs (l_source e))
            ++ zeros (paddingSize e) ++ after) as Hrest
      by (unfold rest_bytes; cbn; by rewrite Hlook).
  assert (pending t st = if off <? contentSize e then 0%nat
                         else if 0 <? paddingSize e then 1%nat else 2%nat) as Hpend
      by (unfold pending; cbn; by rewrite Hlook).
  assert (forall h, let st' := {| phase := entry_padding; entryIndex := i; phaseOffset := 0;
                                  fileHandle := h |} in
                    wf_state t st'
                    /\ rest_bytes fs t st' = zeros (paddingSize e) ++ after
                    /\ pending t st' = if 0 <? paddingSize e then 0%nat else 1%nat) as Hpad.
  { intros h st'. split; [|split].
    - unfold wf_state. cbn. split; [lia|]. exists e. split; [done|lia].
    - unfold rest_bytes. cbn. rewrite Hlook. f_equal. f_equal. lia.
    - unfold pending. cbn. by rewrite Hlook. }
  assert (forall off' h,
            0 <= off' <= contentSize e ->
            (forall h', h = Some h' -> exists sizeBytes, l_source e = SourceFile h' sizeBytes) ->
            let st' := {| phase := entry_content; entryIndex := i; phaseOffset := off';
                          fileHandle := h |} in
            wf_state t st'
            /\ rest_bytes fs t st'
               = drop (Z.to_nat off') (content_bytes fs (l_source e))
                 ++ zeros (paddingSize e) ++ after) as Hcont.
  { intros off' h Ho Hh' st'. split.
    - unfold wf_state. cbn. split; [lia|]. exists e. split; [done|]. split; [lia|done].
    - unfold rest_bytes. cbn. by rewrite Hlook. }
  unfold readNext_content, read_ok.
  change (phaseOffset st) with off. change (entryIndex st) with i.
  change (fileHandle st) with fh. rewrite Hrest, Hpend.
  destruct (Z.leb_spec (Z.max 0 (contentSize e - off)) 0) as [Hz|Hnz].
  - destruct (Hpad None) as (Hpwf & Hprest & Hppend).
    eexists _, _. split; [reflexivity|].
    destruct (Z.ltb_spec off (contentSize e)); [lia|].
    split; [|split; [|split; [|split]]].
    + rewrite Hprest, drop_ge by lia. done.
    + simpl. lia.
    + done.
    + by destruct (0 <? paddingSize e).
    + intros _. split; [done|]. rewrite Hppend. by destruct (0 <? paddingSize e).
  - set (n := Z.min want (Z.max 0 (contentSize e - off))).
    assert (1 <= n <= want /\ off + n <= contentSize e) as Hn by lia.
    destruct (Z.ltb_spec off (contentSize e)); [|lia].
    set (content := content_bytes fs (l_source e)) in *.
    assert (length (take (Z.to_nat n) (drop (Z.to_nat off) content)) = Z.to_nat n) as Hlen
        by (rewrite length_take, length_drop; lia).
    assert (take (Z.to_nat n) (drop (Z.to_nat off) content)
            ++ drop (Z.to_nat (off + n)) content = drop (Z.to_nat off) content) as Hsplit.
    { replace (Z.to_nat (off + n)) with (Z.to_nat off + Z.to_nat n)%nat by lia.
      rewrite <- drop_drop. apply take_drop. }
    assert (contentSize e <= off + n ->
            take (Z.to_nat n) (drop (Z.to_nat off) content) = drop (Z.to_nat off) content)
      as Hall.
    { intros Hend. apply take_ge. rewrite length_drop. lia. }
    destruct (l_source e) as [buffer|path sz] eqn:Hs.
    + (* buffer-backed *)
      subst content. cbn [content_bytes] in *.
      rewrite subarray_segment by lia.
      replace (off + n - off) with n by lia.
      destruct (Z.leb_spec (contentSize e) (off + n)) as [Hend|Hmore].
      * destruct (Hpad fh) as (Hpwf & Hprest & Hppend).
        eexists _, _. split; [reflexivity|]. split; [|split; [|split; [|split]]].
        -- rewrite Hprest, Hall by done. done.
        -- lia.
        -- done.
        -- intros _ _. apply nonempty_length. lia.
        -- done.
      * destruct (Hcont (off + n) fh ltac:(lia) Hfh) as (Hcwf & Hcrest).
        eexists _, _. split; [reflexivity|]. split; [|split; [|split; [|split]]].
        -- rewrite Hcrest, app_assoc, Hsplit. done.
        -- lia.
        -- done.
        -- intros _ _. apply nonempty_length. lia.
        -- done.
    + (* file-backed *)
      destruct Hsrc as (file & Hfile & Hsz).
      assert (ensureFileHandle fs st path = Ok path) as ->.
      { unfold ensureFileHandle. change (fileHandle st) with fh.
        destruct fh as [h|]; [|by rewrite Hfile].
        destruct (Hfh h eq_refl) as [sz' [= -> _]]. done. }
      subst content. cbn [content_bytes] in *. rewrite Hfile in *. cbn [default] in *. unfold id in *.
      assert (contentSize e = sz) as Hsize by (rewrite Hcs, length_take; lia).
      assert (take (Z.to_nat n) (drop (Z.to_nat off) file)
              = take (Z.to_nat n) (drop (Z.to_nat off) (take (Z.to_nat sz) file))) as Hdata.
      { rewrite !take_drop_commute, take_take. f_equal. f_equal. lia. }
      rewrite Hdata, Hlen.
      destruct (Z.leb_spec (Z.of_nat (Z.to_nat n)) 0); [lia|].
      replace (off + Z.of_nat (Z.to_nat n)) with (off + n) by lia.
      destruct (Z.leb_spec (contentSize e) (off + n)) as [Hend|Hmore].
      * destruct (Hpad None) as (Hpwf & Hprest & Hppend).
        eexists _, _. split; [reflexivity|]. split; [|split; [|split; [|split]]].
        -- rewrite Hprest, Hall by done. done.
        -- lia.
        -- done.
        -- intros _ _. apply nonempty_length. lia.
        -- done.
      * destruct (Hcont (off + n) (Some path) ltac:(lia)) as (Hcwf & Hcrest).
        { intros h' [= <-]. by eauto. }
        eexists _, _. split; [reflexivity|]. split; [|split; [|split; [|split]]].
        -- rewrite Hcrest, app_assoc, Hsplit. done.
        -- lia.
        -- done.
        -- intros _ _. apply nonempty_length. lia.
        -- done.
Qed.

(** One [readNext] on a well-formed cursor. *)
Lemma readNext_ok st maxBytes :
  wf_state t st -> 1 <= maxBytes -> read_ok fs t st maxBytes (readNext t fs st maxBytes).
Proof.
  destruct st as [ph i off fh]. intros [Hoff Hph] Hmax. cbn in Hoff, Hph.
  unfold readNext. cbn [phase entryIndex]. rewrite Z.max_r by lia.
  destruct ph.
  - destruct Hph as ([e He] & Ho & ->). rewrite He. by apply readNext_header_ok.
  - destruct Hph as (e & He & Ho & Hfh). rewrite He. by apply readNext_content_ok.
  - destruct Hph as (e & He & Ho). rewrite He. by apply readNext_padding_ok.
  - by apply readNext_eof_ok.
Qed.

Lemma pending_le_2 st : (pending t st <= 2)%nat.
Proof.
  unfold pending. destruct (layout t !! entryIndex st); [|lia].
  destruct (phase st); repeat case_match; lia.
Qed.

End Reads.

(** ** Numbers *)

Lemma Qle_bool_inject a b : Qle_bool (inject_Z a) (inject_Z b) = (a <=? b).
Proof. unfold Qle_bool. cbn. by rewrite !Z.mul_1_r. Qed.

Lemma js_ge_inject a b : js_ge (js_of_Z a) (js_of_Z b) = (b <=? a).
Proof. apply Qle_bool_inject. Qed.

Lemma Math_max_floor_fin k q :
  Math_max (js_of_Z k) (Math_floor (JFin q)) = js_of_Z (Z.max k (Qfloor q)).
Proof.
  unfold Math_max, Math_floor, js_of_Z. rewrite Qle_bool_inject.
  destruct (Z.leb_spec k (Qfloor q)); f_equal; f_equal; lia.
Qed.

(** Normalising a normalised argument changes nothing. *)
Lemma Math_max_floor_idem k x :
  Math_max (js_of_Z k) (Math_floor (Math_max (js_of_Z k) (Math_floor x)))
  = Math_max (js_of_Z k) (Math_floor x).
Proof.
  destruct x as [| |q|]; try reflexivity.
  - change (Math_max (js_of_Z k) (Math_floor JNegInf)) with (js_of_Z k).
    unfold js_of_Z at 2. rewrite Math_max_floor_fin, Qfloor_Z. f_equal. lia.
  - rewrite Math_max_floor_fin. unfold js_of_Z at 2.
    rewrite Math_max_floor_fin, Qfloor_Z. f_equal. lia.
Qed.


Lemma Math_min_chunk nc r :
  chunk_ok nc -> 1 <= r ->
  exists d, Math_min nc (js_of_Z r) = js_of_Z d /\ 1 <= d <= r
            /\ forall ch : list byte, Z.of_nat (length ch) <= d -> within_chunk nc ch.
Proof.
  intros [->|(z & Hz & ->)] Hr.
  - exists r. split; [done|]. split; [lia|done].
  - exists (Z.min z r). split; [|split; [lia|]].
    + unfold Math_min, js_of_Z. rewrite Qle_bool_inject.
      destruct (Z.leb_spec z r); f_equal; f_equal; lia.
    + intros ch Hch. cbn. rewrite <- Zle_Qle. lia.
Qed.

(** ** The loops of [iterateChunks] on a well-formed stream *)

Section Loops.

Context (fs : filesystem) (t : TarStream).
Hypothesis Hwf : wf_stream fs t.

Lemma read_parts_ok fuel : forall st remaining empties parts position,
  wf_state t st ->
  0 <= remaining <= Z.of_nat (length (rest_bytes fs t st)) ->
  0 <= empties -> (Z.to_nat empties + pending t st <= 2)%nat ->
  (3 * Z.to_nat remaining + pending t st < fuel)%nat ->
  exists parts' st',
    read_parts fuel t fs st remaining empties parts position
    = Some (Ok (parts ++ parts', st', position + remaining))
    /\ concat parts' = take (Z.to_nat remaining) (rest_bytes fs t st)
    /\ rest_bytes fs t st' = drop (Z.to_nat remaining) (rest_bytes fs t st)
    /\ wf_state t st'
    /\ (0 < remaining -> parts' <> []).
Proof.
  induction fuel as [|fuel IH]; intros st remaining empties parts position
    Hst Hrem Hemp Hpend Hfuel; [lia|].
  cbn [read_parts]. destruct (Z.ltb_spec 0 remaining) as [Hpos|Hzero].
  - destruct (readNext_ok fs t Hwf st remaining Hst ltac:(lia))
      as (bs & st' & -> & Happ & Hlen & Hst' & Hne & Hempty).
    pose proof (pending_le_2 t st') as Hp2.
    destruct (Z.leb_spec (Z.of_nat (length bs)) 0) as [Hnil|Hsome].
    + assert (bs = []) as -> by (destruct bs; [done|simpl in Hnil; lia]).
      cbn [app] in Happ.
      assert (pending t st <> 0%nat) as Hp.
      { intros Hp. apply (Hne Hp); [|done].
        intros E. rewrite E in Hrem. simpl in Hrem. lia. }
      destruct (Hempty Hp) as [_ Hdec].
      destruct (Z.ltb_spec 50 (empties + 1)); [lia|].
      destruct (IH st' remaining (empties + 1) parts position)
        as (parts' & st'' & Hrun & Hcat & Hrest & Hwf'' & Hnonempty);
        [done|by rewrite Happ|lia|lia|lia|].
      exists parts', st''. rewrite Hrun, <- Happ. done.
    + set (len := Z.of_nat (length bs)) in *.
      assert (Z.of_nat (length (rest_bytes fs t st))
              = len + Z.of_nat (length (rest_bytes fs t st'))) as Hsum
          by (rewrite <- Happ, length_app; lia).
      destruct (IH st' (remaining - len) 0 (parts ++ [bs]) (position + len))
        as (parts' & st'' & Hrun & Hcat & Hrest & Hwf'' & _);
        [done|lia|lia|lia|lia|].
      exists (bs :: parts'), st''. rewrite Hrun.
      split; [|split; [|split; [|split]]].
      * rewrite <- app_assoc. do 3 f_equal. lia.
      * cbn [concat]. rewrite Hcat, <- Happ.
        replace (Z.to_nat remaining) with (length bs + Z.to_nat (remaining - len))%nat by lia.
        by rewrite take_app_add.
      * rewrite Hrest, <- Happ.
        replace (Z.to_nat remaining) with (length bs + Z.to_nat (remaining - len))%nat by lia.
        by rewrite drop_app_add.
      * done.
      * done.
  - exists [], st. assert (remaining = 0) as -> by lia.
    rewrite app_nil_r, Z.add_0_r.
    split; [done|]. split; [done|]. split; [done|]. split; [done|]. intros; lia.
Qed.

Lemma chunk_loop_ok fuel inner nc : forall st position,
  chunk_ok nc -> wf_state t st ->
  Z.of_nat (length (rest_bytes fs t st)) = totalSizeBytes t - position ->
  (length (rest_bytes fs t st) < fuel)%nat ->
  (3 * length (rest_bytes fs t st) + 2 < inner)%nat ->
  exists chunks,
    chunk_loop fuel inner t fs st position nc = Some (chunks, Returned)
    /\ concat chunks = rest_bytes fs t st
    /\ Forall (fun ch => ch <> [] /\ within_chunk nc ch) chunks.
Proof.
  induction fuel as [|fuel IH]; intros st position Hnc Hst Hlen Hfuel Hinner; [lia|].
  cbn [chunk_loop]. destruct (Z.ltb_spec position (totalSizeBytes t)) as [Hin|Hout].
  - destruct (Math_min_chunk nc (totalSizeBytes t - position) Hnc ltac:(lia))
      as (d & -> & Hd & Hwithin).
    unfold js_of_Z. rewrite Qfloor_Z.
    pose proof (pending_le_2 t st) as Hp2.
    destruct (read_parts_ok inner st d 0 [] position)
      as (parts & st' & Hrun & Hcat & Hrest & Hst' & Hne); [done|lia|lia|simpl; lia|lia|].
    rewrite Hrun. cbn [app].
    destruct parts as [|p ps] eqn:Hparts; [by destruct Hne; [lia|]|].
    rewrite <- Hparts in *. clear Hparts p ps.
    destruct (IH st' (position + d)) as (chunks & Hloop & Hall & Hchunks); [done|done| | | |].
    + rewrite Hrest, length_drop. lia.
    + rewrite Hrest, length_drop. lia.
    + rewrite Hrest, length_drop. lia.
    + rewrite Hloop. eexists. split; [reflexivity|]. split.
      * cbn [concat]. rewrite Hcat, Hall, Hrest. apply take_drop.
      * constructor; [|done]. rewrite Hcat. split.
        -- apply nonempty_length. rewrite length_take. lia.
        -- apply Hwithin. rewrite length_take. lia.
  - exists []. split; [done|]. split; [|constructor].
    destruct (rest_bytes fs t st); [done|simpl in Hlen; lia].
Qed.

(** [iterateChunks] from a start that normalises to [p]: the chunks are the
    archive from byte [p] on. *)
Lemma iterateChunks_ok fuel startOffset chunkSize p :
  Math_max (js_of_Z 0) (Math_floor startOffset) = js_of_Z p -> 0 <= p ->
  chunk_ok (Math_max (js_of_Z 1) (Math_floor chunkSize)) ->
  (stream_fuel t <= fuel)%nat ->
  exists chunks,
    iterateChunks fuel t fs startOffset chunkSize = Some (chunks, Returned)
    /\ concat chunks = drop (Z.to_nat p) (archive_bytes fs t)
    /\ Forall (fun ch => ch <> []
                         /\ within_chunk (Math_max (js_of_Z 1) (Math_floor chunkSize)) ch)
         chunks.
Proof.
  intros Hp Hp0 Hc Hfuel. unfold iterateChunks. rewrite Hp, js_ge_inject.
  destruct Hwf as [_ Htot].
  destruct (Z.leb_spec (totalSizeBytes t) p) as [Hpast|Hin].
  - exists []. split; [done|]. split; [|constructor].
    rewrite drop_ge by lia. done.
  - change (js_of_Z p) with (JFin (inject_Z p)). cbv iota beta zeta. rewrite !Qfloor_Z.
    destruct (seek_ok fs t Hwf p ltac:(lia)) as [Hst Hrest].
    unfold stream_fuel in Hfuel.
    assert (Z.of_nat (length (rest_bytes fs t (seek t p))) = totalSizeBytes t - p) as Hlen
        by (rewrite Hrest, length_drop; lia).
    destruct (chunk_loop_ok fuel fuel _ (seek t p) p Hc Hst Hlen) as (chunks & H1 & H2 & H3);
      [lia|lia|].
    exists chunks. by rewrite H1, H2, Hrest.
Qed.

End Loops.

(** ** Termination of [iterateChunks] on any stream and any file system *)

Section Termination.

Context (fs : filesystem) (t : TarStream).




End Termination.

(** ** Normalised arguments *)

Lemma normalized_start_Z o :
  0 <= o -> Math_max (js_of_Z 0) (Math_floor (js_of_Z o)) = js_of_Z o.
Proof.
  intros Ho. unfold js_of_Z at 2. rewrite Math_max_floor_fin, Qfloor_Z. f_equal. lia.
Qed.



Lemma normalized_chunk_ok c :
  js_ge c (js_of_Z 1) = true -> chunk_ok (Math_max (js_of_Z 1) (Math_floor c)).
Proof.
  destruct c as [| |q|]; try done.
  - intros H. right. exists (Qfloor q).
    apply Qle_bool_iff, Qfloor_resp_le in H. rewrite Qfloor_Z in H.
    split; [done|]. rewrite Math_max_floor_fin. f_equal. lia.
  - intros _. by left.
Qed.

(** The normalised chunk size is NaN, +Infinity or an integer of at least 1. *)
Lemma normalized_chunk_cases c :
  let nc := Math_max (js_of_Z 1) (Math_floor c) in
  nc = JNaN \/ chunk_ok nc.
Proof.
  destruct c as [| |q|]; cbv zeta.
  - by left.
  - right. right. exists 1. done.
  - right. right. exists (Z.max 1 (Qfloor q)). split; [lia|]. apply Math_max_floor_fin.
  - right. by left.
Qed.




(** ** The stream of a valid entry list *)

(** A full run from offset 0 yields the archive image. *)
Lemma iterateChunks_full fs entries t c fuel :
  TarStream_new entries = Ok t -> entries_readable fs entries = true ->
  js_ge c (js_of_Z 1) = true -> (stream_fuel t <= fuel)%nat ->
  exists full,
    iterateChunks fuel t fs (js_of_Z 0) c = Some (full, Returned)
    /\ concat full = archive_bytes fs t
    /\ Z.of_nat (length (archive_bytes fs t)) = getSizeBytes t.
Proof.
  intros Hnew Hread Hc Hfuel.
  pose proof (TarStream_new_wf fs entries t Hnew Hread) as Hwf.
  destruct (iterateChunks_ok fs t Hwf fuel (js_of_Z 0) c 0) as (full & Hrun & Hcat & _);
    [by apply normalized_start_Z|lia|by apply normalized_chunk_ok|done|].
  exists full. split; [done|]. split; [by rewrite Hcat|].
  destruct Hwf as [_ Htot]. by rewrite <- Htot.
Qed.

(** C1.  For a valid entry list (accepted names, readable files of at
    least the declared sizes), every offset [0 <= o <= total] and all chunk
    sizes [c, c' >= 1]: both runs return, and the concatenation of the
    chunks of [iterateChunks(o, c)] is the concatenation of the chunks of
    [iterateChunks(0, c')] without its first [o] bytes. *)
Theorem resume_is_suffix fs entries t o c c' fuel fuel' :
  TarStream_new entries = Ok t -> entries_readable fs entries = true ->
  0 <= o <= getSizeBytes t ->
  js_ge c (js_of_Z 1) = true -> js_ge c' (js_of_Z 1) = true ->
  (stream_fuel t <= fuel)%nat -> (stream_fuel t <= fuel')%nat ->
  exists resumed full,
    iterateChunks fuel t fs (js_of_Z o) c = Some (resumed, Returned)
    /\ iterateChunks fuel' t fs (js_of_Z 0) c' = Some (full, Returned)
    /\ concat resumed = drop (Z.to_nat o) (concat full)
    /\ concat full = take (Z.to_nat o) (concat full) ++ concat resumed.
Proof.
  intros Hnew Hread Ho Hc Hc' Hfuel Hfuel'.
  pose proof (TarStream_new_wf fs entries t Hnew Hread) as Hwf.
  destruct (iterateChunks_full fs entries t c' fuel' Hnew Hread Hc' Hfuel')
    as (full & Hfull & Hcat & _).
  destruct (iterateChunks_ok fs t Hwf fuel (js_of_Z o) c o) as (resumed & Hrun & Hres & _);
    [apply normalized_start_Z; lia|lia|by apply normalized_chunk_ok|done|].
  exists resumed, full. rewrite Hcat, Hres. repeat split; try done.
  by rewrite take_drop.
Qed.

Lemma resume_is_suffix_witness :
  exists resumed full,
    iterateChunks (stream_fuel example_stream) example_stream example_fs
      (js_of_Z 1546) (js_of_Z 64) = Some (resumed, Returned)
    /\ iterateChunks (stream_fuel example_stream) example_stream example_fs
         (js_of_Z 0) (js_of_Z 128) = Some (full, Returned)
    /\ concat resumed = drop (Z.to_nat 1546) (concat full)
    /\ concat full = take (Z.to_nat 1546) (concat full) ++ concat resumed.
Proof.
  apply (resume_is_suffix example_fs example_entries example_stream 1546
           (js_of_Z 64) (js_of_Z 128)).
  - vm_compute. reflexivity.
  - vm_compute. reflexivity.
  - vm_compute. split; discriminate.
  - vm_compute. reflexivity.
  - vm_compute. reflexivity.
  - apply le_n.
  - apply le_n.
Defined.

(** C2.  For a valid entry list the size computed from the entries alone,
    the size the stream reports and the number of bytes a full run
    produces are the same number. *)
Theorem size_agrees fs entries t c fuel :
  TarStream_new entries = Ok t -> entries_readable fs entries = true ->
  js_ge c (js_of_Z 1) = true -> (stream_fuel t <= fuel)%nat ->
  computeTarSizeBytes entries = getSizeBytes t
  /\ exists full,
       iterateChunks fuel t fs (js_of_Z 0) c = Some (full, Returned)
       /\ Z.of_nat (length (concat full)) = computeTarSizeBytes entries.
Proof.
  intros Hnew Hread Hc Hfuel.
  destruct (TarStream_new_size entries t Hnew) as (Hsize & _).
  split; [done|].
  destruct (iterateChunks_full fs entries t c fuel Hnew Hread Hc Hfuel)
    as (full & Hfull & Hcat & Hlen).
  exists full. split; [done|]. rewrite Hcat. lia.
Qed.

Lemma size_agrees_witness :
  computeTarSizeBytes example_entries = getSizeBytes example_stream
  /\ exists full,
       iterateChunks (stream_fuel example_stream) example_stream example_fs
         (js_of_Z 0) (js_of_Z 128) = Some (full, Returned)
       /\ Z.of_nat (length (concat full)) = computeTarSizeBytes example_entries.
Proof.
  apply (size_agrees example_fs example_entries example_stream (js_of_Z 128)).
  - vm_compute. reflexivity.
  - vm_compute. reflexivity.
  - vm_compute. reflexivity.
  - apply le_n.
Defined.

Lemma sum_blocks l :
  Forall (fun e => totalSize e = 512 + contentSize e + paddingSize e
                   /\ (contentSize e + paddingSize e) mod 512 = 0) l ->
  sum_Z (map totalSize l) mod 512 = 0
  /\ sum_Z (map totalSize l)
     = sum_Z (map (fun e => 512 + contentSize e + paddingSize e) l).
Proof.
  induction 1 as [|e l [He Hm] _ [IH1 IH2]]; [done|].
  cbn [map sum_Z]. split; [|lia].
  rewrite He. rewrite Z.add_mod, IH1 by lia.
  replace (512 + contentSize e + paddingSize e)
    with (contentSize e + paddingSize e + 1 * 512) by lia.
  rewrite Z_mod_plus_full, Hm. done.
Qed.

(** C7.  For a valid entry list the total size is a multiple of 512; it is
    the sum over the layout of [512 + content size + padding size] plus
    1024; and the last 1024 bytes of the stream a full run produces are
    zero. *)
Theorem archive_ends_with_zero_blocks fs entries t c fuel :
  TarStream_new entries = Ok t -> entries_readable fs entries = true ->
  js_ge c (js_of_Z 1) = true -> (stream_fuel t <= fuel)%nat ->
  getSizeBytes t mod 512 = 0
  /\ getSizeBytes t
     = sum_Z (map (fun e => 512 + contentSize e + paddingSize e) (layout t)) + 1024
  /\ getSizeBytes t = sum_Z (map entry_total entries) + 1024
  /\ exists full,
       iterateChunks fuel t fs (js_of_Z 0) c = Some (full, Returned)
       /\ Z.of_nat (length (concat full)) = getSizeBytes t
       /\ drop (Z.to_nat (getSizeBytes t - 1024)) (concat full) = zeros 1024
       /\ Forall (fun b => b = Init.Byte.x00)
            (drop (Z.to_nat (getSizeBytes t - 1024)) (concat full)).
Proof.
  intros Hnew Hread Hc Hfuel.
  destruct (TarStream_new_size entries t Hnew) as (Hsize & Hsum & Hall).
  destruct (sum_blocks _ Hall) as [Hmod Heq].
  split; [|split; [|split]].
  - rewrite Hsum, Z.add_mod, Hmod by lia. done.
  - lia.
  - rewrite Hsize. apply computeTarSizeBytes_sum.
  - destruct (iterateChunks_full fs entries t c fuel Hnew Hread Hc Hfuel)
      as (full & Hfull & Hcat & Hlen).
    exists full. split; [done|]. split; [by rewrite Hcat|].
    assert (drop (Z.to_nat (getSizeBytes t - 1024)) (concat full) = zeros 1024) as Hz.
    { rewrite Hcat. unfold archive_bytes, archive_from in *.
      rewrite length_app, length_zeros in Hlen.
      apply drop_app_length'. lia. }
    split; [done|]. rewrite Hz. unfold zeros. by apply Forall_replicate.
Qed.

Lemma archive_ends_with_zero_blocks_witness :
  getSizeBytes example_stream mod 512 = 0
  /\ getSizeBytes example_stream
     = sum_Z (map (fun e => 512 + contentSize e + paddingSize e) (layout example_stream))
       + 1024
  /\ getSizeBytes example_stream = sum_Z (map entry_total example_entries) + 1024
  /\ exists full,
       iterateChunks (stream_fuel example_stream) example_stream example_fs
         (js_of_Z 0) (js_of_Z 128) = Some (full, Returned)
       /\ Z.of_nat (length (concat full)) = getSizeBytes example_stream
       /\ drop (Z.to_nat (getSizeBytes example_stream - 1024)) (concat full) = zeros 1024
       /\ Forall (fun b => b = Init.Byte.x00)
            (drop (Z.to_nat (getSizeBytes example_stream - 1024)) (concat full)).
Proof.
  apply (archive_ends_with_zero_blocks example_fs example_entries example_stream
           (js_of_Z 128)).
  - vm_compute. reflexivity.
  - vm_compute. reflexivity.
  - vm_compute. reflexivity.
  - apply le_n.
Defined.



(** ** Chunk upload with retry *)

Section Retry.

Context {Srv : Type} (client : EnriProxyClient Srv).

(** C6 (as amended).  When an append fails with status 409 the routine
    queries the server's offset.  If that offset differs from the expected
    one it is returned to the caller at once, at whatever attempt this
    happens, without backoff and without touching the attempt count.  If it
    equals the expected offset the conflict is handled as any retried
    failure: after attempt 5 the 409 error is raised, before that the loop
    waits and goes on with the next attempt. *)
Theorem conflict_resync remaining uploadId offset chunk timeoutMs attempt w log w1 w2 actual :
  appendUploadChunk client w uploadId offset chunk timeoutMs = (w1, Throw (HttpError 409)) ->
  getUploadOffset client w1 uploadId = (w2, Ok actual) ->
  (actual <> offset ->
   attempts client (S remaining) uploadId offset chunk timeoutMs attempt w log
   = ((w2, log ++ [LogResync offset actual]), Ok actual))
  /\ (actual = offset ->
      attempts client (S remaining) uploadId offset chunk timeoutMs attempt w log
      = if attempt =? maxAttempts then ((w2, log), Throw (HttpError 409))
        else attempts client remaining uploadId offset chunk timeoutMs (attempt + 1) w2
               (log ++ [LogRetry attempt maxAttempts (backoff attempt);
                        Sleep (backoff attempt)]))
  /\ (actual <> offset ->
      uploadChunkWithRetry client uploadId offset chunk timeoutMs w log
      = ((w2, log ++ [LogResync offset actual]), Ok actual)).
Proof.
  intros Happend Hquery.
  assert (forall r attempt',
            actual <> offset ->
            attempts client (S r) uploadId offset chunk timeoutMs attempt' w log
            = ((w2, log ++ [LogResync offset actual]), Ok actual)) as Hresync.
  { intros r attempt' Hne. cbn [attempts]. rewrite Happend. cbn. rewrite Hquery.
    destruct (Z.eqb_spec actual offset); [done|]. done. }
  split; [by apply Hresync|]. split.
  - intros ->. cbn [attempts]. rewrite Happend. cbn. rewrite Hquery.
    rewrite Z.eqb_refl. cbn. done.
  - intros Hne. unfold uploadChunkWithRetry. by apply (Hresync 4%nat).
Qed.

(** A server that always conflicts at the expected offset: the attempts run
    out and the 409 is raised. *)
Lemma attempts_stuck uploadId offset chunk timeoutMs :
  (forall w id off ch tm, snd (appendUploadChunk client w id off ch tm) = Throw (HttpError 409)) ->
  (forall w id, snd (getUploadOffset client w id) = Ok offset) ->
  forall remaining attempt w log,
    attempt + Z.of_nat remaining = maxAttempts + 1 -> (1 <= remaining)%nat ->
    exists w',
      attempts client remaining uploadId offset chunk timeoutMs attempt w log
      = ((w', log ++ retry_log remaining attempt), Throw (HttpError 409)).
Proof.
  intros H409 Hsame. induction remaining as [|r IH]; intros attempt w log Hsum Hr; [lia|].
  cbn [attempts].
  destruct (appendUploadChunk client w uploadId offset chunk timeoutMs) as [w1 r1] eqn:Ea.
  pose proof (H409 w uploadId offset chunk timeoutMs) as Ha. rewrite Ea in Ha. cbn in Ha.
  subst r1. cbn.
  destruct (getUploadOffset client w1 uploadId) as [w2 r2] eqn:Eq.
  pose proof (Hsame w1 uploadId) as Hq. rewrite Eq in Hq. cbn in Hq. subst r2.
  rewrite Z.eqb_refl. cbn.
  unfold maxAttempts in *.
  destruct (Z.eqb_spec attempt 5) as [->|Hne].
  - assert (r = 0%nat) as -> by lia. exists w2. cbn. by rewrite app_nil_r.
  - destruct r as [|r]; [lia|].
    destruct (IH (attempt + 1) w2
                (log ++ [LogRetry attempt 5 (Z.min (1000 * 2 ^ (attempt - 1)) 10000);
                         Sleep (Z.min (1000 * 2 ^ (attempt - 1)) 10000)]))
      as (w' & Hrun); [lia|lia|].
    exists w'. rewrite Hrun. f_equal. f_equal. rewrite <- app_assoc. done.
Qed.

(** C5 (as amended).  If every append fails with an offset conflict and
    every offset query returns the same offset [o0], the one the client
    expects, then the multi-file upload ends: the first chunk exhausts its
    five attempts, with four backoffs, and the upload fails with the 409
    error of the last attempt (not with the stalled-progress error). *)
Theorem stuck_conflict_surfaces_409 fs entries t timeoutMs w fuel o0 :
  TarStream_new entries = Ok t -> entries_readable fs entries = true ->
  (forall w id off ch tm, snd (appendUploadChunk client w id off ch tm) = Throw (HttpError 409)) ->
  (forall w id, snd (getUploadOffset client w id) = Ok o0) ->
  (forall w size, exists session,
      snd (createUploadSession client w size) = Ok session
      /\ chunk_size_bytes session <> JNaN) ->
  0 <= o0 < getSizeBytes t ->
  (stream_fuel t <= fuel)%nat ->
  exists w',
    uploadImageSetAsMediaSetTar client fuel fs entries timeoutMs w
    = Some ((w',
             [LogRetry 1 5 1000; Sleep 1000; LogRetry 2 5 2000; Sleep 2000;
              LogRetry 3 5 4000; Sleep 4000; LogRetry 4 5 8000; Sleep 8000]),
            Throw (HttpError 409)).
Proof.
  intros Hnew Hread H409 Hsame Hsession Ho Hfuel.
  pose proof (TarStream_new_wf fs entries t Hnew Hread) as Hwf.
  destruct (TarStream_new_size entries t Hnew) as (Hsize & _).
  unfold uploadImageSetAsMediaSetTar. rewrite Hnew, Hsize, Z.eqb_refl. cbn [negb].
  destruct (createUploadSession client w (computeTarSizeBytes entries)) as [w1 r1] eqn:Ec.
  destruct (Hsession w (computeTarSizeBytes entries)) as (session & Hs & Hhint).
  rewrite Ec in Hs. cbn in Hs. subst r1.
  destruct (getUploadOffset client w1 (upload_id session)) as [w2 r2] eqn:Eq.
  pose proof (Hsame w1 (upload_id session)) as Hq. rewrite Eq in Hq. cbn in Hq. subst r2.
  rewrite <- Hsize.
  destruct (Z.ltb_spec o0 0); [lia|]. destruct (Z.ltb_spec (getSizeBytes t) o0); [lia|].
  cbn [orb].
  destruct fuel as [|fuel']; [unfold stream_fuel in Hfuel; lia|].
  cbn [upload_loop]. destruct (Z.ltb_spec o0 (getSizeBytes t)); [|lia].
  set (chunkSize := Math_max (js_of_Z 1) (Math_floor (chunk_size_bytes session))).
  assert (chunk_ok chunkSize) as Hchunk.
  { destruct (normalized_chunk_cases (chunk_size_bytes session)) as [Hnan|Hok]; [|done].
    destruct (chunk_size_bytes session) as [| |q|]; try done.
    cbn in Hnan. by destruct (Qle_bool _ _). }
  destruct (iterateChunks_ok fs t Hwf (S fuel') (js_of_Z o0) chunkSize o0)
    as (chunks & -> & Hcat & Hall);
    [apply normalized_start_Z; lia|lia| |done|].
  { unfold chunkSize. by rewrite Math_max_floor_idem. }
  destruct chunks as [|chunk rest].
  { exfalso. cbn in Hcat. symmetry in Hcat. apply (f_equal length) in Hcat.
    destruct Hwf as [_ Htot]. unfold getSizeBytes in *.
    rewrite length_drop in Hcat. simpl in Hcat. lia. }
  apply Forall_cons in Hall as [[Hne _] _].
  cbn [send_chunks].
  destruct (Z.eqb_spec (Z.of_nat (length chunk)) 0) as [E|_];
    [destruct chunk; [done|simpl in E; lia]|].
  unfold uploadChunkWithRetry.
  destruct (attempts_stuck (upload_id session) o0 chunk timeoutMs H409 Hsame
              (Z.to_nat maxAttempts) 1 w2 []) as (w' & ->);
    [done|unfold maxAttempts; lia|].
  exists w'. reflexivity.
Qed.

End Retry.

Lemma conflict_resync_witness :
  uploadChunkWithRetry ahead_client "upload-1" 512 [Init.Byte.x41] 30000 0%nat []
  = ((1%nat, [LogResync 512 1024]), Ok 1024).
Proof.
  apply (conflict_resync ahead_client 4%nat "upload-1" 512 [Init.Byte.x41] 30000 1 0%nat []
           1%nat 1%nat 1024 eq_refl eq_refl).
  discriminate.
Defined.

(** C6, the claim as stated fails: with a server whose offset equals the
    expected one, a 409 is not answered by returning the offset; each such
    conflict consumes an attempt, and after the fifth the error is raised. *)
Lemma conflict_consumes_attempts :
  uploadChunkWithRetry stuck_client "upload-1" 0 [Init.Byte.x41] 30000 0%nat []
  = ((5%nat,
      [LogRetry 1 5 1000; Sleep 1000; LogRetry 2 5 2000; Sleep 2000;
       LogRetry 3 5 4000; Sleep 4000; LogRetry 4 5 8000; Sleep 8000]),
     Throw (HttpError 409)).
Proof. vm_compute. reflexivity. Qed.


Lemma stuck_conflict_surfaces_409_witness :
  exists w',
    uploadImageSetAsMediaSetTar stuck_client (stream_fuel example_stream) example_fs
      example_entries 30000 0%nat
    = Some ((w',
             [LogRetry 1 5 1000; Sleep 1000; LogRetry 2 5 2000; Sleep 2000;
              LogRetry 3 5 4000; Sleep 4000; LogRetry 4 5 8000; Sleep 8000]),
            Throw (HttpError 409)).
Proof.
  apply (stuck_conflict_surfaces_409 stuck_client example_fs example_entries example_stream
           30000 0%nat (stream_fuel example_stream) 0).
  - vm_compute. reflexivity.
  - vm_compute. reflexivity.
  - intros. reflexivity.
  - intros. reflexivity.
  - intros w size. eexists. split; [reflexivity|discriminate].
  - vm_compute. split; [discriminate|reflexivity].
  - apply le_n.
Defined.

(** C5, the claim as stated fails: against the server that conflicts on
    every append and always reports the expected offset, the upload of the
    example media set ends with the HTTP 409 error, after five append
    calls, and not with the stalled-progress error. *)
Lemma stuck_upload_is_not_stalled :
  uploadImageSetAsMediaSetTar stuck_client 64 example_fs example_entries 30000 0%nat
  = Some ((5%nat,
           [LogRetry 1 5 1000; Sleep 1000; LogRetry 2 5 2000; Sleep 2000;
            LogRetry 3 5 4000; Sleep 4000; LogRetry 4 5 8000; Sleep 8000]),
          Throw (HttpError 409))
  /\ Throw (E := upload_error) (A := string) (HttpError 409) <> Throw UploadStalled.
Proof. split; [vm_compute; reflexivity | discriminate]. Qed.

(** * Further properties *)

(** ** Padding and the layout *)

(** X1.  For a content size [size >= 0] the padding is between 0 and 511,
    it completes the content to a multiple of 512, it is 0 exactly when the
    size already is such a multiple, and no smaller padding would do. *)
Theorem computePaddingSize_least size :
  0 <= size ->
  0 <= computePaddingSize size <= 511
  /\ (size + computePaddingSize size) mod 512 = 0
  /\ (computePaddingSize size = 0 <-> size mod 512 = 0)
  /\ (forall p, 0 <= p -> (size + p) mod 512 = 0 -> computePaddingSize size <= p).
Proof.
  intros Hs. unfold computePaddingSize. rewrite Z.rem_mod_nonneg by lia.
  pose proof (Z.mod_pos_bound size 512 ltac:(lia)) as Hm.
  pose proof (Z.div_mod size 512 ltac:(lia)) as Hd.
  destruct (Z.eqb_spec (size mod 512) 0) as [E|E].
  - rewrite Z.add_0_r. split; [lia|]. split; [done|]. split; [done|]. intros; lia.
  - split; [lia|]. split; [|split; [lia|]].
    + replace (size + (512 - size mod 512)) with ((size / 512 + 1) * 512) by lia.
      apply Z_mod_mult.
    + intros p Hp Hmod.
      destruct (Z.lt_ge_cases p (512 - size mod 512)) as [Hlt|]; [exfalso|lia].
      rewrite Hd, <- Z.add_assoc, Z.add_comm, Z.mul_comm, Z_mod_plus_full in Hmod.
      rewrite Z.mod_small in Hmod by lia. lia.
Qed.

Lemma computePaddingSize_least_witness :
  0 <= computePaddingSize 11 <= 511 /\ (11 + computePaddingSize 11) mod 512 = 0.
Proof.
  destruct (computePaddingSize_least 11 ltac:(lia)) as (H1 & H2 & _). exact (conj H1 H2).
Defined.

(** What the constructor's loop records for each entry. *)
Lemma layout_entries_offsets entries : forall cursor l cursor',
  layout_entries entries cursor = Ok (l, cursor') ->
  length l = length entries
  /\ forall i entry,
       entries !! i = Some entry ->
       exists e,
         l !! i = Some e
         /\ l_name e = name entry /\ l_source e = source entry
         /\ header e = buildUstarHeader (name entry) (source_size (source entry))
                         (mtimeSeconds entry)
         /\ contentSize e = source_size (source entry)
         /\ paddingSize e = computePaddingSize (source_size (source entry))
         /\ totalSize e = entry_total entry
         /\ headerStart e = cursor + sum_Z (map entry_total (take i entries))
         /\ headerStart e = cursor + sum_Z (map totalSize (take i l))
         /\ contentStart e = headerStart e + 512.
Proof.
  induction entries as [|entry0 rest IH]; intros cursor l cursor'; cbn [layout_entries].
  - intros [= <- <-]. split; [done|]. intros i entry H. by rewrite lookup_nil in H.
  - destruct (isSafeTarName (name entry0)); cbn [negb]; [|done].
    destruct (layout_entries rest _) as [[l' c']|] eqn:Hrest; [|done].
    intros [= <- <-]. destruct (IH _ _ _ Hrest) as [Hlen Hall].
    split; [cbn; by rewrite Hlen|].
    intros [|i] entry Hi.
    + injection Hi as <-. eexists. split; [reflexivity|]. cbn. repeat split; lia.
    + cbn in Hi. destruct (Hall i entry Hi)
        as (e & He & H1 & H2 & H3 & H4 & H5 & H6 & H7 & H8 & H9).
      exists e. split; [exact He|]. cbn [take map sum_Z totalSize].
      unfold entry_total at 2. repeat split; try done; lia.
Qed.

Lemma sum_blocks_mod l :
  Forall (fun x => x mod 512 = 0) l -> sum_Z l mod 512 = 0.
Proof.
  induction 1 as [|x l Hx _ IH]; [done|]. cbn [sum_Z].
  by rewrite Z.add_mod, Hx, IH by lia.
Qed.

Lemma entry_total_block entry : entry_total entry mod 512 = 0.
Proof.
  unfold entry_total.
  replace (512 + source_size (source entry) + computePaddingSize (source_size (source entry)))
    with (source_size (source entry) + computePaddingSize (source_size (source entry))
          + 1 * 512) by lia.
  rewrite Z_mod_plus_full. apply computePaddingSize_block.
Qed.

(** X2.  The layout a [TarStream] records: one layout entry per entry, in
    order, with the entry's name and source, its rendered header, its
    content size and padding; the header of entry [i] starts where the
    entries before it end (the sum of their [512 + size + padding]), which
    is a multiple of 512, and its content starts 512 bytes later. *)
Theorem layout_offsets entries t :
  TarStream_new entries = Ok t ->
  length (layout t) = length entries
  /\ forall i entry,
       entries !! i = Some entry ->
       exists e,
         layout t !! i = Some e
         /\ l_name e = name entry /\ l_source e = source entry
         /\ header e = buildUstarHeader (name entry) (source_size (source entry))
                         (mtimeSeconds entry)
         /\ contentSize e = source_size (source entry)
         /\ paddingSize e = computePaddingSize (source_size (source entry))
         /\ totalSize e = 512 + contentSize e + paddingSize e
         /\ headerStart e = sum_Z (map entry_total (take i entries))
         /\ headerStart e mod 512 = 0
         /\ contentStart e = headerStart e + 512.
Proof.
  unfold TarStream_new. destruct (layout_entries entries 0) as [[l c]|] eqn:H; [|done].
  intros [= <-]. cbn [layout].
  destruct (layout_entries_offsets entries 0 l c H) as [Hlen Hall].
  split; [done|]. intros i entry Hi.
  destruct (Hall i entry Hi) as (e & He & H1 & H2 & H3 & H4 & H5 & H6 & H7 & H8 & H9).
  exists e. split; [done|]. do 5 (split; [done|]).
  split; [rewrite H6, H4, H5; reflexivity|]. split; [lia|]. split; [|done].
  rewrite H7, Z.add_0_l. apply sum_blocks_mod, Forall_forall. intros x Hx.
  apply list_elem_of_In, in_map_iff in Hx as (en & <- & _). apply entry_total_block.
Qed.

Lemma layout_offsets_witness :
  exists e,
    layout example_stream !! 1%nat = Some e
    /\ l_name e = js "000001.png" /\ headerStart e = 1024 /\ contentStart e = 1536
    /\ contentSize e = 11 /\ paddingSize e = 501.
Proof.
  destruct (proj2 (layout_offsets example_entries example_stream
                     ltac:(vm_compute; reflexivity)) 1%nat
              {| name := js "000001.png"; source := SourceFile "/tmp/shot-a.png" 11;
                 mtimeSeconds := 1700000000 |} eq_refl)
    as (e & He & H1 & _ & _ & H4 & H5 & _ & H7 & _ & H9).
  exists e. split; [exact He|]. split; [exact H1|].
  split; [rewrite H7; reflexivity|]. split; [rewrite H9, H7; reflexivity|].
  split; [rewrite H4; reflexivity | rewrite H5; reflexivity].
Defined.

(** ** [seek] against the layout *)

Lemma seek_from_in pre e post : forall i0 c0 k,
  Forall (fun x => 0 <= totalSize x) pre ->
  0 <= k < totalSize e ->
  seek_from (pre ++ e :: post) i0 c0 (c0 + sum_Z (map totalSize pre) + k)
  = state_in_entry (i0 + length pre) e k.
Proof.
  induction pre as [|x pre IH]; intros i0 c0 k Hpre Hk.
  - cbn [app seek_from map sum_Z length]. unfold state_in_entry.
    replace (c0 + 0 + k - c0) with k by lia. rewrite Nat.add_0_r.
    destruct (Z.ltb_spec (c0 + 0 + k) (c0 + totalSize e)); [done|lia].
  - apply Forall_cons in Hpre as [Hx Hpre].
    assert (0 <= sum_Z (map totalSize pre)) as Hsum.
    { clear -Hpre. induction Hpre as [|y l Hy _ IH]; cbn; lia. }
    cbn [app seek_from map sum_Z length].
    destruct (Z.ltb_spec (c0 + (totalSize x + sum_Z (map totalSize pre)) + k)
                (c0 + totalSize x)); [lia|].
    replace (c0 + (totalSize x + sum_Z (map totalSize pre)) + k)
      with (c0 + totalSize x + sum_Z (map totalSize pre) + k) by lia.
    rewrite IH by done. f_equal. lia.
Qed.

Lemma seek_from_past l : forall i0 c0 k,
  Forall (fun x => 0 <= totalSize x) l -> 0 <= k ->
  seek_from l i0 c0 (c0 + sum_Z (map totalSize l) + k)
  = {| phase := eof; entryIndex := (i0 + length l)%nat; phaseOffset := k;
       fileHandle := None |}.
Proof.
  induction l as [|x l IH]; intros i0 c0 k Hl Hk.
  - cbn. f_equal; lia.
  - apply Forall_cons in Hl as [Hx Hl].
    assert (0 <= sum_Z (map totalSize l)) as Hsum.
    { clear -Hl. induction Hl as [|y l Hy _ IH]; cbn; lia. }
    cbn [seek_from map sum_Z length].
    destruct (Z.ltb_spec (c0 + (totalSize x + sum_Z (map totalSize l)) + k)
                (c0 + totalSize x)); [lia|].
    replace (c0 + (totalSize x + sum_Z (map totalSize l)) + k)
      with (c0 + totalSize x + sum_Z (map totalSize l) + k) by lia.
    rewrite IH by done. f_equal. lia.
Qed.

Lemma layout_totals_nonneg entries : forall cursor l cursor',
  layout_entries entries cursor = Ok (l, cursor') ->
  Forall (fun entry => 0 <= source_size (source entry)) entries ->
  Forall (fun e => 0 <= contentSize e /\ 0 <= paddingSize e
                   /\ totalSize e = 512 + contentSize e + paddingSize e) l
  /\ cursor' = cursor + sum_Z (map totalSize l).
Proof.
  induction entries as [|entry0 rest IH]; intros cursor l cursor'; cbn [layout_entries].
  - intros [= <- <-] _. split; [constructor|cbn; lia].
  - destruct (isSafeTarName (name entry0)); cbn [negb]; [|done].
    destruct (layout_entries rest _) as [[l' c']|] eqn:Hrest; [|done].
    intros [= <- <-] [H0 Hrest']%Forall_cons. destruct (IH _ _ _ Hrest Hrest') as [Hall Hc].
    split; [|cbn; lia]. constructor; [|done]. cbn.
    pose proof (computePaddingSize_nonneg (source_size (source entry0))). lia.
Qed.

(** X3.  [seek] inverts the layout.  For a stream built from entries of
    non-negative sizes, seeking to [k] bytes past the recorded header start
    of entry [i] (with [k] inside the entry) gives the cursor on entry [i]:
    in the header at offset [k] if [k < 512], in the content at offset
    [k - 512] if that is inside the content, in the padding otherwise; and
    seeking to [k >= 0] bytes past the last entry gives the end-marker
    cursor at offset [k].  No handle is open after a seek. *)
Theorem seek_inverts_layout entries t :
  TarStream_new entries = Ok t ->
  Forall (fun entry => 0 <= source_size (source entry)) entries ->
  (forall i e k,
     layout t !! i = Some e -> 0 <= k < totalSize e ->
     seek t (headerStart e + k) = state_in_entry i e k)
  /\ (forall k, 0 <= k ->
        seek t (getSizeBytes t - 1024 + k)
        = {| phase := eof; entryIndex := length (layout t); phaseOffset := k;
             fileHandle := None |}).
Proof.
  unfold TarStream_new. destruct (layout_entries entries 0) as [[l c]|] eqn:H; [|done].
  intros [= <-] Hsizes. cbn [layout getSizeBytes totalSizeBytes]. unfold seek. cbn [layout].
  destruct (layout_totals_nonneg entries 0 l c H Hsizes) as [Hall Hc].
  assert (Forall (fun x => 0 <= totalSize x) l) as Htot
      by (eapply Forall_impl; [exact Hall|]; intros x (? & ? & ?); lia).
  split.
  - intros i e k He Hk.
    destruct (layout_entries_offsets entries 0 l c H) as [Hlen Hoff].
    assert (i < length entries)%nat as Hi by (rewrite <- Hlen; by eapply lookup_lt_Some).
    destruct (lookup_lt_is_Some_2 entries i Hi) as [entry Hentry].
    destruct (Hoff i entry Hentry) as (e' & He' & _ & _ & _ & _ & _ & _ & _ & Hstart & _).
    rewrite He in He'. injection He' as <-.
    rewrite Hstart.
    rewrite <- (take_drop_middle l i e He) at 1.
    rewrite seek_from_in; [|by apply Forall_take|done].
    rewrite length_take, Nat.min_l; [done|]. apply lookup_lt_Some in He. lia.
  - intros k Hk. replace (c + 1024 - 1024 + k) with (0 + sum_Z (map totalSize l) + k) by lia.
    by rewrite seek_from_past.
Qed.

Lemma seek_inverts_layout_witness :
  seek example_stream (1024 + 512 + 10)
  = {| phase := entry_content; entryIndex := 1; phaseOffset := 10; fileHandle := None |}.
Proof.
  pose proof (proj1 (seek_inverts_layout example_entries example_stream
                       ltac:(vm_compute; reflexivity)
                       ltac:(repeat constructor; vm_compute; discriminate))) as H.
  destruct (layout example_stream !! 1%nat) as [e|] eqn:He; [|vm_compute in He; discriminate].
  specialize (H 1%nat e 522 He).
  vm_compute in He. injection He as <-.
  exact (H ltac:(vm_compute; split; [discriminate|reflexivity])).
Defined.

(** ** Where the entries are in the produced bytes *)

Lemma segment_middle {A} (a m b : list A) s n :
  s = length a -> n = length m -> take n (drop s (a ++ m ++ b)) = m.
Proof. intros -> ->. by rewrite drop_app_length, take_app_length. Qed.

Lemma entries_bytes_length fs l :
  Forall (wf_layout_entry fs) l ->
  Z.of_nat (length (concat (map (entry_bytes fs) l))) = sum_Z (map totalSize l).
Proof.
  induction 1 as [|e l He _ IH]; [done|].
  cbn [map concat sum_Z]. rewrite length_app, <- IH.
  pose proof (entry_bytes_length fs e He). lia.
Qed.

(** X4.  The bytes of a full run, entry by entry.  For a valid entry list,
    the 512 bytes at the recorded header start of an entry are its header,
    the [contentSize] bytes at its content start are its content (the
    buffer, or the first [sizeBytes] bytes of the file), and the bytes from
    there to the end of the entry are the zero padding. *)
Theorem archive_structure fs entries t c fuel :
  TarStream_new entries = Ok t -> entries_readable fs entries = true ->
  js_ge c (js_of_Z 1) = true -> (stream_fuel t <= fuel)%nat ->
  exists full,
    iterateChunks fuel t fs (js_of_Z 0) c = Some (full, Returned)
    /\ forall i e,
         layout t !! i = Some e ->
         subarray (concat full) (headerStart e) (headerStart e + 512) = header e
         /\ subarray (concat full) (contentStart e) (contentStart e + contentSize e)
            = content_bytes fs (l_source e)
         /\ subarray (concat full) (contentStart e + contentSize e)
              (headerStart e + totalSize e) = zeros (paddingSize e).
Proof.
  intros Hnew Hread Hc Hfuel.
  destruct (iterateChunks_full fs entries t c fuel Hnew Hread Hc Hfuel)
    as (full & Hrun & Hcat & Hlen).
  exists full. split; [done|]. intros i e He. rewrite Hcat.
  pose proof (TarStream_new_wf fs entries t Hnew Hread) as [Hwf Htot].
  unfold TarStream_new in Hnew.
  destruct (layout_entries entries 0) as [[l cur]|] eqn:Hl; [|done].
  injection Hnew as <-. cbn [layout totalSizeBytes getSizeBytes] in *.
  destruct (layout_entries_offsets entries 0 l cur Hl) as [Hlen' Hoff].
  assert (i < length entries)%nat as Hi by (rewrite <- Hlen'; by eapply lookup_lt_Some).
  destruct (lookup_lt_is_Some_2 entries i Hi) as [entry Hentry].
  destruct (Hoff i entry Hentry) as (e' & He' & _ & _ & _ & _ & _ & _ & _ & Hstart & Hcs).
  rewrite He in He'. injection He' as <-.
  pose proof (Forall_lookup_1 _ _ _ _ Hwf He) as Hwfe.
  destruct Hwfe as (Hh & Hsize & Hp & Htotal & _).
  set (before := concat (map (entry_bytes fs) (take i l))).
  assert (Z.of_nat (length before) = headerStart e) as Hbefore.
  { subst before. rewrite entries_bytes_length by by apply Forall_take. lia. }
  assert (archive_bytes fs {| layout := l; totalSizeBytes := cur + 1024 |}
          = before ++ header e ++ content_bytes fs (l_source e) ++ zeros (paddingSize e)
            ++ archive_from fs (drop (S i) l)) as Harch.
  { unfold archive_bytes. cbn [layout]. rewrite <- (take_drop_middle l i e He) at 1.
    unfold archive_from at 1. rewrite map_app, concat_app. cbn [map concat].
    unfold entry_bytes at 2. rewrite <- !app_assoc. done. }
  rewrite Harch.
  assert (Z.of_nat (length (before ++ header e ++ content_bytes fs (l_source e)
                            ++ zeros (paddingSize e) ++ archive_from fs (drop (S i) l)))
          >= headerStart e + totalSize e) as Hlong.
  { rewrite !length_app, length_zeros. lia. }
  split; [|split].
  - rewrite subarray_segment by lia.
    replace (headerStart e + 512 - headerStart e) with 512 by lia.
    apply segment_middle; lia.
  - rewrite subarray_segment by lia.
    replace (contentStart e + contentSize e - contentStart e) with (contentSize e) by lia.
    rewrite (app_assoc before). apply segment_middle; [rewrite length_app|]; lia.
  - rewrite subarray_segment by lia.
    rewrite (app_assoc before), (app_assoc (before ++ header e)).
    apply segment_middle; [rewrite !length_app|rewrite length_zeros]; lia.
Qed.

Lemma archive_structure_witness :
  exists full,
    iterateChunks (stream_fuel example_stream) example_stream example_fs
      (js_of_Z 0) (js_of_Z 128) = Some (full, Returned)
    /\ subarray (concat full) 1536 (1536 + 11) = utf8_encode (js "hello world").
Proof.
  destruct (archive_structure example_fs example_entries example_stream (js_of_Z 128)
              (stream_fuel example_stream)
              ltac:(vm_compute; reflexivity) ltac:(vm_compute; reflexivity)
              ltac:(vm_compute; reflexivity) (le_n _)) as (full & Hrun & Hall).
  exists full. split; [exact Hrun|].
  destruct (layout example_stream !! 1%nat) as [e|] eqn:He; [|vm_compute in He; discriminate].
  destruct (Hall 1%nat e He) as (_ & Hcontent & _).
  vm_compute in He. injection He as <-. exact Hcontent.
Defined.

(** ** Chunk boundaries *)

Lemma Math_min_inject c r : Math_min (js_of_Z c) (js_of_Z r) = js_of_Z (Z.min c r).
Proof.
  unfold Math_min, js_of_Z. rewrite Qle_bool_inject.
  destruct (Z.leb_spec c r); f_equal; f_equal; lia.
Qed.

Section ChunkSizes.

Context (fs : filesystem) (t : TarStream).
Hypothesis Hwf : wf_stream fs t.

Lemma chunk_loop_sizes fuel inner c : forall st position,
  1 <= c -> wf_state t st ->
  Z.of_nat (length (rest_bytes fs t st)) = totalSizeBytes t - position ->
  (length (rest_bytes fs t st) < fuel)%nat ->
  (3 * length (rest_bytes fs t st) + 2 < inner)%nat ->
  exists chunks,
    chunk_loop fuel inner t fs st position (js_of_Z c) = Some (chunks, Returned)
    /\ concat chunks = rest_bytes fs t st
    /\ Z.of_nat (length chunks) = (Z.of_nat (length (rest_bytes fs t st)) + c - 1) / c
    /\ forall i ch,
         chunks !! i = Some ch ->
         Z.of_nat (length ch)
         = Z.min c (Z.of_nat (length (rest_bytes fs t st)) - Z.of_nat i * c).
Proof.
  induction fuel as [|fuel IH]; intros st position Hc Hst Hlen Hfuel Hinner; [lia|].
  cbn [chunk_loop]. destruct (Z.ltb_spec position (totalSizeBytes t)) as [Hin|Hout].
  - rewrite Math_min_inject.
    set (d := Z.min c (totalSizeBytes t - position)).
    change (js_of_Z d) with (JFin (inject_Z d)). cbv iota beta. rewrite Qfloor_Z.
    set (n := Z.of_nat (length (rest_bytes fs t st))) in *.
    assert (d = Z.min c n /\ 1 <= d <= n) as [Hd Hdn] by lia.
    pose proof (pending_le_2 t st) as Hp2.
    destruct (read_parts_ok fs t Hwf inner st d 0 [] position)
      as (parts & st' & Hrun & Hcat & Hrest & Hst' & Hne); [done|lia|lia|simpl; lia|lia|].
    rewrite Hrun. cbn [app].
    destruct parts as [|p ps] eqn:Hparts; [by destruct Hne; [lia|]|].
    rewrite <- Hparts in *. clear Hparts p ps.
    assert (Z.of_nat (length (rest_bytes fs t st')) = n - d) as Hn'
        by (rewrite Hrest, length_drop; lia).
    destruct (IH st' (position + d)) as (chunks & Hloop & Hall & Hcount & Hsizes);
      [done|done|lia|lia|lia|].
    rewrite Hloop. eexists. split; [reflexivity|].
    assert (Z.of_nat (length (concat parts)) = d) as Hfirst
        by (rewrite Hcat, length_take; lia).
    split; [|split].
    + cbn [concat]. rewrite Hcat, Hall, Hrest. apply take_drop.
    + cbn [length]. rewrite Nat2Z.inj_succ, Hcount, Hn'.
      destruct (Z.eq_dec d c) as [->|Hlt].
      * replace (n - c + c - 1) with (n + c - 1 + (-1) * c) by lia.
        rewrite Z.div_add by lia. lia.
      * replace (n - d + c - 1) with (c - 1) by lia.
        rewrite Z.div_small by lia.
        apply Z.div_unique with (r := n - 1); lia.
    + intros [|i] ch Hi.
      * injection Hi as <-. rewrite Hfirst. lia.
      * cbn in Hi. rewrite (Hsizes i ch Hi), Hn'.
        destruct (Z.eq_dec d c) as [->|Hlt]; [lia|].
        exfalso. rewrite Hn' in Hcount.
        replace (n - d + c - 1) with (c - 1) in Hcount by lia.
        rewrite Z.div_small in Hcount by lia.
        destruct chunks; [by destruct i|simpl in Hcount; lia].
  - assert (rest_bytes fs t st = []) as ->
        by (destruct (rest_bytes fs t st); [done|simpl in Hlen; lia]).
    exists []. split; [done|]. split; [done|]. split.
    + cbn [length]. rewrite Z.div_small; lia.
    + intros i ch Hi. by rewrite lookup_nil in Hi.
Qed.

End ChunkSizes.

(** X7.  Chunk boundaries.  For a valid entry list, an offset
    [0 <= o <= total] and an integer chunk size [c >= 1], the run from [o]
    yields [ceil((total - o) / c)] chunks, and chunk number [i] has exactly
    [min(c, total - o - i * c)] bytes: every chunk has [c] bytes but
    possibly the last, which has the rest. *)
Theorem chunks_exact fs entries t o c fuel :
  TarStream_new entries = Ok t -> entries_readable fs entries = true ->
  0 <= o <= getSizeBytes t -> 1 <= c -> (stream_fuel t <= fuel)%nat ->
  exists chunks,
    iterateChunks fuel t fs (js_of_Z o) (js_of_Z c) = Some (chunks, Returned)
    /\ Z.of_nat (length (concat chunks)) = getSizeBytes t - o
    /\ Z.of_nat (length chunks) = (getSizeBytes t - o + c - 1) / c
    /\ forall i ch,
         chunks !! i = Some ch ->
         Z.of_nat (length ch) = Z.min c (getSizeBytes t - o - Z.of_nat i * c)
         /\ 1 <= Z.of_nat (length ch).
Proof.
  intros Hnew Hread Ho Hc Hfuel.
  pose proof (TarStream_new_wf fs entries t Hnew Hread) as Hwf.
  unfold getSizeBytes in *.
  destruct (Z.eq_dec o (totalSizeBytes t)) as [->|Hne].
  - exists []. split.
    + unfold iterateChunks. rewrite normalized_start_Z, js_ge_inject by lia.
      by rewrite Z.leb_refl.
    + split; [simpl; lia|]. split.
      * cbn [length]. rewrite Z.div_small; lia.
      * intros i ch Hi. by rewrite lookup_nil in Hi.
  - unfold iterateChunks. rewrite normalized_start_Z, js_ge_inject by lia.
    destruct (Z.leb_spec (totalSizeBytes t) o); [lia|].
    change (js_of_Z o) with (JFin (inject_Z o)). cbv iota beta zeta. rewrite !Qfloor_Z.
    assert (Math_max (js_of_Z 1) (Math_floor (js_of_Z c)) = js_of_Z c) as ->.
    { unfold js_of_Z at 2. rewrite Math_max_floor_fin, Qfloor_Z. f_equal. lia. }
    destruct (seek_ok fs t Hwf o ltac:(lia)) as [Hst Hrest].
    assert (Z.of_nat (length (rest_bytes fs t (seek t o))) = totalSizeBytes t - o) as Hlen.
    { rewrite Hrest, length_drop. destruct Hwf as [_ Htot]. lia. }
    unfold stream_fuel in Hfuel.
    destruct (chunk_loop_sizes fs t Hwf fuel fuel c (seek t o) o Hc Hst Hlen)
      as (chunks & Hrun & Hcat & Hcount & Hsizes); [lia|lia|].
    exists chunks. split; [done|]. rewrite Hcat, <- Hlen. split; [done|]. split; [done|].
    intros i ch Hi. pose proof (Hsizes i ch Hi) as Hs. split; [lia|].
    assert (Z.of_nat i < Z.of_nat (length chunks)) as Hi'
        by (apply lookup_lt_Some in Hi; lia).
    rewrite Hcount in Hi'. rewrite Hs.
    assert (Z.of_nat i * c < Z.of_nat (length (rest_bytes fs t (seek t o)))); [|lia].
    set (n := Z.of_nat (length (rest_bytes fs t (seek t o)))) in *.
    assert ((n + c - 1) / c * c <= n + c - 1)
      by (rewrite Z.mul_comm; apply Z.mul_div_le; lia).
    nia.
Qed.

Lemma chunks_exact_witness :
  exists chunks,
    iterateChunks (stream_fuel example_stream) example_stream example_fs
      (js_of_Z 100) (js_of_Z 1000) = Some (chunks, Returned)
    /\ Z.of_nat (length (concat chunks)) = getSizeBytes example_stream - 100
    /\ Z.of_nat (length chunks) = (getSizeBytes example_stream - 100 + 1000 - 1) / 1000
    /\ forall i ch,
         chunks !! i = Some ch ->
         Z.of_nat (length ch)
         = Z.min 1000 (getSizeBytes example_stream - 100 - Z.of_nat i * 1000)
         /\ 1 <= Z.of_nat (length ch).
Proof.
  apply (chunks_exact example_fs example_entries example_stream 100 1000).
  - vm_compute. reflexivity.
  - vm_compute. reflexivity.
  - vm_compute. split; discriminate.
  - lia.
  - apply le_n.
Defined.

(** ** The file handle of a cursor *)

Lemma readNext_max t fs st maxBytes :
  readNext t fs st maxBytes = readNext t fs st (Z.max 1 maxBytes).
Proof. unfold readNext. by rewrite Z.max_assoc, Z.max_id. Qed.

Ltac closed_handle := by (unfold handle_inv; cbn).

Section Handle.

Context (fs : filesystem) (t : TarStream).
Hypothesis Hwf : wf_stream fs t.

Lemma readNext_handle st maxBytes bs st' :
  wf_state t st -> handle_inv t st ->
  readNext t fs st maxBytes = Ok (bs, st') -> handle_inv t st'.
Proof.
  destruct st as [ph i off fh]. intros [Hoff Hph] Hinv. cbn in Hoff, Hph.
  assert (ph <> entry_content -> fh = None) as Hclosed.
  { intros Hne. unfold handle_inv in Hinv. cbn in Hinv.
    destruct fh as [h|]; [|done]. by destruct Hinv as [-> _]. }
  unfold readNext. cbn [phase entryIndex].
  destruct ph.
  - destruct Hph as ([e He] & Ho & ->). rewrite He. unfold readNext_header.
    cbn [phaseOffset entryIndex fileHandle].
    destruct (_ <=? _); intros [= <- <-]; closed_handle.
  - destruct Hph as (e & He & Ho & Hfh). rewrite He. unfold readNext_content.
    cbn [phaseOffset entryIndex fileHandle].
    destruct (_ <=? 0); [intros [= <- <-]; closed_handle|].
    destruct (l_source e) as [buffer|path sz] eqn:Hs.
    + assert (fh = None) as ->.
      { destruct fh as [h|]; [|done]. by destruct (Hfh h eq_refl). }
      destruct (_ <=? _); intros [= <- <-]; closed_handle.
    + unfold ensureFileHandle. cbn [fileHandle].
      assert (match fh with
              | Some h => Ok h
              | None => match fs !! path with
                        | Some _ => Ok path
                        | None => Throw (OpenFailed path)
                        end
              end = (Ok path : result tar_error string)
              \/ exists e', match fh with
                            | Some h => Ok h
                            | None => match fs !! path with
                                      | Some _ => Ok path
                                      | None => Throw (OpenFailed path)
                                      end
                            end = (Throw e' : result tar_error string)) as [-> | [e' ->]].
      { destruct fh as [h|].
        - left. destruct (Hfh h eq_refl) as [sz' [= -> _]]. done.
        - destruct (fs !! path); [by left|right; by eauto]. }
      2: done.
      destruct (fs !! path) as [content|]; [|done].
      destruct (_ <=? 0); [intros [= <- <-]; closed_handle|].
      destruct (_ <=? _); intros [= <- <-]; [exact I|].
      unfold handle_inv. cbn. split; [done|]. by eauto.
  - destruct Hph as (e & He & Ho). rewrite He. unfold readNext_padding, next_entry.
    cbn [phaseOffset entryIndex fileHandle]. rewrite Hclosed by done.
    destruct (_ <=? 0); [intros [= <- <-]; closed_handle|].
    destruct (_ <=? _); intros [= <- <-]; closed_handle.
  - unfold readNext_eof. cbn [phaseOffset entryIndex fileHandle]. rewrite Hclosed by done.
    destruct (_ <=? 0); intros [= <- <-]; closed_handle.
Qed.

Lemma run_reads_inv wants : forall st,
  wf_state t st -> handle_inv t st ->
  exists st', run_reads t fs st wants = Ok st' /\ wf_state t st' /\ handle_inv t st'.
Proof.
  induction wants as [|m wants IH]; intros st Hst Hinv; [by eauto|].
  cbn [run_reads]. rewrite readNext_max.
  destruct (readNext_ok fs t Hwf st (Z.max 1 m) Hst ltac:(lia))
    as (bs & st' & Hrun & _ & _ & Hst' & _).
  rewrite Hrun. apply IH; [done|]. exact (readNext_handle st (Z.max 1 m) bs st' Hst Hinv Hrun).
Qed.

End Handle.

Lemma seek_from_closed l : forall i c o, fileHandle (seek_from l i c o) = None.
Proof.
  induction l as [|e l IH]; intros i c o; cbn [seek_from]; [done|].
  destruct (o <? _); [|apply IH].
  destruct (_ <? 512); [done|]. by destruct (_ <? _).
Qed.

(** X8.  The file handle of a cursor.  On a valid entry list, after any
    sequence of [readNext] calls (whatever their [maxBytes]) from a [seek]
    inside the archive, no call has thrown, and the cursor holds an open
    handle only if it stands inside the content of a file-backed entry, the
    handle being on that entry's file: leaving the content of an entry
    closes its handle. *)
Theorem handle_closed_outside_content fs entries t o wants :
  TarStream_new entries = Ok t -> entries_readable fs entries = true ->
  0 <= o <= getSizeBytes t ->
  exists st',
    run_reads t fs (seek t o) wants = Ok st'
    /\ handle_inv t st'
    /\ (phase st' <> entry_content -> fileHandle st' = None).
Proof.
  intros Hnew Hread Ho.
  pose proof (TarStream_new_wf fs entries t Hnew Hread) as Hwf.
  destruct (seek_ok fs t Hwf o Ho) as [Hst _].
  assert (handle_inv t (seek t o)) as Hinv.
  { unfold handle_inv, seek. by rewrite seek_from_closed. }
  destruct (run_reads_inv fs t Hwf wants (seek t o) Hst Hinv) as (st' & Hrun & _ & Hinv').
  exists st'. split; [done|]. split; [done|].
  intros Hph. unfold handle_inv in Hinv'. destruct (fileHandle st'); [|done].
  by destruct Hinv' as [? _].
Qed.

Lemma handle_closed_outside_content_witness :
  exists st',
    run_reads example_stream example_fs (seek example_stream 1536) [4; 100; 0; 600]
    = Ok st'
    /\ handle_inv example_stream st'
    /\ (phase st' <> entry_content -> fileHandle st' = None).
Proof.
  apply (handle_closed_outside_content example_fs example_entries example_stream 1536).
  - vm_compute. reflexivity.
  - vm_compute. reflexivity.
  - vm_compute. split; discriminate.
Defined.

(** ** The fields of a header block *)

Ltac same_pieces :=
  repeat first
    [ reflexivity
    | apply (f_equal2 (@app byte))
    | apply (f_equal2 (@cons byte))
    | apply (f_equal2 (@replicate byte)); [lia|reflexivity] ].

Lemma inserts_zero_tail (pre k : list byte) (n g i n' : nat) :
  i = (length pre + g)%nat -> n = (g + length k + n')%nat ->
  list_inserts i k (pre ++ replicate n Init.Byte.x00)
  = (pre ++ replicate g Init.Byte.x00 ++ k) ++ replicate n' Init.Byte.x00.
Proof.
  intros -> ->.
  rewrite inserts_take_drop by (rewrite length_app, length_replicate; lia).
  rewrite take_app, drop_app, take_ge, drop_ge by lia.
  rewrite take_replicate, drop_replicate, app_nil_l, <- !app_assoc.
  same_pieces.
Qed.

Lemma inserts_middle (a m b k : list byte) (i : nat) :
  i = length a -> length k = length m ->
  list_inserts i k (a ++ m ++ b) = a ++ k ++ b.
Proof.
  intros -> Hlen.
  rewrite inserts_take_drop by (rewrite !length_app; lia).
  rewrite take_app_length, Hlen. do 2 f_equal.
  rewrite drop_app, drop_ge, app_nil_l by lia.
  replace (length a + length m - length a)%nat with (length m) by lia.
  by rewrite drop_app_length.
Qed.

Lemma octal_field_bytes width value :
  0 <= value < 8 ^ (width - 1) -> 2 <= width ->
  field_bytes width (padStart (toString8 (Z.max 0 value)) (Z.max 0 (width - 1)) ++ [0%N])
  = octal_field (width - 1) value
  /\ length (octal_field (width - 1) value) = Z.to_nat width.
Proof.
  intros Hv Hw. rewrite !Z.max_r by lia. unfold octal_field.
  assert (length (padStart (toString8 value) (width - 1)) = Z.to_nat (width - 1)) as Hlen.
  { apply length_padStart. apply toString8_length_le; [|lia].
    rewrite Z2Nat.id by lia. done. }
  split.
  - rewrite field_bytes_ascii.
    + rewrite take_ge by (rewrite length_app, Hlen; cbn [length]; lia).
      by rewrite map_app.
    + apply Forall_app. split.
      * apply digits_ascii, padStart_digits, toString8_digits. lia.
      * constructor; [unfold is_ascii; lia|constructor].
  - rewrite length_app, length_map, Hlen. cbn [length]. lia.
Qed.

Ltac header_lengths :=
  rewrite ?length_app, ?length_replicate; cbn [length];
  repeat match goal with H : length _ = _ |- _ => rewrite H end; lia.

Lemma header_before_checksum_layout name size mtime :
  byteLength name <= 100 -> 0 <= size < 8 ^ 11 -> mtime < 8 ^ 11 ->
  header_before_checksum name size mtime
  = (utf8_encode name ++ zeros (100 - byteLength name)
       ++ octal_field 7 420 ++ octal_field 7 0 ++ octal_field 7 0
       ++ octal_field 11 size ++ octal_field 11 (Z.max 0 mtime))
    ++ replicate 8 Init.Byte.x20
    ++ ([Init.Byte.x30] ++ zeros 100 ++ utf8_encode (js "ustar") ++ [Init.Byte.x00]
          ++ utf8_encode (js "00") ++ zeros 247).
Proof.
  intros Hname Hsize Hmtime. unfold byteLength in Hname.
  unfold header_before_checksum, writeOctal, fill. rewrite !writeString_inserts.
  destruct (octal_field_bytes 8 420 ltac:(lia) ltac:(lia)) as [-> H1].
  destruct (octal_field_bytes 8 0 ltac:(lia) ltac:(lia)) as [-> H2].
  destruct (octal_field_bytes 12 size ltac:(lia) ltac:(lia)) as [-> H4].
  destruct (octal_field_bytes 12 (Z.max 0 mtime) ltac:(lia) ltac:(lia)) as [-> H5].
  change (8 - 1) with 7 in *. change (12 - 1) with 11 in *.
  assert (field_bytes 100 name = utf8_encode name) as ->.
  { unfold field_bytes. apply take_ge. lia. }
  change (field_bytes 6 (js "ustar" ++ [0%N]))
    with (utf8_encode (js "ustar") ++ [Init.Byte.x00]).
  change (field_bytes 2 (js "00")) with (utf8_encode (js "00")).
  unfold byteLength, zeros.
  generalize dependent (octal_field 7 420). intros f1 H1.
  generalize dependent (octal_field 7 0). intros f2 H2.
  generalize dependent (octal_field 11 size). intros f4 H4.
  generalize dependent (octal_field 11 (Z.max 0 mtime)). intros f5 H5.
  generalize dependent (utf8_encode name). intros f0 H0.
  change (Z.to_nat 8) with 8%nat in *. change (Z.to_nat 12) with 12%nat in *.
  rewrite (app_assoc (utf8_encode (js "ustar")) [Init.Byte.x00]).
  set (magic := utf8_encode (js "ustar") ++ [Init.Byte.x00]).
  set (version := utf8_encode (js "00")).
  assert (length magic = 6%nat) as Hmagic by done.
  assert (length version = 2%nat) as Hversion by done.
  clearbody magic version.
  set (spaces := replicate (Z.to_nat (156 - 148)) Init.Byte.x20).
  assert (length spaces = 8%nat) as Hspaces by done.
  change (replicate 8 Init.Byte.x20) with spaces. clearbody spaces.
  match goal with
  | |- context [<[156%nat := ?x]> ?l] =>
      change (<[156%nat := x]> l) with (list_inserts 156 [x] l)
  end.
  change (replicate (Z.to_nat 512) Init.Byte.x00)
    with ([] ++ replicate 512 Init.Byte.x00).
  rewrite (inserts_zero_tail [] f0 _ 0 _ (512 - length f0)) by header_lengths.
  rewrite (inserts_zero_tail _ f1 _ (100 - length f0) _ 404) by header_lengths.
  rewrite (inserts_zero_tail _ f2 _ 0 _ 396) by header_lengths.
  rewrite (inserts_zero_tail _ f2 _ 0 _ 388) by header_lengths.
  rewrite (inserts_zero_tail _ f4 _ 0 _ 376) by header_lengths.
  rewrite (inserts_zero_tail _ f5 _ 0 _ 364) by header_lengths.
  rewrite (inserts_zero_tail _ spaces _ 0 _ 356) by header_lengths.
  rewrite (inserts_zero_tail _ [Init.Byte.x30] _ 0 _ 355) by header_lengths.
  rewrite (inserts_zero_tail _ magic _ 100 _ 249) by header_lengths.
  rewrite (inserts_zero_tail _ version _ 0 _ 247) by header_lengths.
  change (replicate 0 Init.Byte.x00) with (@nil byte).
  rewrite <- !app_assoc. cbn [app].
  rewrite ?length_app, ?length_replicate, ?Hmagic, ?Hversion, ?Hspaces, ?H1, ?H2, ?H4, ?H5.
  cbn [length]. same_pieces.
Qed.

Lemma checksum_written name size mtime :
  let b := header_before_checksum name size mtime in
  let oct := padStart (toString8 (computeTarChecksum b)) 6 in
  buildUstarHeader name size mtime
  = list_inserts 148 (map byte_of_N oct ++ [Init.Byte.x00; Init.Byte.x20]) b
  /\ length oct = 6%nat.
Proof.
  intros b oct.
  assert (length b = 512%nat) as Hb by apply length_header_before_checksum.
  assert (0 <= computeTarChecksum b < 8 ^ 6) as Hv0.
  { pose proof (computeTarChecksum_bound b) as H. rewrite Hb in H. lia. }
  assert (length oct = 6%nat) as Hlen.
  { subst oct. rewrite length_padStart; [done|]. change (Z.to_nat 6) with 6%nat.
    apply (toString8_length_le _ 6); [change (Z.of_nat 6) with 6; lia|lia]. }
  split; [|done].
  change (buildUstarHeader name size mtime) with (writeChecksum b (computeTarChecksum b)).
  unfold writeChecksum. rewrite Z.max_r by lia. fold oct.
  rewrite writeString_inserts, field_bytes_ascii
    by (apply digits_ascii, padStart_digits, toString8_digits; lia).
  rewrite take_ge by (rewrite Hlen; done).
  change (Z.to_nat 148) with 148%nat.
  rewrite <- insert_pair_inserts. rewrite length_map, Hlen. done.
Qed.

(** X5.  The layout of a header block.  For a name of at most 100 bytes, a
    size below 8^11 and a time below 8^11, [buildUstarHeader] returns
    exactly: the name, NUL-padded to 100 bytes; mode 0000644, uid and gid
    0000000, each with a NUL; the size and the time (negative times as 0) as
    11 octal digits and a NUL; the sum of the 512 bytes of the block taken
    with its checksum field blanked to spaces, as 6 octal digits, a NUL and
    a space; the type flag '0';
    100 NULs; "ustar" and a NUL, "00"; and 247 NULs. *)
Theorem header_layout name size mtime :
  byteLength name <= 100 -> 0 <= size < 8 ^ 11 -> mtime < 8 ^ 11 ->
  let h := buildUstarHeader name size mtime in
  let checksum := byte_sum (blank_checksum_field h) in
  h = (utf8_encode name ++ zeros (100 - byteLength name)
         ++ octal_field 7 420 ++ octal_field 7 0 ++ octal_field 7 0
         ++ octal_field 11 size ++ octal_field 11 (Z.max 0 mtime))
      ++ (map byte_of_N (padStart (toString8 checksum) 6)
            ++ [Init.Byte.x00; Init.Byte.x20])
      ++ ([Init.Byte.x30] ++ zeros 100 ++ utf8_encode (js "ustar") ++ [Init.Byte.x00]
            ++ utf8_encode (js "00") ++ zeros 247).
Proof.
  intros Hname Hsize Hmtime h checksum. subst checksum h.
  rewrite <- fill_blank_checksum_field, <- computeTarChecksum_sum
    by apply length_buildUstarHeader.
  destruct (checksum_written name size mtime) as [Hh Hoct].
  pose proof (header_before_checksum_layout name size mtime Hname Hsize Hmtime) as Hb.
  pose proof (length_header_before_checksum name size mtime) as Hlen.
  set (b := header_before_checksum name size mtime) in *.
  set (front := utf8_encode name ++ _) in *.
  set (back := [Init.Byte.x30] ++ _) in *.
  assert (length front = 148%nat) as Hfront.
  { apply (f_equal length) in Hb. rewrite Hlen, !length_app, length_replicate in Hb.
    assert (length back = 356%nat); [|lia]. subst back.
    rewrite !length_app, !length_zeros. done. }
  assert (fill (buildUstarHeader name size mtime) Init.Byte.x20 148 156 = b) as Hblank.
  { rewrite Hh. unfold fill.
    change (Z.to_nat 148) with 148%nat. change (Z.to_nat (156 - 148)) with 8%nat.
    rewrite inserts_inserts_same.
    - rewrite Hb. apply inserts_middle; [done|]. by rewrite !length_replicate.
    - by rewrite length_replicate, length_app, length_map, Hoct.
    - rewrite length_replicate. lia. }
  rewrite Hblank.
  set (oct := padStart (toString8 (computeTarChecksum b)) 6) in *. clearbody oct.
  rewrite Hh, Hb. apply inserts_middle; [done|].
  by rewrite length_app, length_map, Hoct, length_replicate.
Qed.

Lemma header_layout_witness :
  let h := buildUstarHeader (js "manifest.json") 17 1700000000 in
  let checksum := byte_sum (blank_checksum_field h) in
  h = (utf8_encode (js "manifest.json") ++ zeros (100 - byteLength (js "manifest.json"))
         ++ octal_field 7 420 ++ octal_field 7 0 ++ octal_field 7 0
         ++ octal_field 11 17 ++ octal_field 11 (Z.max 0 1700000000))
      ++ (map byte_of_N (padStart (toString8 checksum) 6)
            ++ [Init.Byte.x00; Init.Byte.x20])
      ++ ([Init.Byte.x30] ++ zeros 100 ++ utf8_encode (js "ustar") ++ [Init.Byte.x00]
            ++ utf8_encode (js "00") ++ zeros 247).
Proof.
  apply (header_layout (js "manifest.json") 17 1700000000).
  - vm_compute. discriminate.
  - lia.
  - lia.
Defined.

Lemma header_name_field name size mtime :
  byteLength name <= 100 ->
  subarray (buildUstarHeader name size mtime) 0 100
  = utf8_encode name ++ zeros (100 - byteLength name).
Proof.
  intros Hname. unfold byteLength in *.
  rewrite subarray_segment by (rewrite ?length_buildUstarHeader; lia).
  change (Z.to_nat (100 - 0)) with 100%nat. change (Z.to_nat 0) with 0%nat.
  unfold buildUstarHeader, writeChecksum.
  rewrite !segment_insert_after by lia.
  rewrite !writeString_inserts.
  change (Z.to_nat 148) with 148%nat. change (Z.to_nat 263) with 263%nat.
  change (Z.to_nat 257) with 257%nat.
  rewrite !segment_inserts_after by lia.
  rewrite segment_insert_after by lia.
  unfold fill, writeOctal. rewrite !writeString_inserts.
  change (Z.to_nat 148) with 148%nat. change (Z.to_nat 136) with 136%nat.
  change (Z.to_nat 124) with 124%nat. change (Z.to_nat 116) with 116%nat.
  change (Z.to_nat 108) with 108%nat. change (Z.to_nat 100) with 100%nat.
  rewrite !segment_inserts_after by lia.
  assert (field_bytes 100 name = utf8_encode name) as ->.
  { unfold field_bytes. apply take_ge. lia. }
  change (Z.to_nat 0) with 0%nat. unfold zeros.
  change (replicate (Z.to_nat 512) Init.Byte.x00)
    with ([] ++ replicate 512 Init.Byte.x00).
  rewrite (inserts_zero_tail [] _ _ 0 _ (512 - length (utf8_encode name)))
    by (cbn [length]; lia).
  cbn [replicate app]. rewrite drop_0, take_app, take_ge, take_replicate by lia.
  same_pieces.
Qed.

Lemma indexOf_absent s r c :
  includes s c = false ->
  indexOf (s ++ r) c = (fun i => (length s + i)%nat) <$> indexOf r c.
Proof.
  unfold includes. induction s as [|x s IH]; intros Hs; cbn [app indexOf length].
  - by destruct (indexOf r c).
  - cbn [existsb] in Hs. apply orb_false_elim in Hs as [Hx Hs].
    rewrite N.eqb_sym, Hx, (IH Hs). by destruct (indexOf r c).
Qed.

(** X6.  A name is read back from its header.  For an ASCII name without
    NUL of at most 100 characters, and any size and time, the test suite's
    [parseTarHeader] reads the trimmed name back from the block that
    [buildUstarHeader] builds. *)
Theorem header_name_roundtrip name size mtime :
  Forall is_ascii name -> includes name 0 = false -> (length name <= 100)%nat ->
  parseTarHeader_name (buildUstarHeader name size mtime) = Some (trim name).
Proof.
  intros Hascii Hnul Hlen.
  assert (byteLength name = Z.of_nat (length name)) as Hbytes.
  { unfold byteLength. by rewrite utf8_encode_ascii, length_map. }
  unfold parseTarHeader_name.
  rewrite header_name_field, Hbytes, utf8_encode_ascii by (rewrite ?Hbytes; lia || done).
  unfold zeros.
  replace (replicate (Z.to_nat (100 - Z.of_nat (length name))) Init.Byte.x00)
    with (map byte_of_N (replicate (100 - length name) 0%N)).
  2:{ replace (Z.to_nat (100 - Z.of_nat (length name))) with (100 - length name)%nat by lia.
      induction (100 - length name)%nat as [|k IH]; [done|]. cbn. by rewrite <- IH. }
  rewrite <- map_app, ascii_decode_encode.
  2:{ apply Forall_app. split; [done|]. apply Forall_replicate. unfold is_ascii. lia. }
  rewrite indexOf_absent by done.
  destruct (100 - length name)%nat as [|k]; cbn [replicate indexOf fmap option_fmap option_map].
  - by rewrite app_nil_r.
  - cbn. by rewrite Nat.add_0_r, take_app_length.
Qed.

Lemma header_name_roundtrip_witness :
  parseTarHeader_name (buildUstarHeader (js " 000001.png ") 5 0) = Some (trim (js " 000001.png ")).
Proof.
  apply (header_name_roundtrip (js " 000001.png ") 5 0).
  - unfold is_ascii. repeat constructor.
  - vm_compute. reflexivity.
  - vm_compute. lia.
Defined.

(** ** The retries of one chunk *)

Lemma retry_log_step r attempt :
  retry_log (S (S r)) attempt
  = [LogRetry attempt maxAttempts (backoff attempt); Sleep (backoff attempt)]
    ++ retry_log (S r) (attempt + 1).
Proof. reflexivity. Qed.

Lemma slept_app l1 l2 : slept (l1 ++ l2) = slept l1 + slept l2.
Proof.
  induction l1 as [|e l1 IH]; [done|]. destruct e; cbn [app slept]; rewrite ?IH; lia.
Qed.

Lemma slept_retry_log k :
  (k <= 4)%nat -> slept (retry_log (S k) 1) <= 15000.
Proof.
  intros Hk. do 5 (destruct k as [|k]; [vm_compute; discriminate|]). lia.
Qed.

Section RetryTrace.

Context {Srv : Type} (client : EnriProxyClient Srv).

Lemma attempts_trace uploadId offset chunk timeoutMs :
  forall remaining attempt w log w' log' r,
    attempt + Z.of_nat remaining = maxAttempts + 1 ->
    attempts client remaining uploadId offset chunk timeoutMs attempt w log = ((w', log'), r) ->
    exists k, (k <= remaining - 1)%nat
      /\ (log' = log ++ retry_log (S k) attempt
          \/ exists actual, actual <> offset /\ r = Ok actual
               /\ log' = log ++ retry_log (S k) attempt ++ [LogResync offset actual]).
Proof.
  induction remaining as [|rem IH]; intros attempt w log w' log' r Hsum Hrun.
  { cbn in Hrun. injection Hrun as <- <- <-. exists 0%nat. split; [lia|].
    left. by rewrite app_nil_r. }
  cbn [attempts] in Hrun.
  destruct (appendUploadChunk client w uploadId offset chunk timeoutMs) as [w1 [n|error]].
  { injection Hrun as <- <- <-. exists 0%nat. split; [lia|]. left. by rewrite app_nil_r. }
  assert (forall w2,
    (if match error with
        | HttpError status => is_client_error_status status
        | _ => false
        end
     then ((w2, log), Throw error)
     else if attempt =? maxAttempts then ((w2, log), Throw error)
     else attempts client rem uploadId offset chunk timeoutMs (attempt + 1) w2
            (log ++ [LogRetry attempt maxAttempts (Z.min (1000 * 2 ^ (attempt - 1)) 10000);
                     Sleep (Z.min (1000 * 2 ^ (attempt - 1)) 10000)]))
    = ((w', log'), r) ->
    exists k, (k <= S rem - 1)%nat
      /\ (log' = log ++ retry_log (S k) attempt
          \/ exists actual, actual <> offset /\ r = Ok actual
               /\ log' = log ++ retry_log (S k) attempt ++ [LogResync offset actual]))
    as Hafter.
  { intros w2 Hrun'.
    destruct (match error with HttpError s => is_client_error_status s | _ => false end).
    { injection Hrun' as <- <- <-. exists 0%nat. split; [lia|]. left. by rewrite app_nil_r. }
    destruct (Z.eqb_spec attempt maxAttempts) as [Hlast|Hmore].
    { injection Hrun' as <- <- <-. exists 0%nat. split; [lia|]. left. by rewrite app_nil_r. }
    apply IH in Hrun' as (k & Hk & Hlog); [|lia].
    exists (S k). split; [unfold maxAttempts in *; lia|]. rewrite retry_log_step. unfold backoff.
    destruct Hlog as [->|(actual & Hne & -> & ->)].
    - left. by rewrite <- app_assoc.
    - right. exists actual. split; [done|]. split; [done|]. by rewrite <- !app_assoc. }
  destruct error as [status|message| | | | | |e]; try (by apply (Hafter w1 Hrun)).
  destruct (status =? 409); [|by apply (Hafter w1 Hrun)].
  destruct (getUploadOffset client w1 uploadId) as [w2 [actual|e']].
  - destruct (Z.eqb_spec actual offset) as [Heq|Hne]; cbn [negb] in Hrun.
    + by apply (Hafter w2 Hrun).
    + injection Hrun as <- <- <-. exists 0%nat. split; [lia|]. right.
      exists actual. by rewrite app_nil_l.
  - injection Hrun as <- <- <-. exists 0%nat. split; [lia|]. left. by rewrite app_nil_r.
Qed.

(** X9.  The waits of one chunk.  Whatever the server answers,
    [uploadChunkWithRetry] logs at most four retries, with the waits 1000,
    2000, 4000 and 8000 ms in this order (15 seconds at most in total), and
    after them at most one offset resync, which ends the call with the
    server's offset. *)
Theorem retry_waits_bounded uploadId offset chunk timeoutMs w log w' log' r :
  uploadChunkWithRetry client uploadId offset chunk timeoutMs w log = ((w', log'), r) ->
  exists k, (k <= 4)%nat
    /\ (log' = log ++ retry_log (S k) 1
        \/ exists actual, actual <> offset /\ r = Ok actual
             /\ log' = log ++ retry_log (S k) 1 ++ [LogResync offset actual])
    /\ slept log' <= slept log + 15000.
Proof.
  unfold uploadChunkWithRetry. intros Hrun.
  apply attempts_trace in Hrun as (k & Hk & Hlog); [|done].
  change (Z.to_nat maxAttempts - 1)%nat with 4%nat in Hk.
  exists k. split; [done|]. split; [done|].
  pose proof (slept_retry_log k Hk) as Hs.
  destruct Hlog as [->|(actual & _ & _ & ->)]; rewrite !slept_app; cbn [slept]; lia.
Qed.

(** The final [throw] of [uploadChunkWithRetry] is not reached, and the
    routine raises no error of its own. *)
Lemma attempts_raises uploadId offset chunk timeoutMs :
  forall remaining attempt w log wl e,
    attempt + Z.of_nat remaining = maxAttempts + 1 -> (1 <= remaining)%nat ->
    attempts client remaining uploadId offset chunk timeoutMs attempt w log = (wl, Throw e) ->
    exists w0 w1,
      appendUploadChunk client w0 uploadId offset chunk timeoutMs = (w1, Throw e)
      \/ getUploadOffset client w0 uploadId = (w1, Throw e).
Proof.
  induction remaining as [|rem IH]; intros attempt w log wl e Hsum Hrem Hrun; [lia|].
  cbn [attempts] in Hrun.
  destruct (appendUploadChunk client w uploadId offset chunk timeoutMs)
    as [w1 [n|error]] eqn:Happend; [done|].
  assert (forall w2,
    (if match error with
        | HttpError status => is_client_error_status status
        | _ => false
        end
     then ((w2, log), Throw error)
     else if attempt =? maxAttempts then ((w2, log), Throw error)
     else attempts client rem uploadId offset chunk timeoutMs (attempt + 1) w2
            (log ++ [LogRetry attempt maxAttempts (Z.min (1000 * 2 ^ (attempt - 1)) 10000);
                     Sleep (Z.min (1000 * 2 ^ (attempt - 1)) 10000)]))
    = (wl, Throw e) ->
    exists w0 w1,
      appendUploadChunk client w0 uploadId offset chunk timeoutMs = (w1, Throw e)
      \/ getUploadOffset client w0 uploadId = (w1, Throw e)) as Hafter.
  { intros w2 Hrun'.
    destruct (match error with HttpError s => is_client_error_status s | _ => false end).
    { injection Hrun' as <- <-. by eauto. }
    destruct (Z.eqb_spec attempt maxAttempts) as [Hlast|Hmore].
    { injection Hrun' as <- <-. by eauto. }
    apply IH in Hrun'; [done|lia|unfold maxAttempts in *; lia]. }
  destruct error as [status|message| | | | | |e0]; try (by apply (Hafter w1 Hrun)).
  destruct (status =? 409); [|by apply (Hafter w1 Hrun)].
  destruct (getUploadOffset client w1 uploadId) as [w2 [actual|e']] eqn:Hquery.
  - destruct (negb (actual =? offset)); [done|]. by apply (Hafter w2 Hrun).
  - injection Hrun as <- <-. by eauto.
Qed.

(** X10.  The errors of one chunk are the server's.  An error that
    [uploadChunkWithRetry] raises is one that an append of this chunk or an
    offset query of this upload has raised: the routine adds no error of its
    own, and its final "Upload failed after retries." is never raised. *)
Theorem retry_errors_from_client uploadId offset chunk timeoutMs w log wl e :
  uploadChunkWithRetry client uploadId offset chunk timeoutMs w log = (wl, Throw e) ->
  exists w0 w1,
    appendUploadChunk client w0 uploadId offset chunk timeoutMs = (w1, Throw e)
    \/ getUploadOffset client w0 uploadId = (w1, Throw e).
Proof.
  unfold uploadChunkWithRetry. intros Hrun.
  by apply attempts_raises in Hrun; [|done|unfold maxAttempts; lia].
Qed.

Lemma attempts_transient uploadId offset chunk timeoutMs :
  forall errors remaining attempt w log w' n,
    attempt + Z.of_nat remaining = maxAttempts + 1 ->
    (length errors < remaining)%nat ->
    fails_then_succeeds client uploadId offset chunk timeoutMs errors w w' n ->
    attempts client remaining uploadId offset chunk timeoutMs attempt w log
    = ((w', log ++ retry_log (S (length errors)) attempt), Ok n).
Proof.
  induction errors as [|e errors IH]; intros remaining attempt w log w' n Hsum Hlen Hrun;
    (destruct remaining as [|rem]; [cbn [length] in Hlen; lia|]); cbn [attempts].
  - cbn in Hrun. rewrite Hrun. cbn [retry_log]. by rewrite app_nil_r.
  - destruct Hrun as (Hretried & w1 & -> & Hrest). cbn [length] in *.
    assert ((attempt =? maxAttempts) = false) as Hmore by (apply Z.eqb_neq; lia).
    assert (attempts client rem uploadId offset chunk timeoutMs (attempt + 1) w1
              (log ++ [LogRetry attempt maxAttempts (Z.min (1000 * 2 ^ (attempt - 1)) 10000);
                       Sleep (Z.min (1000 * 2 ^ (attempt - 1)) 10000)])
            = ((w', log ++ retry_log (S (S (length errors))) attempt), Ok n)) as Hgo.
    { rewrite (IH rem (attempt + 1) w1 _ w' n); [|lia|lia|done].
      rewrite retry_log_step. unfold backoff. by rewrite <- app_assoc. }
    unfold retried in Hretried.
    destruct e as [status|message| | | | | |e0]; cbn beta iota; rewrite ?Hmore; try exact Hgo.
    apply andb_prop in Hretried as [H409 Hfatal].
    apply negb_true_iff in H409, Hfatal. rewrite H409, Hfatal. exact Hgo.
Qed.

(** X11.  Transient failures.  If the appends of a chunk fail at most four
    times, each time with an error that is retried (any error but the
    statuses 400, 401, 403, 404, 409, 410 and 413), and the next append
    succeeds, [uploadChunkWithRetry] returns the offset of that append, after
    one logged wait per failure. *)
Theorem transient_failures_recover uploadId offset chunk timeoutMs errors w log w' n :
  fails_then_succeeds client uploadId offset chunk timeoutMs errors w w' n ->
  (length errors <= 4)%nat ->
  uploadChunkWithRetry client uploadId offset chunk timeoutMs w log
  = ((w', log ++ retry_log (S (length errors)) 1), Ok n).
Proof.
  intros Hrun Hlen. unfold uploadChunkWithRetry.
  apply attempts_transient; [done| |done].
  change (Z.to_nat maxAttempts) with 5%nat. lia.
Qed.

End RetryTrace.

Lemma retry_waits_bounded_witness :
  exists k, (k <= 4)%nat
    /\ ([LogRetry 1 5 1000; Sleep 1000; LogRetry 2 5 2000; Sleep 2000] = [] ++ retry_log (S k) 1
        \/ exists actual, actual <> 0 /\ (Ok 1 : result upload_error Z) = Ok actual
             /\ [LogRetry 1 5 1000; Sleep 1000; LogRetry 2 5 2000; Sleep 2000]
                = [] ++ retry_log (S k) 1 ++ [LogResync 0 actual])
    /\ slept [LogRetry 1 5 1000; Sleep 1000; LogRetry 2 5 2000; Sleep 2000] <= slept [] + 15000.
Proof.
  apply (retry_waits_bounded flaky_client "upload-1" 0 [Init.Byte.x41] 30000 0%nat []
           3%nat _ (Ok 1)).
  vm_compute. reflexivity.
Defined.

Lemma retry_errors_from_client_witness :
  exists w0 w1,
    appendUploadChunk stuck_client w0 "upload-1" 0 [Init.Byte.x41] 30000
    = (w1, Throw (HttpError 409))
    \/ getUploadOffset stuck_client w0 "upload-1" = (w1, Throw (HttpError 409)).
Proof.
  apply (retry_errors_from_client stuck_client "upload-1" 0 [Init.Byte.x41] 30000 0%nat []
           (5%nat, retry_log 5 1)).
  vm_compute. reflexivity.
Defined.

Lemma transient_failures_recover_witness :
  uploadChunkWithRetry flaky_client "upload-1" 0 [Init.Byte.x41] 30000 0%nat []
  = ((3%nat, [] ++ retry_log 3 1), Ok 1).
Proof.
  apply (transient_failures_recover flaky_client "upload-1" 0 [Init.Byte.x41] 30000
           [HttpError 503; HttpError 503] 0%nat [] 3%nat 1).
  - cbn. split; [done|]. eexists. split; [reflexivity|].
    split; [done|]. eexists. split; reflexivity.
  - cbn. lia.
Defined.

(** ** Uploads to a server that stores what it is sent *)

Lemma chunk_ok_not_nan c :
  c <> JNaN -> chunk_ok (Math_max (js_of_Z 1) (Math_floor c)).
Proof.
  intros Hc. destruct (normalized_chunk_cases c) as [Hnan|Hok]; [|done].
  destruct c as [| |q|]; try done. cbn in Hnan. by destruct (Qle_bool _ _).
Qed.

Section Cooperative.

Context {Srv : Type} (client : EnriProxyClient Srv) (received : Srv -> list byte).
Hypothesis Hcoop : cooperative client received.

Lemma attempts_accepted rem uploadId offset chunk timeoutMs attempt w log w' n :
  appendUploadChunk client w uploadId offset chunk timeoutMs = (w', Ok n) ->
  attempts client (S rem) uploadId offset chunk timeoutMs attempt w log = ((w', log), Ok n).
Proof. intros Hrun. cbn [attempts]. by rewrite Hrun. Qed.

Lemma retry_cooperative uploadId chunk timeoutMs w log :
  exists w',
    uploadChunkWithRetry client uploadId (Z.of_nat (length (received w))) chunk timeoutMs w log
    = ((w', log), Ok (Z.of_nat (length (received w')))) 
    /\ received w' = received w ++ chunk.
Proof.
  destruct Hcoop as [_ Happend].
  destruct (Happend w uploadId chunk timeoutMs) as (w' & Hrun & Hrec).
  exists w'. split; [|done]. unfold uploadChunkWithRetry.
  change (Z.to_nat maxAttempts) with 5%nat. rewrite (attempts_accepted _ _ _ _ _ _ _ _ _ _ Hrun).
  rewrite Hrec, length_app. do 2 f_equal. lia.
Qed.

Lemma send_chunks_cooperative uploadId timeoutMs total :
  forall chunks w log madeProgress,
    Forall (fun ch : list byte => ch <> []) chunks ->
    exists w' log' madeProgress' sent rest,
      send_chunks client chunks Returned uploadId timeoutMs total
        (Z.of_nat (length (received w))) madeProgress w log
      = ((w', log'), Ok (Z.of_nat (length (received w')), madeProgress'))
      /\ chunks = sent ++ rest
      /\ received w' = received w ++ concat sent
      /\ (rest = [] \/ total <= Z.of_nat (length (received w')))
      /\ (chunks <> [] \/ madeProgress = true -> madeProgress' = true).
Proof.
  induction chunks as [|chunk chunks IH]; intros w log madeProgress Hall.
  { exists w, log, madeProgress, [], []. cbn. rewrite app_nil_r.
    do 4 (split; [by eauto|]). by intros [|]. }
  apply Forall_cons in Hall as [Hne Hall]. cbn [send_chunks].
  destruct (Z.eqb_spec (Z.of_nat (length chunk)) 0) as [E|_];
    [destruct chunk; [done|simpl in E; lia]|].
  destruct (retry_cooperative uploadId chunk timeoutMs w log) as (w1 & -> & Hrec).
  assert (Z.of_nat (length (received w1))
          = Z.of_nat (length (received w)) + Z.of_nat (length chunk)) as Hlen
    by (rewrite Hrec, length_app; lia).
  rewrite <- Hlen, Z.eqb_refl. cbn [negb].
  destruct (Z.leb_spec total (Z.of_nat (length (received w1)))) as [Hdone|Hmore].
  - exists w1, (log ++ [LogProgress (Z.of_nat (length (received w1))) total]), true,
      [chunk], chunks.
    cbn. rewrite app_nil_r. by eauto 10.
  - destruct (IH w1 (log ++ [LogProgress (Z.of_nat (length (received w1))) total]) true Hall)
      as (w' & log' & mp' & sent & rest & -> & -> & Hrec' & Hend & Hmp).
    exists w', log', mp', (chunk :: sent), rest.
    split; [done|]. split; [done|]. split; [|split; [done|]].
    + rewrite Hrec', Hrec. cbn [concat]. by rewrite <- app_assoc.
    + intros _. apply Hmp. by right.
Qed.

Lemma upload_loop_cooperative fs t uploadId chunkSize timeoutMs fuel gen_fuel w log :
  wf_stream fs t -> chunk_ok chunkSize ->
  Math_max (js_of_Z 1) (Math_floor chunkSize) = chunkSize ->
  received w `prefix_of` archive_bytes fs t ->
  (stream_fuel t <= gen_fuel)%nat -> (2 <= fuel)%nat ->
  exists w' log',
    upload_loop client fuel gen_fuel t fs uploadId chunkSize timeoutMs (getSizeBytes t)
      (Z.of_nat (length (received w))) w log
    = Some ((w', log'), Ok (getSizeBytes t))
    /\ received w' = archive_bytes fs t.
Proof.
  intros Hwf Hchunk Hnorm [tail Htail] Hgen Hfuel.
  pose proof Hwf as [_ Htotal]. unfold getSizeBytes.
  destruct fuel as [|[|fuel]]; [lia|lia|].
  cbn [upload_loop].
  destruct (Z.ltb_spec (Z.of_nat (length (received w))) (totalSizeBytes t)) as [Hlt|Hge].
  2:{ exists w, log. split; [|].
      - do 3 f_equal. rewrite Htotal, Htail, length_app in *. lia.
      - rewrite Htotal, Htail, length_app in Hge. destruct tail; [|simpl in Hge; lia].
        by rewrite Htail, app_nil_r. }
  destruct (iterateChunks_ok fs t Hwf gen_fuel (js_of_Z (Z.of_nat (length (received w))))
              chunkSize (Z.of_nat (length (received w))))
    as (chunks & -> & Hcat & Hall);
    [apply normalized_start_Z; lia|lia|by rewrite Hnorm|done|].
  rewrite Nat2Z.id, Htail, drop_app_length in Hcat.
  assert (Forall (fun ch : list byte => ch <> []) chunks) as Hne
    by (eapply Forall_impl; [exact Hall|by intros ch [? _]]).
  destruct (send_chunks_cooperative uploadId timeoutMs (totalSizeBytes t) chunks w log false Hne)
    as (w' & log' & mp' & sent & rest & -> & -> & Hrec & Hend & Hmp).
  rewrite Hmp.
  2:{ left. intros Hnil. apply app_eq_nil in Hnil as [-> ->]. cbn in Hcat. subst tail.
      rewrite Htotal, Htail, app_nil_r in Hlt. lia. }
  cbn [negb].
  rewrite concat_app in Hcat.
  assert (concat rest = []) as Hrest.
  { destruct Hend as [->|Hend]; [done|].
    rewrite Htotal, Htail, Hrec, <- Hcat, !length_app in Hend.
    destruct (concat rest); [done|simpl in Hend; lia]. }
  assert (received w' = archive_bytes fs t) as Hfull.
  { rewrite Hrec, Htail, <- Hcat, Hrest, app_nil_r. done. }
  exists w', log'. split; [|done].
  rewrite Hfull, <- Htotal, Z.ltb_irrefl. done.
Qed.

(** X12.  An upload to a storing server delivers the archive.  For valid,
    readable entries, when the session has a chunk size that is not NaN and
    the server, which already holds some first bytes of the archive (none
    for a new session), stores every chunk it is sent at its offset,
    [uploadImageSetAsMediaSetTar] returns the upload id of the session and
    the server then holds exactly the bytes of the archive. *)
Theorem cooperative_upload_delivers fs entries t timeoutMs fuel w w1 session :
  TarStream_new entries = Ok t -> entries_readable fs entries = true ->
  createUploadSession client w (computeTarSizeBytes entries) = (w1, Ok session) ->
  chunk_size_bytes session <> JNaN ->
  received w1 `prefix_of` archive_bytes fs t ->
  (stream_fuel t <= fuel)%nat ->
  exists w' log,
    uploadImageSetAsMediaSetTar client fuel fs entries timeoutMs w
    = Some ((w', log), Ok (upload_id session))
    /\ received w' = archive_bytes fs t.
Proof.
  intros Hnew Hread Hcreate Hnan Hprefix Hfuel.
  pose proof (TarStream_new_wf fs entries t Hnew Hread) as Hwf.
  destruct (TarStream_new_size entries t Hnew) as (Hsize & _).
  unfold uploadImageSetAsMediaSetTar. rewrite Hnew, Hsize, Z.eqb_refl. cbn [negb].
  rewrite Hcreate.
  destruct Hcoop as [Hquery _].
  destruct (Hquery w1 (upload_id session)) as (w2 & -> & Hsame).
  rewrite <- Hsize.
  assert (Z.of_nat (length (received w1)) <= getSizeBytes t) as Hle.
  { destruct Hwf as [_ Htotal]. destruct Hprefix as [tail Htail].
    unfold getSizeBytes. rewrite Htotal, Htail, length_app. lia. }
  destruct (Z.ltb_spec (Z.of_nat (length (received w1))) 0); [lia|].
  destruct (Z.ltb_spec (getSizeBytes t) (Z.of_nat (length (received w1)))); [lia|].
  cbn [orb]. rewrite <- Hsame in *.
  destruct (upload_loop_cooperative fs t (upload_id session)
              (Math_max (js_of_Z 1) (Math_floor (chunk_size_bytes session))) timeoutMs
              fuel fuel w2 [] Hwf)
    as (w' & log' & -> & Hfull);
    [by apply chunk_ok_not_nan|apply Math_max_floor_idem|done|done
    |unfold stream_fuel in Hfuel; lia|].
  rewrite Z.eqb_refl. cbn [negb]. by eauto.
Qed.

(** X13.  A chunk size that is not a number stalls the upload.  When the
    session reports a chunk size that is NaN and the server's offset lies
    before the end of the archive, [uploadImageSetAsMediaSetTar] fails with
    "Upload stalled" without sending anything. *)
Theorem nan_chunk_size_stalls fs entries t timeoutMs fuel w w1 w2 session offset :
  TarStream_new entries = Ok t ->
  createUploadSession client w (computeTarSizeBytes entries) = (w1, Ok session) ->
  chunk_size_bytes session = JNaN ->
  getUploadOffset client w1 (upload_id session) = (w2, Ok offset) ->
  0 <= offset < computeTarSizeBytes entries ->
  (1 <= fuel)%nat ->
  uploadImageSetAsMediaSetTar client fuel fs entries timeoutMs w
  = Some ((w2, []), Throw UploadStalled).
Proof.
  intros Hnew Hcreate Hnan Hquery Hoffset Hfuel.
  destruct (TarStream_new_size entries t Hnew) as (Hsize & _).
  unfold uploadImageSetAsMediaSetTar. rewrite Hnew, Hsize, Z.eqb_refl. cbn [negb].
  rewrite Hcreate, Hquery, Hnan.
  destruct (Z.ltb_spec offset 0); [lia|].
  destruct (Z.ltb_spec (computeTarSizeBytes entries) offset); [lia|].
  cbn [orb]. destruct fuel as [|fuel]; [lia|]. cbn [upload_loop].
  destruct (Z.ltb_spec offset (computeTarSizeBytes entries)); [|lia].
  unfold iterateChunks. rewrite normalized_start_Z, js_ge_inject by lia.
  unfold getSizeBytes in Hsize. rewrite Hsize.
  destruct (Z.leb_spec (computeTarSizeBytes entries) offset); [lia|].
  unfold js_of_Z at 1. rewrite Qfloor_Z. cbn [chunk_loop]. rewrite Hsize.
  destruct (Z.ltb_spec offset (computeTarSizeBytes entries)); [|lia].
  reflexivity.
Qed.

End Cooperative.

Lemma storing_client_cooperative c : cooperative (storing_client c) (fun w => w).
Proof.
  split.
  - intros w uploadId. by exists w.
  - intros w uploadId chunk timeoutMs. exists (w ++ chunk). cbn.
    by rewrite Z.eqb_refl.
Qed.

Lemma cooperative_upload_delivers_witness :
  exists w' log,
    uploadImageSetAsMediaSetTar (storing_client (js_of_Z 700)) (stream_fuel example_stream)
      example_fs example_entries 30000 []
    = Some ((w', log), Ok "upload-1"%string)
    /\ w' = archive_bytes example_fs example_stream.
Proof.
  apply (cooperative_upload_delivers (storing_client (js_of_Z 700)) (fun w => w)
           (storing_client_cooperative _) example_fs example_entries example_stream 30000
           (stream_fuel example_stream) [] []
           {| upload_id := "upload-1"; chunk_size_bytes := js_of_Z 700 |}).
  - vm_compute. reflexivity.
  - vm_compute. reflexivity.
  - reflexivity.
  - discriminate.
  - apply prefix_nil.
  - apply le_n.
Defined.

Lemma nan_chunk_size_stalls_witness :
  uploadImageSetAsMediaSetTar (storing_client JNaN) 1 example_fs example_entries 30000 []
  = Some (([], []), Throw UploadStalled).
Proof.
  apply (nan_chunk_size_stalls (storing_client JNaN) example_fs example_entries example_stream
           30000 1 [] [] [] {| upload_id := "upload-1"; chunk_size_bytes := JNaN |} 0).
  - vm_compute. reflexivity.
  - reflexivity.
  - reflexivity.
  - reflexivity.
  - vm_compute. split; [discriminate|reflexivity].
  - lia.
Defined.

(** ** The upload of a single file *)

Section CooperativeFile.

Context {Srv : Type} (client : EnriProxyClient Srv) (received : Srv -> list byte).
Hypothesis Hcoop : cooperative client received.

Lemma file_loop_cooperative content uploadId chunkSize timeoutMs fileSize :
  chunk_ok chunkSize -> 0 <= fileSize ->
  forall fuel w log,
    received w `prefix_of` take (Z.to_nat fileSize) content ->
    (length content - length (received w) < fuel)%nat ->
    exists w' log',
      file_loop client fuel content uploadId chunkSize timeoutMs fileSize
        (Z.of_nat (length (received w))) w log
      = Some ((w', log'), Ok (Z.min fileSize (Z.of_nat (length content))))
      /\ received w' = take (Z.to_nat fileSize) content.
Proof.
  intros Hchunk Hsize.
  induction fuel as [|fuel IH]; intros w log [tail Htail] Hfuel; [lia|].
  assert (Z.of_nat (length (received w)) + Z.of_nat (length tail)
          = Z.min fileSize (Z.of_nat (length content))) as Hlen.
  { apply (f_equal length) in Htail. rewrite length_take, length_app in Htail. lia. }
  assert (tail = take (Z.to_nat (fileSize - Z.of_nat (length (received w))))
                   (drop (length (received w)) content)) as Htail'.
  { apply (f_equal (drop (length (received w)))) in Htail.
    rewrite drop_app_length, skipn_firstn_comm in Htail. rewrite <- Htail. f_equal. lia. }
  cbn [file_loop].
  destruct (Z.ltb_spec (Z.of_nat (length (received w))) fileSize) as [Hlt|Hge].
  2:{ exists w, log. destruct tail; [|simpl in Hlen; lia].
      rewrite app_nil_r in Htail. split; [|done]. do 3 f_equal. simpl in Hlen. lia. }
  destruct (Math_min_chunk chunkSize (fileSize - Z.of_nat (length (received w))) Hchunk
              ltac:(lia)) as (d & -> & Hd & _).
  unfold js_of_Z. rewrite Qfloor_Z.
  destruct (Z.ltb_spec d 0); [lia|].
  destruct (Z.ltb_spec (Z.of_nat (length (received w))) 0); [lia|].
  rewrite Nat2Z.id.
  set (data := take (Z.to_nat d) (drop (length (received w)) content)).
  assert (tail = data ++ drop (Z.to_nat d) tail) as Hsplit.
  { rewrite <- (take_drop (Z.to_nat d) tail) at 1. f_equal.
    rewrite Htail', take_take. unfold data. f_equal. lia. }
  assert (length data = Nat.min (Z.to_nat d) (length content - length (received w))) as Hdata
    by (unfold data; by rewrite length_take, length_drop).
  destruct (Z.leb_spec (Z.of_nat (length data)) 0) as [Hempty|Hread].
  { exists w, log.
    destruct tail; [|simpl in Hlen; lia]. rewrite app_nil_r in Htail. split; [|done].
    do 3 f_equal. simpl in Hlen. lia. }
  destruct (retry_cooperative client received Hcoop uploadId data timeoutMs w log)
    as (w1 & -> & Hrec).
  destruct (IH w1 (log ++ [LogProgress (Z.of_nat (length (received w1))) fileSize]))
    as (w' & log' & Hrun & Hfull).
  - exists (drop (Z.to_nat d) tail). by rewrite Htail, Hrec, <- app_assoc, <- Hsplit.
  - rewrite Hrec, length_app. lia.
  - by eauto.
Qed.

(** X14.  A single file reaches a storing server.  When the session has a
    chunk size that is not NaN and the server, which already holds some
    first bytes of the file (none for a new session), stores every chunk it
    is sent at its offset, the single-path branch of [execute] returns the
    upload id of the session and the server then holds exactly the bytes of
    the file. *)
Theorem single_file_delivers fs singlePath content timeoutMs fuel w w1 session :
  fs !! singlePath = Some content ->
  createUploadSession client w (Z.of_nat (length content)) = (w1, Ok session) ->
  chunk_size_bytes session <> JNaN ->
  received w1 `prefix_of` content ->
  (length content < fuel)%nat ->
  exists w' log,
    uploadSingleFile client fuel fs singlePath timeoutMs w
    = Some ((w', log), Ok (upload_id session))
    /\ received w' = content.
Proof.
  intros Hfile Hcreate Hnan Hprefix Hfuel.
  unfold uploadSingleFile, uploadFileResumable. rewrite Hfile, Hcreate.
  destruct Hcoop as [Hquery _].
  destruct (Hquery w1 (upload_id session)) as (w2 & -> & Hsame).
  rewrite <- Hsame in *.
  destruct (file_loop_cooperative content (upload_id session)
              (Math_max (js_of_Z 1) (Math_floor (chunk_size_bytes session))) timeoutMs
              (Z.of_nat (length content)) (chunk_ok_not_nan _ Hnan) ltac:(lia) fuel w2 [])
    as (w' & log' & -> & Hfull).
  - by rewrite Nat2Z.id, firstn_all.
  - lia.
  - rewrite Z.min_id, Z.eqb_refl. cbn [negb].
    rewrite Nat2Z.id, firstn_all in Hfull. by eauto.
Qed.

(** X15.  A file that is shorter than announced.  With a storing server and
    a chunk size that is not NaN, [uploadFileResumable] sends the first
    [fileSize] bytes of the file, and all of the file when it has fewer: it
    returns the smaller of [fileSize] and the length of the file, which the
    caller compares with [fileSize]. *)
Theorem resumable_sends_what_the_file_has fs filePath content fileSize session timeoutMs fuel w :
  fs !! filePath = Some content ->
  chunk_size_bytes session <> JNaN -> 0 <= fileSize ->
  received w `prefix_of` take (Z.to_nat fileSize) content ->
  (length content < fuel)%nat ->
  exists w' log,
    uploadFileResumable client fuel fs filePath fileSize session timeoutMs w
    = Some ((w', log), Ok (Z.min fileSize (Z.of_nat (length content))))
    /\ received w' = take (Z.to_nat fileSize) content.
Proof.
  intros Hfile Hnan Hsize Hprefix Hfuel.
  unfold uploadFileResumable. rewrite Hfile.
  destruct Hcoop as [Hquery _].
  destruct (Hquery w (upload_id session)) as (w2 & -> & Hsame).
  rewrite <- Hsame in *.
  apply file_loop_cooperative; [by apply chunk_ok_not_nan|done|done|lia].
Qed.

End CooperativeFile.

(** X16.  A chunk size that is not a number, for a single file.  When the
    session reports a chunk size that is NaN and the server's offset lies
    before the end of the file, [uploadFileResumable] fails on the
    allocation of its first buffer, without sending anything. *)
Theorem nan_chunk_size_fails_file {Srv : Type} (client : EnriProxyClient Srv)
    fs filePath content fileSize session timeoutMs fuel w w1 offset :
  fs !! filePath = Some content ->
  chunk_size_bytes session = JNaN ->
  getUploadOffset client w (upload_id session) = (w1, Ok offset) ->
  offset < fileSize -> (1 <= fuel)%nat ->
  uploadFileResumable client fuel fs filePath fileSize session timeoutMs w
  = Some ((w1, []), Throw InvalidBufferSize).
Proof.
  intros Hfile Hnan Hquery Hoffset Hfuel.
  unfold uploadFileResumable. rewrite Hfile, Hquery, Hnan.
  destruct fuel as [|fuel]; [lia|]. cbn [file_loop].
  destruct (Z.ltb_spec offset fileSize); [|lia]. reflexivity.
Qed.

Lemma single_file_delivers_witness :
  exists w' log,
    uploadSingleFile (storing_client (js_of_Z 4)) 12 example_fs "/tmp/shot-a.png" 30000 []
    = Some ((w', log), Ok "upload-1"%string)
    /\ w' = utf8_encode (js "hello world").
Proof.
  apply (single_file_delivers (storing_client (js_of_Z 4)) (fun w => w)
           (storing_client_cooperative _) example_fs "/tmp/shot-a.png"
           (utf8_encode (js "hello world")) 30000 12 [] []
           {| upload_id := "upload-1"; chunk_size_bytes := js_of_Z 4 |}).
  - vm_compute. reflexivity.
  - reflexivity.
  - discriminate.
  - apply prefix_nil.
  - vm_compute. lia.
Defined.

Lemma resumable_sends_what_the_file_has_witness :
  exists w' log,
    uploadFileResumable (storing_client JPosInf) 12 example_fs "/tmp/shot-a.png" 20
      {| upload_id := "upload-1"; chunk_size_bytes := JPosInf |} 30000
      (utf8_encode (js "hello"))
    = Some ((w', log), Ok (Z.min 20 (Z.of_nat (length (utf8_encode (js "hello world"))))))
    /\ w' = take (Z.to_nat 20) (utf8_encode (js "hello world")).
Proof.
  apply (resumable_sends_what_the_file_has (storing_client JPosInf) (fun w => w)
           (storing_client_cooperative _) example_fs "/tmp/shot-a.png"
           (utf8_encode (js "hello world")) 20
           {| upload_id := "upload-1"; chunk_size_bytes := JPosInf |} 30000 12
           (utf8_encode (js "hello"))).
  - vm_compute. reflexivity.
  - discriminate.
  - lia.
  - exists (utf8_encode (js " world")). vm_compute. reflexivity.
  - vm_compute. lia.
Defined.

Lemma nan_chunk_size_fails_file_witness :
  uploadFileResumable (storing_client JNaN) 1 example_fs "/tmp/shot-a.png" 11
    {| upload_id := "upload-1"; chunk_size_bytes := JNaN |} 30000 []
  = Some (([], []), Throw InvalidBufferSize).
Proof.
  apply (nan_chunk_size_fails_file (storing_client JNaN) example_fs "/tmp/shot-a.png"
           (utf8_encode (js "hello world")) 11
           {| upload_id := "upload-1"; chunk_size_bytes := JNaN |} 30000 1 [] [] 0).
  - vm_compute. reflexivity.
  - reflexivity.
  - reflexivity.
  - lia.
  - lia.
Defined.

(** ** The sanitizer *)

(** Induction on a value, with the hypothesis on every item of an array and
    on every property value of an object. *)
Lemma jsvalue_nested_ind (P : jsvalue -> Prop) :
  P VUndefined -> P VNull -> (forall b, P (VBool b)) -> (forall x, P (VNumber x)) ->
  (forall s, P (VString s)) ->
  (forall items, Forall P items -> P (VArray items)) ->
  (forall entries, Forall (fun kv => P kv.2) entries -> P (VObject entries)) ->
  forall value, P value.
Proof.
  intros Hundef Hnull Hbool Hnum Hstr Harr Hobj.
  fix IH 1. intros [| |b|x|s|items|entries].
  - exact Hundef.
  - exact Hnull.
  - apply Hbool.
  - apply Hnum.
  - apply Hstr.
  - apply Harr. induction items as [|v items IHitems]; constructor; [apply IH|exact IHitems].
  - apply Hobj. induction entries as [|[k v] entries IHentries]; constructor;
      [apply IH|exact IHentries].
Qed.

Lemma strip_object entries :
  stripInternalFields (VObject entries)
  = VObject (map (fun kv => (kv.1, stripInternalFields kv.2))
               (filter (fun kv => kept kv = true) entries)).
Proof.
  cbn [stripInternalFields]. f_equal.
  induction entries as [|[k v] entries IH]; [done|].
  destruct (is_internal_key k) eqn:Hinternal.
  { rewrite filter_cons_False; [exact IH|]. unfold kept. cbn [fst]. by rewrite Hinternal. }
  destruct (is_proto_key k) eqn:Hproto.
  { rewrite filter_cons_False; [exact IH|]. unfold kept. cbn [fst].
    by rewrite Hinternal, Hproto. }
  rewrite filter_cons_True by (unfold kept; cbn [fst]; by rewrite Hinternal, Hproto).
  cbn [map fst snd]. by rewrite IH.
Qed.

Lemma only_kept_object entries :
  only_kept_keys (VObject entries)
  = forallb (fun kv => kept kv && only_kept_keys kv.2) entries.
Proof.
  cbn [only_kept_keys].
  induction entries as [|[k v] entries IH]; [done|].
  cbn [forallb fst snd]. unfold kept. cbn [fst]. by rewrite IH.
Qed.

Lemma strip_only_kept value : only_kept_keys (stripInternalFields value) = true.
Proof.
  induction value as [| |b|x|s|items IH|entries IH] using jsvalue_nested_ind; try done.
  - cbn [stripInternalFields only_kept_keys]. rewrite forallb_forall.
    intros v Hv. apply in_map_iff in Hv as (v0 & <- & Hv0).
    rewrite Forall_forall in IH. apply IH. by apply list_elem_of_In.
  - rewrite strip_object, only_kept_object, forallb_forall.
    intros [k v] Hv. apply in_map_iff in Hv as ([k0 v0] & [= <- <-] & Hv0).
    apply list_elem_of_In, list_elem_of_filter in Hv0 as [Hkept Hin].
    cbn [fst snd]. rewrite Forall_forall in IH.
    apply andb_true_intro. split; [exact Hkept|]. exact (IH _ Hin).
Qed.

Lemma strip_fixed value :
  only_kept_keys value = true -> stripInternalFields value = value.
Proof.
  induction value as [| |b|x|s|items IH|entries IH] using jsvalue_nested_ind; try done.
  - cbn [stripInternalFields only_kept_keys]. intros Hall. f_equal.
    rewrite forallb_forall in Hall.
    induction IH as [|v items Hv _ IHitems]; [done|]. cbn [map]. f_equal.
    + apply Hv, Hall. by left.
    + apply IHitems. intros v' Hv'. apply Hall. by right.
  - rewrite strip_object, only_kept_object. intros Hall. f_equal.
    rewrite forallb_forall in Hall.
    induction IH as [|[k v] entries Hv _ IHentries]; [done|].
    assert (kept (k, v) && only_kept_keys v = true) as Hkv by (apply (Hall (k, v)); by left).
    apply andb_prop in Hkv as [Hkept Hclean].
    rewrite filter_cons_True by done. cbn [map fst snd]. f_equal.
    + f_equal. by apply Hv.
    + apply IHentries. intros kv Hkv. apply Hall. by right.
Qed.

(** X17.  The sanitizer removes the internal fields at every depth.
    Whatever the response holds, no object inside the result of
    [stripInternalFields], at any depth, has one of the keys [upload_id],
    [uploadId], [detected_media_type], [analysis_mode_requested],
    [analysis_mode_used], [multipass] or [model] (nor an own property
    [__proto__]); and
    [stripInternalExtractionFields] returns an object, the empty one when the
    extraction is not an object. *)
Theorem sanitizer_removes_internal_keys value :
  only_kept_keys (stripInternalFields value) = true
  /\ only_kept_keys (stripInternalExtractionFields value) = true
  /\ (exists entries, stripInternalExtractionFields value = VObject entries)
  /\ ((forall entries, value <> VObject entries) ->
      stripInternalExtractionFields value = VObject []).
Proof.
  split; [apply strip_only_kept|].
  unfold stripInternalExtractionFields, asPlainObject.
  pose proof (strip_only_kept value) as Hclean.
  destruct value as [| |b|x|s|items|entries]; try (by eauto 6).
  split; [exact Hclean|]. split; [|by intros H; destruct (H entries)].
  rewrite strip_object. by eauto.
Qed.

(** X18.  The sanitizer changes nothing else.  [stripInternalFields] returns
    a value unchanged exactly when no object inside it has an internal key
    (or the key [__proto__], which an assignment does not copy); so it is
    idempotent, and the entries it keeps in an object are the others, in
    their order, each with its sanitized value. *)
Theorem sanitizer_keeps_the_rest value :
  (stripInternalFields value = value <-> only_kept_keys value = true)
  /\ stripInternalFields (stripInternalFields value) = stripInternalFields value
  /\ (forall entries, value = VObject entries ->
      stripInternalFields value
      = VObject (map (fun kv => (kv.1, stripInternalFields kv.2))
                   (filter (fun kv => kept kv = true) entries))).
Proof.
  split; [split|split].
  - intros <-. apply strip_only_kept.
  - apply strip_fixed.
  - apply strip_fixed, strip_only_kept.
  - intros entries ->. apply strip_object.
Qed.

(** ** The normalisation of the server URL *)

Lemma drop_slashes_spec s :
  exists k, s = replicate k 47%N ++ drop_slashes s /\ head (drop_slashes s) <> Some 47%N.
Proof.
  induction s as [|c s (k & Hs & Hhead)]; [by exists 0%nat|].
  cbn [drop_slashes]. destruct (N.eqb_spec c 47) as [->|Hc].
  - exists (S k). split; [|done]. cbn [replicate app]. by rewrite <- Hs.
  - exists 0%nat. split; [done|]. cbn. congruence.
Qed.

Lemma strip_trailing_slashes_spec url :
  exists k, url = strip_trailing_slashes url ++ replicate k 47%N
            /\ last (strip_trailing_slashes url) <> Some 47%N.
Proof.
  unfold strip_trailing_slashes.
  destruct (drop_slashes_spec (rev url)) as (k & Hs & Hhead).
  exists k. split.
  - rewrite <- (rev_involutive url) at 1. rewrite Hs at 1.
    rewrite rev_app_distr. f_equal.
    clear. induction k as [|k IH]; [done|]. cbn [replicate rev].
    rewrite IH. clear. induction k as [|k IH]; [done|]. cbn. by rewrite IH.
  - destruct (drop_slashes (rev url)) as [|c rest]; [done|].
    cbn [rev]. rewrite last_snoc. cbn in Hhead. congruence.
Qed.

Lemma drop_slashes_app l c z :
  c <> 47%N -> drop_slashes (l ++ c :: z) = drop_slashes l ++ c :: z.
Proof.
  intros Hc. induction l as [|d l IH]; cbn [app drop_slashes].
  - by destruct (N.eqb_spec c 47).
  - by destruct (d =? 47)%N.
Qed.

Lemma strip_trailing_slashes_app pre c rest :
  c <> 47%N ->
  strip_trailing_slashes (pre ++ c :: rest) = pre ++ c :: strip_trailing_slashes rest.
Proof.
  intros Hc. unfold strip_trailing_slashes.
  rewrite rev_app_distr. cbn [rev]. rewrite <- app_assoc. cbn [app].
  rewrite drop_slashes_app by done.
  rewrite rev_app_distr. cbn [rev]. rewrite rev_involutive, <- app_assoc. reflexivity.
Qed.

Lemma startsWith_spec s p : startsWith s p = true <-> exists rest, s = p ++ rest.
Proof.
  revert s. induction p as [|c p IH]; intros s; cbn [startsWith].
  - split; [intros _; by exists s|by intros _].
  - destruct s as [|d s]; [split; [done|by intros [rest ?]]|].
    rewrite andb_true_iff, N.eqb_eq, IH. split.
    + intros [-> [rest ->]]. by exists rest.
    + intros [rest [= -> ->]]. by eauto.
Qed.

(** X19.  The normalised server URL.  When [assertHttpUrl] accepts a value,
    the value is a string whose trimmed text begins with "http://" or
    "https://", and the result is that text without the slashes at its end:
    it does not end with a slash and still begins with "http:" or "https:"
    (for the text "http://" the result is "http:"). *)
Theorem assertHttpUrl_normalizes value name r :
  assertHttpUrl value name = Ok r ->
  exists s k,
    value = VString s
    /\ trim s = r ++ replicate k 47%N
    /\ last r <> Some 47%N
    /\ (startsWith (trim s) (js "http://") = true
        \/ startsWith (trim s) (js "https://") = true)
    /\ (startsWith r (js "http:") = true \/ startsWith r (js "https:") = true).
Proof.
  unfold assertHttpUrl, assertNonEmptyString.
  destruct value as [| |b|x|s|items|entries]; try done.
  destruct (trim s) as [|c url] eqn:Htrim; [done|]. rewrite <- Htrim.
  destruct (startsWith (trim s) (js "http://")) eqn:Hhttp;
    [|destruct (startsWith (trim s) (js "https://")) eqn:Hhttps; [|done]];
    cbn [negb andb]; intros [= <-];
    destruct (strip_trailing_slashes_spec (trim s)) as (k & Hk & Hlast);
    exists s, k; (do 4 (split; [by eauto|])).
  - left. apply startsWith_spec in Hhttp as [rest ->].
    change (js "http://" ++ rest) with (js "http" ++ 58%N :: (js "//" ++ rest)).
    rewrite strip_trailing_slashes_app by done.
    apply startsWith_spec. by eauto.
  - right. apply startsWith_spec in Hhttps as [rest ->].
    change (js "https://" ++ rest) with (js "https" ++ 58%N :: (js "//" ++ rest)).
    rewrite strip_trailing_slashes_app by done.
    apply startsWith_spec. by eauto.
Qed.

Lemma assertHttpUrl_normalizes_witness :
  exists s k,
    VString (js " https://proxy.example/v1// ") = VString s
    /\ trim s = js "https://proxy.example/v1" ++ replicate k 47%N
    /\ last (js "https://proxy.example/v1") <> Some 47%N
    /\ (startsWith (trim s) (js "http://") = true
        \/ startsWith (trim s) (js "https://") = true)
    /\ (startsWith (js "https://proxy.example/v1") (js "http:") = true
        \/ startsWith (js "https://proxy.example/v1") (js "https:") = true).
Proof.
  apply (assertHttpUrl_normalizes (VString (js " https://proxy.example/v1// "))
           "ENRIPROXY_URL" (js "https://proxy.example/v1")).
  vm_compute. reflexivity.
Defined.

(** ** The entry names of a media set *)

Lemma forallb_Forall {A} (f : A -> bool) l :
  forallb f l = true <-> Forall (fun x => f x = true) l.
Proof.
  induction l as [|x l IH]; cbn [forallb]; [split; [constructor|done]|].
  rewrite andb_true_iff, Forall_cons, IH. done.
Qed.

Lemma dec_digits_rev_digits fuel n :
  0 <= n -> Forall (fun d => 0 <= d < 10) (dec_digits_rev fuel n).
Proof.
  revert n. induction fuel as [|f IH]; intros n Hn; cbn [dec_digits_rev]; [constructor|].
  destruct (Z.ltb_spec n 10).
  - repeat constructor; lia.
  - constructor; [apply Z.mod_pos_bound; lia|]. apply IH. apply Z.div_pos; lia.
Qed.

Lemma dec_digits_rev_value fuel n :
  0 <= n < 10 ^ Z.of_nat fuel -> dec_value (dec_digits_rev fuel n) = n.
Proof.
  revert n. induction fuel as [|f IH]; intros n Hn; cbn [dec_digits_rev].
  - change (10 ^ Z.of_nat 0) with 1 in Hn. cbn. lia.
  - destruct (Z.ltb_spec n 10); [cbn; lia|].
    cbn [dec_value]. rewrite IH.
    + pose proof (Z.div_mod n 10 ltac:(lia)). lia.
    + rewrite Nat2Z.inj_succ, Z.pow_succ_r in Hn by lia.
      split; [apply Z.div_pos; lia|]. apply Z.div_lt_upper_bound; lia.
Qed.

Lemma dec_digits_rev_length_le fuel n k :
  0 <= n < 10 ^ Z.of_nat k -> (1 <= k)%nat -> (length (dec_digits_rev fuel n) <= k)%nat.
Proof.
  revert n k. induction fuel as [|f IH]; intros n k Hn Hk; cbn [dec_digits_rev]; [simpl; lia|].
  destruct (Z.ltb_spec n 10); [simpl; lia|].
  destruct k as [|[|k]]; [lia| |].
  - change (10 ^ Z.of_nat 1) with 10 in Hn. lia.
  - cbn [length]. apply le_n_S. apply IH; [|lia].
    rewrite Nat2Z.inj_succ, Z.pow_succ_r in Hn by lia.
    split; [apply Z.div_pos; lia|]. apply Z.div_lt_upper_bound; lia.
Qed.

Lemma log2_fuel10 n : 0 <= n -> n < 10 ^ Z.of_nat (S (Z.to_nat (Z.log2 n))).
Proof.
  intros Hn. rewrite Nat2Z.inj_succ, Z2Nat.id by apply Z.log2_nonneg.
  destruct (Z.eq_dec n 0) as [->|]; [done|].
  pose proof (Z.log2_spec n ltac:(lia)) as [_ H].
  eapply Z.lt_le_trans; [exact H|].
  apply Z.pow_le_mono_l. lia.
Qed.

Lemma parse_dec_digits_rev l acc :
  Forall (fun d => 0 <= d < 10) l ->
  parse_dec_digits acc (map digit_char (rev l)) = acc * 10 ^ Z.of_nat (length l) + dec_value l.
Proof.
  intros Hl. revert acc. induction Hl as [|d l Hd _ IH]; intros acc.
  - cbn. lia.
  - cbn [rev]. rewrite map_app.
    assert (forall s r a, parse_dec_digits a (s ++ r) = parse_dec_digits (parse_dec_digits a s) r)
      as Happ by (induction s as [|c s IHs]; intros r a; [done|apply IHs]).
    rewrite Happ, IH. cbn [map parse_dec_digits length dec_value].
    replace (Z.of_N (digit_char d - 48)) with d by (unfold digit_char; lia).
    rewrite Nat2Z.inj_succ, Z.pow_succ_r by lia. lia.
Qed.

Lemma parse_dec_digits_zeros k s :
  parse_dec_digits 0 (replicate k 48%N ++ s) = parse_dec_digits 0 s.
Proof. induction k as [|k IH]; [done|]. exact IH. Qed.

Lemma toString10_parse n k :
  0 <= n -> parse_dec_digits 0 (padStart (toString10 n) k) = n.
Proof.
  intros Hn. unfold padStart, toString10. rewrite parse_dec_digits_zeros.
  rewrite parse_dec_digits_rev by by apply dec_digits_rev_digits.
  rewrite dec_digits_rev_value; [lia|]. split; [done|]. by apply log2_fuel10.
Qed.

Lemma toString10_length n :
  0 <= n < 10 ^ 6 -> length (padStart (toString10 n) 6) = 6%nat.
Proof.
  intros Hn. rewrite length_padStart; [done|].
  unfold toString10. rewrite length_map, length_rev.
  apply (dec_digits_rev_length_le _ n 6); [done|lia].
Qed.

Lemma is_digit_char_safe c :
  (48 <= c <= 57)%N -> is_safe_char c = true /\ is_white_space c = false.
Proof.
  intros Hc. split.
  - unfold is_safe_char. replace ((48 <=? c) && (c <=? 57))%N with true; [by rewrite !orb_true_r|].
    symmetry. apply andb_true_intro. split; apply N.leb_le; lia.
  - unfold is_white_space.
    repeat (apply orb_false_iff; split); try (apply N.eqb_neq; lia).
    apply andb_false_iff. left. apply N.leb_gt. lia.
Qed.

Lemma toString10_chars n k :
  0 <= n -> Forall (fun c => (48 <= c <= 57)%N) (padStart (toString10 n) k).
Proof.
  intros Hn. unfold padStart. apply Forall_app. split.
  - apply Forall_replicate. lia.
  - unfold toString10. apply Forall_map, Forall_rev.
    eapply Forall_impl; [by apply dec_digits_rev_digits|].
    intros d Hd. unfold digit_char. cbn beta in *. lia.
Qed.

Lemma ext_char_safe c :
  is_ext_char c = true -> is_safe_char c = true /\ is_white_space c = false.
Proof.
  unfold is_ext_char. intros H.
  assert ((97 <= c <= 122)%N \/ (48 <= c <= 57)%N \/ c = 46%N) as Hc.
  { repeat match type of H with
           | (_ || _)%bool = true => apply orb_true_iff in H as [H|H]
           | (_ && _)%bool = true => apply andb_true_iff in H as [? H]
           end;
      repeat match goal with
             | H : (_ <=? _)%N = true |- _ => apply N.leb_le in H
             | H : (_ =? _)%N = true |- _ => apply N.eqb_eq in H
             end; lia. }
  destruct Hc as [Hc|[Hc| ->]]; [|by apply is_digit_char_safe|done].
  split.
  - unfold is_safe_char.
    replace ((97 <=? c) && (c <=? 122))%N with true; [by rewrite !orb_true_r|].
    symmetry. apply andb_true_intro. split; apply N.leb_le; lia.
  - unfold is_white_space.
    repeat (apply orb_false_iff; split); try (apply N.eqb_neq; lia).
    apply andb_false_iff. left. apply N.leb_gt. lia.
Qed.

(** The extension that [entryName] appends. *)
Lemma entryName_ext i extRaw :
  exists ext,
    entryName i extRaw = padStart (toString10 (i + 1)) 6 ++ ext
    /\ Forall (fun c => is_ext_char c = true) ext
    /\ (ext_regex extRaw = true -> ext = extRaw)
    /\ (ext_regex extRaw = false -> ext = js ".img").
Proof.
  unfold entryName. destruct (ext_regex extRaw) eqn:Hre.
  - exists extRaw. destruct extRaw as [|c r]; [done|].
    split; [done|]. split; [|done].
    unfold ext_regex in Hre. apply andb_prop in Hre as [_ Hall].
    by apply forallb_Forall.
  - exists (js ".img"). split; [by destruct extRaw|].
    split; [|done]. by repeat constructor.
Qed.

Lemma entryName_safe i extRaw :
  0 <= i < 999999 ->
  isSafeTarName (entryName i extRaw) = true
  <-> (ext_regex extRaw = true -> (length extRaw <= 94)%nat).
Proof.
  intros Hi.
  destruct (entryName_ext i extRaw) as (ext & Hname & Hext & Hkeep & Hdefault).
  pose proof (toString10_chars (i + 1) 6 ltac:(lia)) as Hdigits.
  pose proof (toString10_length (i + 1) ltac:(lia)) as Hlen.
  rewrite Hname. set (pad := padStart _ 6) in *.
  assert (Forall (fun c => is_safe_char c = true /\ is_white_space c = false) (pad ++ ext))
    as Hchars.
  { apply Forall_app. split.
    - eapply Forall_impl; [exact Hdigits|]. intros c Hc. by apply is_digit_char_safe.
    - eapply Forall_impl; [exact Hext|]. intros c Hc. by apply ext_char_safe. }
  assert (forallb is_safe_char (pad ++ ext) = true) as Hsafe.
  { apply forallb_Forall. eapply Forall_impl; [exact Hchars|]. by intros c [? _]. }
  rewrite isSafeTarName_spec, trim_id
    by (eapply Forall_impl; [exact Hchars|]; by intros c [_ ?]).
  unfold name_invariant.
  destruct (pad ++ ext) as [|c0 r] eqn:Hne.
  { apply (f_equal length) in Hne. rewrite length_app, Hlen in Hne. simpl in Hne. lia. }
  rewrite <- Hne in *. clear Hne c0 r.
  destruct (includes (pad ++ ext) 47) eqn:H47;
    [by rewrite (includes_unsafe _ 47) in Hsafe|].
  destruct (includes (pad ++ ext) 92) eqn:H92;
    [by rewrite (includes_unsafe _ 92) in Hsafe|].
  rewrite Hsafe, byteLength_safe, length_app, Hlen by done. cbn [negb].
  rewrite !andb_true_r, Z.leb_le.
  destruct (ext_regex extRaw) eqn:Hre.
  - rewrite (Hkeep eq_refl). split; [intros; lia|intros H; specialize (H eq_refl); lia].
  - rewrite (Hdefault eq_refl). split; [done|intros _; simpl; lia].
Qed.

Lemma entryName_inj i j ext1 ext2 :
  0 <= i < 999999 -> 0 <= j < 999999 ->
  entryName i ext1 = entryName j ext2 -> i = j.
Proof.
  intros Hi Hj Heq.
  destruct (entryName_ext i ext1) as (e1 & H1 & _).
  destruct (entryName_ext j ext2) as (e2 & H2 & _).
  rewrite H1, H2 in Heq. apply (f_equal (take 6)) in Heq.
  rewrite !take_app_length' in Heq by (symmetry; apply toString10_length; lia).
  apply (f_equal (parse_dec_digits 0)) in Heq.
  rewrite !toString10_parse in Heq by lia. lia.
Qed.

Lemma file_entries_names files nowSeconds : forall i entry,
  entry ∈ file_entries i files nowSeconds ->
  exists j f, i <= j < i + Z.of_nat (length files) /\ f ∈ files
              /\ name entry = entryName j (f_extRaw f).
Proof.
  induction files as [|f files IH]; intros i entry Hin; cbn [file_entries] in Hin.
  - by apply elem_of_nil in Hin.
  - apply elem_of_cons in Hin as [->|Hin].
    + exists i, f. cbn [length name]. split; [lia|]. split; [by left|done].
    + destruct (IH _ _ Hin) as (j & f' & Hj & Hf & Hname).
      exists j, f'. cbn [length]. split; [lia|]. split; [by right|done].
Qed.

Lemma file_entries_NoDup files nowSeconds : forall i,
  0 <= i -> i + Z.of_nat (length files) <= 999999 ->
  NoDup (map name (file_entries i files nowSeconds)).
Proof.
  induction files as [|f files IH]; intros i Hi Hmax; cbn [file_entries map].
  - constructor.
  - cbn [length] in Hmax. constructor; [|apply IH; lia].
    cbn [name]. intros Hin. apply list_elem_of_fmap in Hin as (entry & Hname & Hin).
    apply file_entries_names in Hin as (j & f' & Hj & _ & Hname').
    rewrite Hname' in Hname. apply entryName_inj in Hname; lia.
Qed.

Lemma file_entries_safe files nowSeconds : forall i,
  0 <= i -> i + Z.of_nat (length files) <= 999999 ->
  Forall (fun entry => isSafeTarName (name entry) = true) (file_entries i files nowSeconds)
  <-> Forall ext_fits files.
Proof.
  induction files as [|f files IH]; intros i Hi Hmax; cbn [file_entries].
  - split; constructor.
  - cbn [length] in Hmax. rewrite !Forall_cons, IH by lia. cbn [name].
    rewrite entryName_safe by lia. done.
Qed.

(** X20.  The entries of a media set.  For fewer than 10^6 files, the
    entry names that [uploadImageSetAsMediaSetTar] builds ("manifest.json",
    then the six-digit index of each file followed by its extension, or by
    ".img") are pairwise distinct, and [TarStream] accepts the entries
    exactly when every extension that is kept has at most 94 characters:
    a longer one makes the construction fail on the entry name. *)
Theorem media_set_entries_accepted manifestBuffer files nowSeconds :
  Z.of_nat (length files) < 1000000 ->
  NoDup (map name (media_set_entries manifestBuffer files nowSeconds))
  /\ ((exists t, TarStream_new (media_set_entries manifestBuffer files nowSeconds) = Ok t)
      <-> Forall ext_fits files).
Proof.
  intros Hcount.
  pose proof (file_entries_safe files nowSeconds 0 ltac:(lia) ltac:(lia)) as Hsafe.
  split.
  - unfold media_set_entries. cbn [map name]. constructor;
      [|apply file_entries_NoDup; lia].
    intros Hin. apply list_elem_of_fmap in Hin as (entry & Hname & Hin).
    apply file_entries_names in Hin as (j & f & Hj & _ & Hname').
    rewrite Hname' in Hname.
    destruct (entryName_ext j (f_extRaw f)) as (ext & Hext & _).
    pose proof (toString10_chars (j + 1) 6 ltac:(lia)) as Hdigits.
    pose proof (toString10_length (j + 1) ltac:(lia)) as Hlen.
    rewrite Hext in Hname. destruct (padStart (toString10 (j + 1)) 6) as [|c r]; [done|].
    apply Forall_cons in Hdigits as [Hc _]. injection Hname as <- _. lia.
  - rewrite <- Hsafe. unfold TarStream_new, media_set_entries. split.
    + intros [t Hnew].
      destruct (layout_entries _ 0) as [[l c]|e] eqn:Hlayout; [|done].
      apply layout_entries_ok in Hlayout. by apply Forall_cons in Hlayout as [_ ?].
    + intros Hall.
      destruct (layout_entries _ 0) as [[l c]|e] eqn:Hlayout; [by eauto|].
      assert (exists e, layout_entries
                ({| name := js "manifest.json"; source := SourceBuffer manifestBuffer;
                    mtimeSeconds := nowSeconds |} :: file_entries 0 files nowSeconds) 0
              = Throw e) as Hthrow by eauto.
      apply layout_entries_throw in Hthrow.
      apply Exists_cons in Hthrow as [Hbad|Hbad]; [done|].
      apply Exists_exists in Hbad as (entry & Hin & Hbad).
      rewrite Forall_forall in Hall. by rewrite (Hall _ Hin) in Hbad.
Qed.

Lemma media_set_entries_accepted_witness :
  NoDup (map name (media_set_entries (utf8_encode (js "{}")) example_files 1700000000))
  /\ ((exists t, TarStream_new (media_set_entries (utf8_encode (js "{}")) example_files
                                 1700000000) = Ok t)
      <-> Forall ext_fits example_files).
Proof.
  apply (media_set_entries_accepted (utf8_encode (js "{}")) example_files 1700000000).
  vm_compute. reflexivity.
Defined.
